(** * perfTest.cpp: the hash-table benchmark harness

    A shallow embedding of [src/perfTest.cpp]: the fixed hash function, the
    trace parser, the sequential and the fine-grained runs and the driver
    loop of [main], with the properties of the harness proved about them.

    Conventions.
    - [int] is a 32-bit two's-complement integer, held as a [Z] and brought
      back into range by [to_int]; [size_t] is 64 bits wide ([to_size_t]).
      The overflow of a signed operation, which C++ leaves undefined, only
      happens in [hash]: [hash_checked] keeps it apart.
    - [std::string] is [string]; positions and counts are [size_t] values.
    - The two table classes ([SeqHashTable], [FgHashTable]) are used through
      the interface [HashTable]. *)

From Stdlib Require Import ZArith Lia List String Ascii Bool.
From Stdlib Require DecimalString DecimalPos DecimalFacts.
From stdpp Require Import base list relations.
Import ListNotations.
Local Open Scope Z_scope.

(* ===================================================================== *)
(** ** Machine integers *)
(* ===================================================================== *)

Module MachInt.

Definition INT_MAX : Z := 2147483647.
Definition INT_MIN : Z := -2147483648.
Definition two32 : Z := 4294967296.
Definition two31 : Z := 2147483648.
Definition two64 : Z := 18446744073709551616.

(** Value of a mathematical integer once stored in an [int]. *)
Definition to_int (z : Z) : Z := (z + two31) mod two32 - two31.

(** Value of a mathematical integer once stored in a [size_t] (or any
    64-bit unsigned). *)
Definition to_size_t (z : Z) : Z := z mod two64.

(** Value of a mathematical integer once stored in a [uint]. *)
Definition to_uint (z : Z) : Z := z mod two32.

Definition in_int (z : Z) : Prop := INT_MIN <= z <= INT_MAX.

(** [abs] of <stdlib.h> on a two's-complement machine: the negation is
    computed in [int], so [abs(INT_MIN)] is [INT_MIN] again. *)
Definition c_abs (x : Z) : Z := to_int (Z.abs x).

End MachInt.
Import MachInt.

(* ===================================================================== *)
(** ** The hash function (perfTest.cpp, lines 34-43) *)
(* ===================================================================== *)

(** One iteration of the loop body, on the pair [(temp, hashVal)]:
    [hashVal *= 31; hashVal += temp % 10; temp /= 10;].  C's [%] and [/]
    truncate towards zero, which is [Z.rem] and [Z.quot].

    The two operations on [hashVal] are computed here in the arithmetic of
    the machine, 32 bits in two's complement, which is what the compiled
    loop leaves as long as the compiler makes nothing of an overflow.  In
    C++ the overflow of a signed [int] is undefined: [hash_checked] below
    is the same function with every overflow left undefined, and the two
    agree on every tag on which nothing overflows. *)
Definition hash_body (temp hashVal : Z) : Z * Z :=
  let hashVal := to_int (hashVal * 31) in
  let hashVal := to_int (hashVal + Z.rem temp 10) in
  let temp := Z.quot temp 10 in
  (temp, hashVal).

(** [while (temp != 0) body], run for at most [fuel] iterations. *)
Fixpoint hash_loop (fuel : nat) (temp hashVal : Z) : Z :=
  match fuel with
  | O => hashVal
  | S fuel' =>
      if temp =? 0 then hashVal
      else let '(temp', hashVal') := hash_body temp hashVal in
           hash_loop fuel' temp' hashVal'
  end.

(** Iterations that are always enough: every iteration at least halves
    [|temp|], so one more than the position of its top bit. *)
Definition hash_fuel (temp : Z) : nat := S (Z.to_nat (Z.log2 (Z.abs temp))).

Definition hash_while (temp hashVal : Z) : Z :=
  hash_loop (hash_fuel temp) temp hashVal.

Definition hash (tag : Z) : Z :=
  let temp := tag in
  let hashVal := 7 in
  c_abs (hash_while temp hashVal).

(** *** The same function with signed overflow left undefined

    [None] is undefined behaviour: the result of a signed operation does
    not fit an [int]. *)
Definition checked_int (z : Z) : option Z :=
  if (INT_MIN <=? z) && (z <=? INT_MAX) then Some z else None.

Definition hash_body_checked (temp hashVal : Z) : option (Z * Z) :=
  match checked_int (hashVal * 31) with
  | None => None
  | Some hashVal =>
      match checked_int (hashVal + Z.rem temp 10) with
      | None => None
      | Some hashVal => Some (Z.quot temp 10, hashVal)
      end
  end.

Fixpoint hash_loop_checked (fuel : nat) (temp hashVal : Z) : option Z :=
  match fuel with
  | O => Some hashVal
  | S fuel' =>
      if temp =? 0 then Some hashVal
      else match hash_body_checked temp hashVal with
           | None => None
           | Some (temp', hashVal') => hash_loop_checked fuel' temp' hashVal'
           end
  end.

(** [abs] of <stdlib.h>: undefined when the result cannot be represented,
    that is on [INT_MIN]. *)
Definition abs_checked (x : Z) : option Z :=
  if x =? INT_MIN then None else Some (Z.abs x).

Definition hash_checked (tag : Z) : option Z :=
  match hash_loop_checked (hash_fuel tag) tag 7 with
  | None => None
  | Some hashVal => abs_checked hashVal
  end.

(* ===================================================================== *)
(** ** Instructions and the pieces of [std::string] the parser uses *)
(* ===================================================================== *)

(** [enum Instr { insert, del, lookup }]: enumerator values 0, 1, 2. *)
Module Instr.
Inductive t : Set := insert | del | lookup.

(** What value-initialisation ([Instr()]) yields: the value 0, that is the
    first enumerator. *)
Definition zero : t := insert.
End Instr.

(** [std::pair<Instr, std::pair<int, int> >]. *)
Definition Task : Type := Instr.t * (Z * Z).

(** A default-constructed [std::pair] value-initialises both members. *)
Definition Task_default : Task := (Instr.zero, (0, 0)).

Module StdString.

(** [std::string::npos], the largest [size_t]. *)
Definition npos : Z := two64 - 1.

Definition size (s : string) : Z := Z.of_nat (String.length s).

(** [s[0]] of a non-empty string. *)
Definition front (s : string) : option ascii :=
  match s with
  | EmptyString => None
  | String c _ => Some c
  end.

(** [s.substr(pos, count)]: throws [std::out_of_range] ([None]) when
    [pos > size()], otherwise the characters [pos, min(pos+count, size)). *)
Definition substr (s : string) (pos count : Z) : option string :=
  if size s <? pos then None
  else Some (String.substring (Z.to_nat pos)
               (Z.to_nat (Z.min count (size s - pos))) s).

(** Position of the first occurrence of [c] at or after offset [from]
    ([from] counts the characters already passed). *)
Fixpoint find_from (c : ascii) (s : string) (from : Z) : Z :=
  match s with
  | EmptyString => npos
  | String d s' => if Ascii.eqb d c then from else find_from c s' (from + 1)
  end.

(** [s.find_first_of(c)]. *)
Definition find_first_of (s : string) (c : ascii) : Z := find_from c s 0.

(** <ctype.h> [isspace] and [isdigit] in the "C" locale. *)
Definition isspace (c : ascii) : bool :=
  let n := nat_of_ascii c in
  ((n =? 32) || ((9 <=? n) && (n <=? 13)))%nat.

Definition isdigit (c : ascii) : bool :=
  let n := nat_of_ascii c in ((48 <=? n) && (n <=? 57))%nat.

Definition digit_value (c : ascii) : Z := Z.of_nat (nat_of_ascii c) - 48.

Fixpoint skip_spaces (s : string) : string :=
  match s with
  | String c s' => if isspace c then skip_spaces s' else s
  | EmptyString => s
  end.

(** Value of the longest prefix of decimal digits, accumulated onto [acc]. *)
Fixpoint digits (s : string) (acc : Z) : Z :=
  match s with
  | String c s' => if isdigit c then digits s' (acc * 10 + digit_value c) else acc
  | EmptyString => acc
  end.

Definition LONG_MAX : Z := 9223372036854775807.
Definition LONG_MIN : Z := -9223372036854775808.

(** [atoi(s.c_str())]: leading white space, an optional sign, then decimal
    digits; conversion stops at the first other character.  The C standard
    leaves a value outside [int] undefined; this follows the usual
    implementation, [(int) strtol(s, NULL, 10)], which saturates in
    [long] and then truncates. *)
Definition atoi (s : string) : Z :=
  let s := skip_spaces s in
  let v := match s with
           | String "-"%char s' => - digits s' 0
           | String "+"%char s' => digits s' 0
           | _ => digits s 0
           end in
  to_int (Z.max LONG_MIN (Z.min LONG_MAX v)).

End StdString.

(* ===================================================================== *)
(** ** Trace files: [std::ifstream] and [getline] *)
(* ===================================================================== *)

(** The files the harness can open: [None] when a path cannot be opened. *)
Definition FileSystem : Type := string -> option string.

(** The part of a stream's state that [parseText] observes: the characters
    not yet read and the two state bits. *)
Record ifstream : Type := mk_ifstream {
  rdbuf : string;
  eofbit : bool;
  failbit : bool
}.

(** [infile.open(filename)]: a failed open sets [failbit]. *)
Definition ifstream_open (fs : FileSystem) (filename : string) : ifstream :=
  match fs filename with
  | Some content => mk_ifstream content false false
  | None => mk_ifstream EmptyString false true
  end.

(** Characters up to the first newline, and what follows the newline
    ([None] when the end of the buffer is reached first). *)
Fixpoint read_line (s : string) : string * option string :=
  match s with
  | EmptyString => (EmptyString, None)
  | String c s' =>
      if Ascii.eqb c "010"%char then (EmptyString, Some s')
      else let '(l, r) := read_line s' in (String c l, r)
  end.

(** [getline(infile, str)] on a freshly constructed [str].  On a stream that
    is not good nothing is extracted and [failbit] is set.  Otherwise
    characters are extracted up to and including the newline; reaching the
    end of the buffer sets [eofbit], and [failbit] too when nothing at all
    was extracted. *)
Definition getline (infile : ifstream) : string * ifstream :=
  if eofbit infile || failbit infile
  then (EmptyString, mk_ifstream (rdbuf infile) (eofbit infile) true)
  else match read_line (rdbuf infile) with
       | (str, Some rest) => (str, mk_ifstream rest false false)
       | (str, None) =>
           (str, mk_ifstream EmptyString true (String.length str =? 0)%nat)
       end.

(* ===================================================================== *)
(** ** One trace line (the body of the loop of [parseText], lines 53-78) *)
(* ===================================================================== *)

(** The [switch] on the first character: a known letter sets [task.first],
    any other character leaves the default-constructed task as it is. *)
Definition set_op (instr : option ascii) (task : Task) : Task :=
  match instr with
  | Some "L"%char => (Instr.lookup, snd task)
  | Some "I"%char => (Instr.insert, snd task)
  | Some "D"%char => (Instr.del, snd task)
  | _ => task
  end.

(** The task built from a non-empty line; [None] is the [std::out_of_range]
    that [substr] throws. *)
Definition parse_line (str : string) : option Task :=
  let task := Task_default in
  let instr := StdString.front str in
  let task := set_op instr task in
  rest ← StdString.substr str 2 StdString.npos;
  let spcIdx := to_int (StdString.find_first_of rest " "%char) in
  key_text ← StdString.substr rest 0 (to_size_t spcIdx);
  let key := StdString.atoi key_text in
  val_text ← StdString.substr rest (to_size_t (to_int (spcIdx + 1))) StdString.npos;
  let val := StdString.atoi val_text in
  Some (fst task, (key, val)).

(* ===================================================================== *)
(** ** The tables, as the harness sees them *)
(* ===================================================================== *)

(** [LLNode<int, int>]: the harness reads the value with [get_data]. *)
Record LLNode : Type := mk_LLNode { get_key : Z; get_data : Z }.

(** The interface both table classes offer (their source is in
    [seq_hash_table.h] and [fg_hash_table.h]): a constructor taking the
    number of buckets and the hash function, [insert], [find] and [remove].
    A null result is [None]. *)
Class HashTable (T : Type) : Type := {
  ht_new : Z -> (Z -> Z) -> T;
  ht_insert : Z -> Z -> T -> T;
  ht_find : Z -> T -> option LLNode;
  ht_remove : Z -> T -> option LLNode * T
}.

(** A call of the table interface. *)
Inductive Call : Type :=
| CallInsert (key value : Z)
| CallRemove (key : Z)
| CallFind (key : Z).

(** Lines the harness prints (the elapsed times are left out). *)
Inductive Output : Type :=
| OutTestingFile (file : string)
| OutSeqComplete
| OutFgComplete (threads : Z)
| OutSpeedup (threads : Z)
| OutDeletionFailed
| OutLookupFailed.

(** What a run does, in the order it happens. *)
Inductive Event : Type :=
| EvPrint (line : Output)
| EvNewSeq (capacity : Z)
| EvDeleteSeq
| EvNewFg (capacity : Z)
| EvDeleteFg
| EvSeq (i : Z) (c : Call)
| EvFg (id : Z) (i : Z) (c : Call)
| EvCreate (id : Z).

(** Ways the process stops early. *)
Inductive Abort : Type :=
| OutOfRange         (* uncaught std::out_of_range *)
| AssertionFailed    (* assert *)
| Undefined          (* null dereference, index outside a vector, division by zero *)
| OutOfFuel.         (* a loop of the model ran out of iterations *)

Section Harness.

Context {SeqHashTable FgHashTable : Type}.
Context `{!HashTable SeqHashTable} `{!HashTable FgHashTable}.

(** The globals of perfTest.cpp and the trace of events so far. *)
Record World : Type := mk_World {
  input : list Task;
  numThreads : Z;
  baseline : option SeqHashTable;
  htable : option FgHashTable;
  log : list Event
}.

Inductive Res (A : Type) : Type :=
| Ok (a : A) (w : World)
| Stop (e : Abort) (w : World).
Global Arguments Ok {A} a w.
Global Arguments Stop {A} e w.

(** Computations over the globals that may stop the process. *)
Definition M (A : Type) : Type := World -> Res A.

Global Instance M_ret : MRet M := fun A (a : A) (w : World) => Ok a w.

Global Instance M_bind : MBind M :=
  fun A B (f : A -> M B) (m : M A) (w : World) =>
    match m w with
    | Ok a w' => f a w'
    | Stop e w' => Stop e w'
    end.

Definition stop {A} (e : Abort) : M A := fun w => Stop e w.
Definition get : M World := fun w => Ok w w.

Definition with_input (v : list Task) (w : World) : World :=
  mk_World v (numThreads w) (baseline w) (htable w) (log w).
Definition with_numThreads (n : Z) (w : World) : World :=
  mk_World (input w) n (baseline w) (htable w) (log w).
Definition with_baseline (p : option SeqHashTable) (w : World) : World :=
  mk_World (input w) (numThreads w) p (htable w) (log w).
Definition with_htable (p : option FgHashTable) (w : World) : World :=
  mk_World (input w) (numThreads w) (baseline w) p (log w).
Definition with_events (evs : list Event) (w : World) : World :=
  mk_World (input w) (numThreads w) (baseline w) (htable w) (log w ++ evs).

Definition emit (e : Event) : M unit := fun w => Ok tt (with_events [e] w).
Definition printf (o : Output) : M unit := emit (EvPrint o).
Definition set_input (v : list Task) : M unit := fun w => Ok tt (with_input v w).
Definition set_numThreads (n : Z) : M unit := fun w => Ok tt (with_numThreads n w).
Definition set_baseline (p : option SeqHashTable) : M unit :=
  fun w => Ok tt (with_baseline p w).
Definition set_htable (p : option FgHashTable) : M unit :=
  fun w => Ok tt (with_htable p w).

(** Dereferencing a pointer. *)
Definition deref {A} (p : option A) : M A :=
  match p with
  | Some a => mret a
  | None => stop Undefined
  end.

(** [input.size()]. *)
Definition input_size (w : World) : Z := Z.of_nat (length (input w)).

(* ------------------------------------------------------------------- *)
(** *** parseText (lines 45-81) *)

(** The [while (!infile.eof())] loop, for at most [fuel] iterations. *)
Fixpoint parseText_loop (fuel : nat) (infile : ifstream) : M unit :=
  match fuel with
  | O => stop OutOfFuel
  | S fuel' =>
      if eofbit infile then mret tt
      else
        let '(str, infile') := getline infile in
        if 0 <? StdString.size str then
          match parse_line str with
          | None => stop OutOfRange
          | Some task =>
              w ← get;
              set_input (input w ++ [task]);;
              parseText_loop fuel' infile'
          end
        else parseText_loop fuel' infile'
  end.

Definition parseText (fs : FileSystem) (fuel : nat) (filename : string) : M unit :=
  let infile := ifstream_open fs filename in
  set_input [];;
  parseText_loop fuel infile.

(* ------------------------------------------------------------------- *)
(** *** seqRun (lines 119-143) *)

(** The [switch] of [seqRun] on instruction [i].  The table is the one
    [main] passes, [baseline].  Each [assert] dereferences the returned
    pointer and then compares the value. *)
Definition seqRun_body (i : Z) (instr : Task) : M unit :=
  let '(op, (key, value)) := instr in
  w ← get;
  ht ← deref (baseline w);
  match op with
  | Instr.insert =>
      emit (EvSeq i (CallInsert key value));;
      set_baseline (Some (ht_insert key value ht))
  | Instr.del =>
      emit (EvSeq i (CallRemove key));;
      let '(res, ht') := ht_remove key ht in
      set_baseline (Some ht');;
      node ← deref res;
      if get_data node =? value then mret tt else stop AssertionFailed
  | Instr.lookup =>
      emit (EvSeq i (CallFind key));;
      node ← deref (ht_find key ht);
      if get_data node =? value then mret tt else stop AssertionFailed
  end.

(** [for (int i = 0; i < input.size(); i++)]: the comparison converts [i]
    to [size_t].  The loop makes at most [input.size()] passes, which is
    the [fuel] it is run with. *)
Fixpoint seqRun_loop (fuel : nat) (i : Z) : M unit :=
  match fuel with
  | O => mret tt
  | S fuel' =>
      w ← get;
      if to_size_t i <? input_size w then
        instr ← deref (input w !! Z.to_nat (to_size_t i));
        seqRun_body i instr;;
        seqRun_loop fuel' (to_int (i + 1))
      else mret tt
  end.

Definition seqRun : M unit :=
  w ← get;
  seqRun_loop (length (input w)) 0;;
  printf OutSeqComplete.

(* ------------------------------------------------------------------- *)
(** *** fgRun (lines 83-117) *)

(** The locals [i] and [end] of one worker. *)
Record Thread : Type := mk_Thread { th_i : Z; th_end : Z }.

(** Lines 85-89, up to the initialisation of [i].  [numThreads] is
    converted to [size_t] for the division, whose result is stored in an
    [int]; the comparison in the conditional is made in [size_t].  [main]
    sets [numThreads] to 1, 2, 4, 8 or 16 before it starts a worker, so
    the division by 0 is left out. *)
Definition fgRun_enter (id : Z) (w : World) : Thread :=
  let instrPerThread := to_int (input_size w / to_size_t (numThreads w)) in
  let start := to_int (instrPerThread * id) in
  let end_ := if to_size_t (to_int (start + instrPerThread)) <? input_size w
              then to_int (start + instrPerThread)
              else to_int (input_size w) in
  mk_Thread start end_.

(** The [switch] of [fgRun] on instruction [i], run by worker [id]. *)
Definition fgRun_body (id i : Z) (instr : Task) : M unit :=
  let '(op, (key, value)) := instr in
  w ← get;
  ht ← deref (htable w);
  match op with
  | Instr.insert =>
      emit (EvFg id i (CallInsert key value));;
      set_htable (Some (ht_insert key value ht))
  | Instr.del =>
      emit (EvFg id i (CallRemove key));;
      let '(res, ht') := ht_remove key ht in
      set_htable (Some ht');;
      match res with
      | Some node =>
          if get_data node =? value then mret tt else printf OutDeletionFailed
      | None => mret tt
      end
  | Instr.lookup =>
      emit (EvFg id i (CallFind key));;
      match ht_find key ht with
      | Some node =>
          if get_data node =? value then mret tt else printf OutLookupFailed
      | None => mret tt
      end
  end.

(** One pass of [for (...; i < end; i++)], guard included: a worker whose
    loop is over stays as it is. *)
Definition fgRun_iter (id : Z) (th : Thread) : M Thread :=
  if th_i th <? th_end th then
    w ← get;
    instr ← deref (input w !! Z.to_nat (to_size_t (th_i th)));
    fgRun_body id (th_i th) instr;;
    mret (mk_Thread (to_int (th_i th + 1)) (th_end th))
  else mret th.

Fixpoint fgRun_loop (passes : nat) (id : Z) (th : Thread) : M Thread :=
  match passes with
  | O => mret th
  | S passes' => th' ← fgRun_iter id th; fgRun_loop passes' id th'
  end.

(** Passes left before the loop of [th] is over. *)
Definition remaining (th : Thread) : nat := Z.to_nat (th_end th - th_i th).

(** A worker run on its own from start to exit. *)
Definition fgRun (id : Z) : M unit :=
  w ← get;
  let th := fgRun_enter id w in
  fgRun_loop (remaining th) id th;;
  mret tt.

(* ------------------------------------------------------------------- *)
(** *** Workers running together *)

(** The workers interleave at the granularity of one loop pass: the table
    serialises the operations on a bucket, and a pass makes one table
    call.  A schedule names which worker makes the next pass. *)
Definition sched_step (id : nat) (ths : list Thread) : M (list Thread) :=
  match ths !! id with
  | Some th => th' ← fgRun_iter (Z.of_nat id) th; mret (<[id := th']> ths)
  | None => mret ths
  end.

Fixpoint run_schedule (s : list nat) (ths : list Thread) : M (list Thread) :=
  match s with
  | [] => mret ths
  | id :: s' => ths' ← sched_step id ths; run_schedule s' ths'
  end.

(** [pthread_create(&threads[id], NULL, fgRun, &ids[id])], for the ids in
    turn; [ids[id]] holds [id]. *)
Fixpoint create_threads (ids : list nat) : M (list Thread) :=
  match ids with
  | [] => mret []
  | id :: ids' =>
      emit (EvCreate (Z.of_nat id));;
      w ← get;
      ths ← create_threads ids';
      mret (fgRun_enter (Z.of_nat id) w :: ths)
  end.

(** [pthread_join(threads[id], NULL)] returns once worker [id] has made
    its remaining passes. *)
Definition pthread_join (id : nat) (ths : list Thread) : M (list Thread) :=
  th ← deref (ths !! id);
  th' ← fgRun_loop (remaining th) (Z.of_nat id) th;
  mret (<[id := th']> ths).

Fixpoint join_threads (ids : list nat) (ths : list Thread) : M (list Thread) :=
  match ids with
  | [] => mret ths
  | id :: ids' => ths' ← pthread_join id ths; join_threads ids' ths'
  end.

(** One pass of one worker that still has passes to make: the step
    relation of the concurrent run, over the workers' locals and the
    globals. *)
Inductive fg_step : list Thread * World -> list Thread * World -> Prop :=
| fg_step_pass (id : nat) (th th' : Thread) (ths : list Thread) (w w' : World) :
    ths !! id = Some th ->
    th_i th < th_end th ->
    fgRun_iter (Z.of_nat id) th w = Ok th' w' ->
    fg_step (ths, w) (<[id := th']> ths, w').

(** Every worker has left its loop. *)
Definition all_exited (ths : list Thread) : Prop :=
  Forall (fun th => th_end th <= th_i th) ths.

(** The state right after [main] has created the [T] workers. *)
Definition spawned (T : nat) (w : World) : list Thread :=
  map (fun id => fgRun_enter (Z.of_nat id) w) (seq 0 T).

(* ------------------------------------------------------------------- *)
(** *** main (lines 145-178) *)

Definition args : list string :=
  [ "tests/uniform_all_test.txt";
    "tests/chunked_test_InsDel.txt";
    "tests/50p_del_test_InsDel.txt";
    "tests/25p_del_test_InsDel.txt";
    "tests/10p_del_all.txt" ]%string.

Definition testfiles : list string := args.

(** The number of buckets [main] asks for, [input.size() / 1000]. *)
Definition table_capacity (w : World) : Z := input_size w / 1000.

Variable fs : FileSystem.

(** The interleaving of the workers of each concurrent run, by file and
    thread count. *)
Variable schedule : string -> Z -> list nat.

(** The body of the loop over [j] (lines 160-174). *)
Definition fg_test (file : string) (j : Z) : M unit :=
  w ← get;
  emit (EvNewFg (table_capacity w));;
  set_htable (Some (ht_new (table_capacity w) hash));;
  set_numThreads (to_int j);;
  ths ← create_threads (seq 0 (Z.to_nat j));
  ths ← run_schedule (schedule file j) ths;
  _ ← join_threads (seq 0 (Z.to_nat j)) ths;
  w ← get;
  printf (OutFgComplete (numThreads w));;
  printf (OutSpeedup j);;
  emit EvDeleteFg;;
  set_htable None.

(** [for (uint j = 1; j <= 16; j *= 2)], for at most [fuel] passes. *)
Fixpoint thread_counts_loop (fuel : nat) (file : string) (j : Z) : M unit :=
  match fuel with
  | O => stop OutOfFuel
  | S fuel' =>
      if j <=? 16 then
        fg_test file j;;
        thread_counts_loop fuel' file (to_uint (j * 2))
      else mret tt
  end.

(** The body of the loop over the files (lines 154-176). *)
Definition test_file (fuel : nat) (file : string) : M unit :=
  printf (OutTestingFile file);;
  parseText fs fuel file;;
  w ← get;
  emit (EvNewSeq (table_capacity w));;
  set_baseline (Some (ht_new (table_capacity w) hash));;
  seqRun;;
  thread_counts_loop fuel file 1;;
  emit EvDeleteSeq;;
  set_baseline None.

Fixpoint files_loop (fuel : nat) (files : list string) : M unit :=
  match files with
  | [] => mret tt
  | file :: files' => test_file fuel file;; files_loop fuel files'
  end.

(** The state at program start: empty [input], null table pointers. *)
Definition initial_world : World := mk_World [] 0 None None [].

Definition main (fuel : nat) : Res unit :=
  files_loop fuel testfiles initial_world.

End Harness.

Arguments World : clear implicits.
Arguments Res : clear implicits.
Arguments M : clear implicits.

(* ===================================================================== *)
(** ** A chained table *)
(* ===================================================================== *)

(** Modelled from the spec: the table classes of [seq_hash_table.h] and
    [fg_hash_table.h].  A fixed array of bucket chains; [insert] prepends a
    new node to bucket [hash(k) mod capacity] without looking for
    duplicates, [find] and [remove] take the first node of that chain whose
    key is [k], and [remove] unlinks it.  With the fine-grained table each
    operation runs under the mutex of its bucket, so it takes effect at
    once.  The spec leaves a table of no buckets undescribed; here it has no
    chain to add to and every search misses. *)
Module ChainTable.

Record t : Type := mk {
  capacity : Z;
  hash_fn : Z -> Z;
  buckets : list (list LLNode)
}.

Definition bucket_of (tb : t) (k : Z) : nat :=
  Z.to_nat (hash_fn tb k mod capacity tb).

Definition new (cap : Z) (h : Z -> Z) : t :=
  mk cap h (replicate (Z.to_nat cap) []).

Definition insert (k v : Z) (tb : t) : t :=
  mk (capacity tb) (hash_fn tb)
     (alter (cons (mk_LLNode k v)) (bucket_of tb k) (buckets tb)).

Definition chain_find (k : Z) (chain : list LLNode) : option LLNode :=
  List.find (fun n => get_key n =? k) chain.

Fixpoint chain_remove (k : Z) (chain : list LLNode) : option LLNode * list LLNode :=
  match chain with
  | [] => (None, [])
  | n :: chain' =>
      if get_key n =? k then (Some n, chain')
      else let '(r, c) := chain_remove k chain' in (r, n :: c)
  end.

Definition find (k : Z) (tb : t) : option LLNode :=
  chain ← buckets tb !! bucket_of tb k;
  chain_find k chain.

Definition remove (k : Z) (tb : t) : option LLNode * t :=
  match buckets tb !! bucket_of tb k with
  | Some chain =>
      let '(r, c) := chain_remove k chain in
      (r, mk (capacity tb) (hash_fn tb) (<[bucket_of tb k := c]> (buckets tb)))
  | None => (None, tb)
  end.

#[export] Instance table : HashTable t := {
  ht_new := new;
  ht_insert := insert;
  ht_find := find;
  ht_remove := remove
}.

End ChainTable.
Import ChainTable.

(* ===================================================================== *)
(** ** Notions the properties are stated with *)
(* ===================================================================== *)

Module Trace.

(** The lines of a file: the text between newlines, in order (the last
    one may be empty). *)
Fixpoint file_lines (s : string) : list string :=
  match s with
  | EmptyString => [EmptyString]
  | String c s' =>
      if Ascii.eqb c "010"%char then EmptyString :: file_lines s'
      else match file_lines s' with
           | l :: ls => String c l :: ls
           | [] => [String c EmptyString]
           end
  end.

Definition nonblank (l : string) : bool := (0 <? String.length l)%nat.

Definition nonblank_lines (content : string) : list string :=
  List.filter nonblank (file_lines content).

(** The instructions of a list of lines, in order; [None] when some line
    makes the parser throw. *)
Fixpoint instructions_of (lines : list string) : option (list Task) :=
  match lines with
  | [] => Some []
  | l :: ls =>
      task ← parse_line l;
      tasks ← instructions_of ls;
      Some (task :: tasks)
  end.

(** Number of instructions a trace file holds. *)
Definition instruction_count (fs : FileSystem) (file : string) : Z :=
  match fs file with
  | Some content => Z.of_nat (length (nonblank_lines content))
  | None => 0
  end.

(** The text after offset 2 of a line. *)
Definition after_op (str : string) : string :=
  match str with
  | String _ (String _ rest) => rest
  | _ => EmptyString
  end.

(** The characters before the first [c], all of [s] when there is none. *)
Fixpoint before (c : ascii) (s : string) : string :=
  match s with
  | EmptyString => EmptyString
  | String d s' => if Ascii.eqb d c then EmptyString else String d (before c s')
  end.

(** The characters after the first [c], when there is one. *)
Fixpoint after (c : ascii) (s : string) : option string :=
  match s with
  | EmptyString => None
  | String d s' => if Ascii.eqb d c then Some s' else after c s'
  end.

(** The text [atoi] reads the key from, and the one it reads the value
    from: what precedes and what follows the first space after offset 2
    (both are the whole rest of the line when it has no space). *)
Definition key_field (str : string) : string := before " "%char (after_op str).
Definition value_field (str : string) : string :=
  match after " "%char (after_op str) with
  | Some s => s
  | None => after_op str
  end.

(** The operation the parser leaves in the task of a line. *)
Definition op_field (str : string) : Instr.t :=
  fst (set_op (StdString.front str) Task_default).

(** The trace file format of the specification: a line is
    [<OP> <KEY> <VALUE>], with [<OP>] one of the letters L (lookup),
    I (insert) and D (delete).  No other letter stands for an operation. *)
Definition letter_op (c : ascii) : option Instr.t :=
  match c with
  | "L"%char => Some Instr.lookup
  | "I"%char => Some Instr.insert
  | "D"%char => Some Instr.del
  | _ => None
  end.

(** The instruction a line of that format denotes: the operation of its
    letter, and the numbers written before and after the first space that
    follows offset 2.  A line of fewer than two characters, or whose letter
    is not an operation, denotes none. *)
Definition line_task (l : string) : option Task :=
  match l with
  | String c (String _ _) =>
      match letter_op c with
      | Some op => Some (op, (StdString.atoi (key_field l), StdString.atoi (value_field l)))
      | None => None
      end
  | _ => None
  end.

(** The instructions a list of lines denotes, in order, when every line
    denotes one. *)
Fixpoint tasks_of (lines : list string) : option (list Task) :=
  match lines with
  | [] => Some []
  | l :: ls =>
      match line_task l, tasks_of ls with
      | Some task, Some tasks => Some (task :: tasks)
      | _, _ => None
      end
  end.

(** The first character is none of the three operation letters. *)
Definition unknown_op (str : string) : Prop :=
  match str with
  | String c _ => c <> "L"%char /\ c <> "I"%char /\ c <> "D"%char
  | EmptyString => False
  end.

(** Instruction indices worker [id] executed, in the order of the log. *)
Fixpoint executed_by (id : Z) (evs : list Event) : list Z :=
  match evs with
  | [] => []
  | EvFg id' i _ :: evs' =>
      if id' =? id then i :: executed_by id evs' else executed_by id evs'
  | _ :: evs' => executed_by id evs'
  end.

(** Instruction indices the sequential run executed. *)
Fixpoint executed_seq (evs : list Event) : list Z :=
  match evs with
  | [] => []
  | EvSeq i _ :: evs' => i :: executed_seq evs'
  | _ :: evs' => executed_seq evs'
  end.

(** The table calls in a log. *)
Fixpoint calls_of (evs : list Event) : list Call :=
  match evs with
  | [] => []
  | EvSeq _ c :: evs' => c :: calls_of evs'
  | EvFg _ _ c :: evs' => c :: calls_of evs'
  | _ :: evs' => calls_of evs'
  end.

(** Events of the driver itself, as opposed to those of a run over the
    instructions (table calls and the workers' warnings). *)
Definition driver_event (e : Event) : bool :=
  match e with
  | EvSeq _ _ | EvFg _ _ _ => false
  | EvPrint OutDeletionFailed | EvPrint OutLookupFailed => false
  | _ => true
  end.

Definition driver_events (evs : list Event) : list Event :=
  List.filter driver_event evs.

Definition thread_counts : list Z := [1; 2; 4; 8; 16].

(** What the driver does for one thread count: a new table, the workers,
    the two report lines, the table deleted. *)
Definition fg_block (capacity T : Z) : list Event :=
  [EvNewFg capacity]
    ++ map (fun id => EvCreate (Z.of_nat id)) (seq 0 (Z.to_nat T))
    ++ [EvPrint (OutFgComplete T); EvPrint (OutSpeedup T); EvDeleteFg].

(** What the driver does for one file of [n] instructions. *)
Definition file_block (file : string) (n : Z) : list Event :=
  [EvPrint (OutTestingFile file); EvNewSeq (n / 1000); EvPrint OutSeqComplete]
    ++ concat (map (fg_block (n / 1000)) thread_counts)
    ++ [EvDeleteSeq].

(** The capacities [main] constructs tables with, in order. *)
Fixpoint capacities (evs : list Event) : list Z :=
  match evs with
  | [] => []
  | EvNewSeq c :: evs' => c :: capacities evs'
  | EvNewFg c :: evs' => c :: capacities evs'
  | _ :: evs' => capacities evs'
  end.

(** The capacity as the design note words it: the quotient, raised to 1
    when it is not positive. *)
Definition clamped_capacity (n : Z) : Z := Z.max 1 (n / 1000).

End Trace.
Import Trace.

(** Bounds on the exact accumulator of the loop of [hash]: [r] passes
    multiply it by [31 ^ r] and add, or take away, at most [spread r]. *)
Module HashRange.

Fixpoint spread (r : nat) : Z :=
  match r with
  | O => 0
  | S r' => 9 * 31 ^ Z.of_nat r' + spread r'
  end.

End HashRange.

(** Notions for reasoning about the workers of a concurrent run. *)
Section WorkerNotions.

Context {SeqHashTable FgHashTable : Type}.
Context `{!HashTable SeqHashTable} `{!HashTable FgHashTable}.

(** The events of one pass of worker [id] on instruction [i]: a table
    call, and possibly a warning after it. *)
Inductive pass_events (id i : Z) : list Event -> Prop :=
| pass_call c : pass_events id i [EvFg id i c]
| pass_call_warn c o :
    o = OutDeletionFailed \/ o = OutLookupFailed ->
    pass_events id i [EvFg id i c; EvPrint o].

(** A pass changes only the table and the log. *)
Definition fg_keeps (w w' : World SeqHashTable FgHashTable) : Prop :=
  input w' = input w /\ numThreads w' = numThreads w /\
  baseline w' = baseline w /\ is_Some (htable w').

(** Size of a slice: [input.size() / numThreads]. *)
Definition slice_len (w : World SeqHashTable FgHashTable) : Z :=
  input_size w / numThreads w.

(** The indices [id * len, (id + 1) * len), in increasing order. *)
Definition slice (len id : Z) : list Z := seqZ (id * len) len.

(** What holds of every state the [T] workers started in [w0] can
    reach: each worker is inside its slice and has executed the part of
    it below its [i]. *)
Definition slice_inv (T : nat) (w0 : World SeqHashTable FgHashTable)
    (st : list Thread * World SeqHashTable FgHashTable) : Prop :=
  input st.2 = input w0 /\ numThreads st.2 = numThreads w0 /\
  (is_Some (htable w0) -> is_Some (htable st.2)) /\
  length st.1 = T /\
  exists evs,
    log st.2 = log w0 ++ evs /\
    (forall (id : nat) th, st.1 !! id = Some th ->
       th_end th = (Z.of_nat id + 1) * slice_len w0 /\
       Z.of_nat id * slice_len w0 <= th_i th <= th_end th /\
       executed_by (Z.of_nat id) evs
       = seqZ (Z.of_nat id * slice_len w0) (th_i th - Z.of_nat id * slice_len w0)) /\
    (forall id i c, In (EvFg id i c) evs ->
       exists k : nat, (k < T)%nat /\ id = Z.of_nat k /\
                       Z.of_nat k * slice_len w0 <= i < (Z.of_nat k + 1) * slice_len w0).

End WorkerNotions.

(** Notions for the checks a run makes on what the table returns. *)
Section CheckNotions.

Context {T : Type} `{!HashTable T}.

(** The table call an instruction leads to. *)
Definition call_of (op : Instr.t) (key value : Z) : Call :=
  match op with
  | Instr.insert => CallInsert key value
  | Instr.del => CallRemove key
  | Instr.lookup => CallFind key
  end.

(** The node a [del] or [lookup] instruction gets back from the table. *)
Definition returned (op : Instr.t) (key : Z) (ht : T) : option LLNode :=
  match op with
  | Instr.insert => None
  | Instr.del => fst (ht_remove key ht)
  | Instr.lookup => ht_find key ht
  end.

Definition warning_of (op : Instr.t) : Output :=
  match op with
  | Instr.del => OutDeletionFailed
  | _ => OutLookupFailed
  end.

(** The warning a worker prints: one line when the node is not null and
    its value differs from the instruction's, nothing otherwise. *)
Definition warnings (op : Instr.t) (res : option LLNode) (value : Z) : list Event :=
  match res with
  | Some node => if get_data node =? value then [] else [EvPrint (warning_of op)]
  | None => []
  end.

End CheckNotions.

(** Notions for the table calls of a whole run. *)
Module Calls.









End Calls.
Import Calls.

(** Inputs the properties are tried on. *)
Module Samples.

(** Ten instructions, for three workers. *)
Definition ten_instructions : list Task :=
  [ (Instr.insert, (1, 10)); (Instr.insert, (2, 20)); (Instr.insert, (3, 30));
    (Instr.lookup, (1, 10)); (Instr.lookup, (2, 20)); (Instr.lookup, (3, 30));
    (Instr.del, (1, 10)); (Instr.del, (2, 20)); (Instr.del, (3, 30));
    (Instr.insert, (4, 40)) ].

Definition three_workers : World ChainTable.t ChainTable.t :=
  mk_World ten_instructions 3 None (Some (ht_new 1 hash)) [].

(** Globals whose [input] still holds the ten instructions of an earlier
    file; no table is allocated. *)
Definition stale_input : World ChainTable.t ChainTable.t :=
  mk_World ten_instructions 3 None None [].

(** A one-bucket table holding key 5 with value 50. *)
Definition table_5_50 : ChainTable.t := ht_insert 5 50 (ht_new 1 hash).

(** A delete of key 5 that expects 51, then a lookup of the absent key 6,
    with both table pointers set. *)
Definition stale_delete : World ChainTable.t ChainTable.t :=
  mk_World [(Instr.del, (5, 51)); (Instr.lookup, (6, 60))] 1
           (Some table_5_50) (Some table_5_50) [].

End Samples.
Import Samples.

(** Notions for reading the trace of a whole run of [main]. *)
Section DriverNotions.

Context {SeqHashTable FgHashTable : Type}.
Context `{!HashTable SeqHashTable} `{!HashTable FgHashTable}.

(** From [w] to [w'] only the fine-grained table has changed and only
    events of the workers were logged. *)
Definition quiet (w w' : World SeqHashTable FgHashTable) : Prop :=
  input w' = input w /\ numThreads w' = numThreads w /\
  baseline w' = baseline w /\
  exists evs, log w' = log w ++ evs /\ driver_events evs = [] /\ executed_seq evs = [].

(** Whether a run ended normally, and the state it ended in. *)
Definition is_ok {A} (r : Res SeqHashTable FgHashTable A) : bool :=
  match r with Ok _ _ => true | Stop _ _ => false end.

Definition world_of {A} (r : Res SeqHashTable FgHashTable A)
  : World SeqHashTable FgHashTable :=
  match r with Ok _ w => w | Stop _ w => w end.

(** The run did not end because a loop of the model ran out of passes: it
    ended normally or by a stop of the process itself. *)
Definition fuel_sufficed {A} (r : Res SeqHashTable FgHashTable A) : Prop :=
  match r with
  | Stop OutOfFuel _ => False
  | _ => True
  end.

End DriverNotions.

Module SampleFiles.

Definition nl : string := String "010"%char EmptyString.

Fixpoint repeat_string (s : string) (n : nat) : string :=
  match n with
  | O => EmptyString
  | S n' => String.append s (repeat_string s n')
  end.

(** A trace of 1003 instructions: a thousand inserts of key 7, a lookup
    and a delete that find the last of them, a blank line, and a line
    with an unknown letter. *)
Definition long_trace : string :=
  String.append (repeat_string (String.append "I 7 70" nl) 1000)
    (String.append "L 7 70" (String.append nl
      (String.append "D 7 70" (String.append nl
        (String.append nl (String.append "X 9 90" nl)))))).

(** The first trace file is the long trace, any other file is empty. *)
Definition long_files : FileSystem :=
  fun path => if String.eqb path "tests/uniform_all_test.txt"
              then Some long_trace else Some EmptyString.

(** A trace of three instructions. *)
Definition short_trace : string :=
  String.append "I 1 10" (String.append nl
    (String.append "I 2 20" (String.append nl (String.append "I 3 30" nl)))).

Definition short_files : FileSystem := fun _ => Some short_trace.

(** A trace with one line of each operation, a blank line among them. *)
Definition three_ops : string :=
  String.append "I 1 10" (String.append nl
    (String.append "L 1 10" (String.append nl
      (String.append nl (String.append "D 1 10" nl))))).

Definition printed_lines : FileSystem := fun _ => Some three_ops.

(** A stream about to deliver the line [D 12 -7] and then, with no newline
    after it, the one-character line [Z]. *)
Definition two_lines : ifstream :=
  mk_ifstream (String.append "D 12 -7" (String.append nl "Z")) false false.

Definition last_line : ifstream := mk_ifstream "Z" false false.

(** Passes of the parser loop that are enough for the sample traces. *)
Definition enough_fuel : nat := String.length long_trace + 2.

(** Workers taking turns, for a while. *)
Definition round_robin : string -> Z -> list nat :=
  fun _ j => concat (repeat (seq 0 (Z.to_nat j)) 7).

End SampleFiles.
Import SampleFiles.


(* ===================================================================== *)
(** ** More inputs and notions, for the further properties *)
(* ===================================================================== *)

Module MoreSamples.

(** The last trace file is missing, the others are empty. *)
Definition missing_last : FileSystem :=
  fun path => if String.eqb path "tests/10p_del_all.txt"
              then None else Some EmptyString.

(** The second trace file has a line of one character. *)
Definition bad_second : FileSystem :=
  fun path => if String.eqb path "tests/chunked_test_InsDel.txt"
              then Some (String.append "I 1 10" (String.append nl (String.append "Z" nl)))
              else Some EmptyString.

(** One worker, and a baseline and a fine-grained table of the same
    class: insert, look up, delete. *)
Definition one_worker : World ChainTable.t ChainTable.t :=
  mk_World [(Instr.insert, (5, 50)); (Instr.lookup, (5, 50)); (Instr.del, (5, 50))] 1
           (Some (ht_new 1 hash)) (Some (ht_new 1 hash)) [].

(** Three instructions for four workers. *)
Definition three_for_four : World ChainTable.t ChainTable.t :=
  mk_World [(Instr.insert, (5, 50)); (Instr.lookup, (5, 50)); (Instr.del, (5, 50))] 4
           None None [].

End MoreSamples.
Import MoreSamples.

(** Notions for comparing the two table classes. *)
Section Agreement.

Context {SeqHashTable FgHashTable : Type}.
Context `{!HashTable SeqHashTable} `{!HashTable FgHashTable}.

(** [R] relates a baseline table and a fine-grained table that give the
    same answers: [insert] and [remove] keep them related, and [find] and
    [remove] return a node with the same value, or null, on both. *)
Definition tables_agree (R : SeqHashTable -> FgHashTable -> Prop) : Prop :=
  (forall k v s f, R s f -> R (ht_insert k v s) (ht_insert k v f)) /\
  (forall k s f, R s f ->
     option_map get_data (ht_find k s) = option_map get_data (ht_find k f)) /\
  (forall k s f, R s f ->
     option_map get_data (fst (ht_remove k s))
     = option_map get_data (fst (ht_remove k f)) /\
     R (snd (ht_remove k s)) (snd (ht_remove k f))).

(** The event of worker [id] for a table call of the sequential run. *)
Definition as_worker (id : Z) (e : Event) : Event :=
  match e with
  | EvSeq i c => EvFg id i c
  | _ => e
  end.

End Agreement.

(** Trace files as text: the format the parser reads, in decimal. *)
Module Printing.

(** An [int] in decimal, with a minus sign when negative. *)
Definition show_int (z : Z) : string :=
  DecimalString.NilZero.string_of_int (Z.to_int z).

Definition op_letter (op : Instr.t) : ascii :=
  match op with
  | Instr.insert => "I"
  | Instr.del => "D"
  | Instr.lookup => "L"
  end%char.

(** A trace line: the letter, one character [sep], the key, a space, the
    value. *)
Definition show_line_with (sep : ascii) (t : Task) : string :=
  String (op_letter (fst t))
    (String sep
       (String.append (show_int (fst (snd t)))
          (String " " (show_int (snd (snd t)))))).

Definition show_line : Task -> string := show_line_with " ".

(** A trace file: one line per instruction, each ended by a newline. *)
Fixpoint show_trace (tasks : list Task) : string :=
  match tasks with
  | [] => EmptyString
  | t :: tasks' => String.append (show_line t) (String "010" (show_trace tasks'))
  end.

(** Both fields of an instruction fit an [int]. *)
Definition fits_int (t : Task) : Prop := in_int (fst (snd t)) /\ in_int (snd (snd t)).

End Printing.
Import Printing.

(** Reading a tag back from its hash, when the loop of [hash] has not
    overflowed: the digits are the base-31 digits above the initial 7,
    the most significant first. *)
Fixpoint unhash_loop (fuel : nat) (h acc : Z) : Z :=
  match fuel with
  | O => acc
  | S fuel' =>
      if h =? 7 then acc
      else unhash_loop fuel' (h / 31) (acc * 10 + h mod 31)
  end.

Definition unhash (h : Z) : Z := unhash_loop 10 h 0.

(** A file system whose every path holds the ten sample instructions,
    printed. *)
Definition printed_files : FileSystem :=
  fun _ => Some (show_trace ten_instructions).

(** Notions for comparing runs started from different globals. *)
Section FrameNotions.

Context {SeqHashTable FgHashTable : Type}.
Context `{!HashTable SeqHashTable} `{!HashTable FgHashTable}.

(** The globals [w] with [numThreads] and the two table pointers passed
    through [fn], [fb] and [fh], and the events [l] logged before those of
    [w]. *)
Definition reframe (fn : Z -> Z)
    (fb : option SeqHashTable -> option SeqHashTable)
    (fh : option FgHashTable -> option FgHashTable)
    (l : list Event) (w : World SeqHashTable FgHashTable)
  : World SeqHashTable FgHashTable :=
  mk_World (input w) (fn (numThreads w)) (fb (baseline w)) (fh (htable w)) (l ++ log w).

(** The globals [w] after the events [l]. *)
Definition relog (l : list Event) (w : World SeqHashTable FgHashTable)
  : World SeqHashTable FgHashTable :=
  reframe (fun n => n) (fun b => b) (fun h => h) l w.

Definition map_world {A} (g : World SeqHashTable FgHashTable -> World SeqHashTable FgHashTable)
    (r : Res SeqHashTable FgHashTable A) : Res SeqHashTable FgHashTable A :=
  match r with
  | Ok a w => Ok a (g w)
  | Stop e w => Stop e (g w)
  end.

(** The run [r] has the outcome of the run [r0], after the events [l]:
    both end normally, in the same globals, or both stop in the same way
    with the same [input]; the events of [r] are [l] and then those of
    [r0]. *)
Definition same_run {A} (l : list Event) (r r0 : Res SeqHashTable FgHashTable A) : Prop :=
  match r, r0 with
  | Ok a w, Ok a0 w0 => a = a0 /\ w = relog l w0
  | Stop e w, Stop e0 w0 => e = e0 /\ input w = input w0 /\ log w = l ++ log w0
  | _, _ => False
  end.

End FrameNotions.

(* ===================================================================== *)
(** * Properties *)
(* ===================================================================== *)

(** ** Machine integers *)

Module MachIntFacts.
Lemma to_int_range z : in_int (to_int z).
Proof.
  unfold in_int, to_int, INT_MIN, INT_MAX, two31, two32.
  pose proof (Z.mod_pos_bound (z + 2147483648) 4294967296). lia.
Qed.

Lemma to_int_id z : in_int z -> to_int z = z.
Proof.
  unfold in_int, to_int, INT_MIN, INT_MAX, two31, two32. intros Hz.
  rewrite Z.mod_small by lia. lia.
Qed.

Lemma to_int_mod z : to_int z mod two32 = z mod two32.
Proof.
  unfold to_int, two31, two32.
  Z.to_euclidean_division_equations. lia.
Qed.

Lemma to_int_eqm a b : a mod two32 = b mod two32 -> to_int a = to_int b.
Proof.
  unfold to_int, two31, two32. intros H.
  Z.to_euclidean_division_equations. lia.
Qed.

(** One multiply-accumulate step computed in [int] agrees with the same
    step on the exact value. *)
Lemma to_int_mul_add h m d :
  to_int (to_int (to_int h * m) + d) = to_int (h * m + d).
Proof.
  apply to_int_eqm.
  rewrite Z.add_mod by (unfold two32; lia).
  rewrite to_int_mod.
  rewrite Z.mul_mod by (unfold two32; lia).
  rewrite to_int_mod.
  rewrite <- Z.mul_mod by (unfold two32; lia).
  rewrite <- Z.add_mod by (unfold two32; lia).
  reflexivity.
Qed.

Lemma to_int_min_iff z : to_int z = INT_MIN <-> z mod two32 = two31.
Proof.
  unfold to_int, INT_MIN, two31, two32.
  Z.to_euclidean_division_equations. lia.
Qed.

Lemma c_abs_nonneg x : in_int x -> x <> INT_MIN -> 0 <= c_abs x.
Proof.
  unfold in_int, c_abs, INT_MIN, INT_MAX. intros Hx Hne.
  rewrite to_int_id by (unfold in_int, INT_MIN, INT_MAX; lia). lia.
Qed.

Lemma c_abs_min : c_abs INT_MIN = INT_MIN.
Proof. reflexivity. Qed.

End MachIntFacts.
Import MachIntFacts.

Lemma hash_loop_zero n h : hash_loop n 0 h = h.
Proof. destruct n; reflexivity. Qed.

Lemma log2_quot10 t : Z.quot t 10 <> 0 -> Z.log2 (Z.abs (Z.quot t 10)) < Z.log2 (Z.abs t).
Proof.
  intros Hq.
  assert (Ha : 0 < Z.abs (Z.quot t 10)) by lia.
  assert (Hd : 2 * Z.abs (Z.quot t 10) <= Z.abs t)
    by (Z.to_euclidean_division_equations; lia).
  pose proof (Z.log2_double _ Ha) as Hdbl.
  pose proof (Z.log2_le_mono _ _ Hd). lia.
Qed.

Lemma hash_loop_enough n m t h :
  (t = 0 \/ Z.log2 (Z.abs t) < Z.of_nat n) ->
  (t = 0 \/ Z.log2 (Z.abs t) < Z.of_nat m) ->
  hash_loop n t h = hash_loop m t h.
Proof.
  revert m t h. induction n as [|n IH]; intros m t h Hn Hm.
  - destruct Hn as [-> | Hn]; [now rewrite !hash_loop_zero |].
    pose proof (Z.log2_nonneg (Z.abs t)). lia.
  - destruct (Z.eq_dec t 0) as [-> | Ht]; [now rewrite !hash_loop_zero |].
    destruct m as [|m].
    + destruct Hm as [? | Hm]; [contradiction |].
      pose proof (Z.log2_nonneg (Z.abs t)). lia.
    + simpl. apply Z.eqb_neq in Ht as Ht'. rewrite Ht'.
      destruct (Z.eq_dec (Z.quot t 10) 0) as [Hq | Hq].
      * rewrite Hq, !hash_loop_zero. reflexivity.
      * pose proof (log2_quot10 t Hq).
        apply IH; right; lia.
Qed.

Lemma hash_fuel_enough t : t = 0 \/ Z.log2 (Z.abs t) < Z.of_nat (hash_fuel t).
Proof.
  right. unfold hash_fuel. pose proof (Z.log2_nonneg (Z.abs t)). lia.
Qed.

(** The loop equation of [while (temp != 0)]. *)
Lemma hash_while_unfold t h :
  hash_while t h =
  if t =? 0 then h
  else hash_while (Z.quot t 10) (to_int (to_int (h * 31) + Z.rem t 10)).
Proof.
  unfold hash_while at 1. unfold hash_fuel. simpl.
  destruct (t =? 0) eqn:Ht; [reflexivity |].
  unfold hash_while. apply hash_loop_enough.
  - apply Z.eqb_neq in Ht.
    destruct (Z.eq_dec (Z.quot t 10) 0) as [Hq | Hq]; [now left | right].
    pose proof (log2_quot10 t Hq). pose proof (Z.log2_nonneg (Z.abs (Z.quot t 10))). lia.
  - apply hash_fuel_enough.
Qed.

(** More fuel than [hash_fuel] changes nothing: the loop has exited. *)
Lemma hash_loop_exits n t h :
  (hash_fuel t <= n)%nat -> hash_loop n t h = hash_while t h.
Proof.
  intros Hn. unfold hash_while. apply hash_loop_enough.
  - pose proof (hash_fuel_enough t). lia.
  - apply hash_fuel_enough.
Qed.

(** ** The hash function: where it is defined, and where it overflows *)

Import HashRange.

Lemma hash_loop_in_int n t h : in_int h -> in_int (hash_loop n t h).
Proof.
  revert t h. induction n as [|n IH]; intros t h Hh; simpl; [assumption |].
  destruct (t =? 0); [assumption |]. apply IH, to_int_range.
Qed.

Lemma hash_while_in_int t h : in_int h -> in_int (hash_while t h).
Proof. apply hash_loop_in_int. Qed.

Lemma hash_while_zero h : hash_while 0 h = h.
Proof. reflexivity. Qed.

(** One pass on a positive [temp], on exact values. *)
Lemma hash_while_step t H :
  1 <= t ->
  hash_while t (to_int H) = hash_while (t / 10) (to_int (H * 31 + t mod 10)).
Proof.
  intros Ht. rewrite hash_while_unfold.
  destruct (t =? 0) eqn:E; [apply Z.eqb_eq in E; lia |].
  rewrite to_int_mul_add.
  rewrite Z.quot_div_nonneg, Z.rem_mod_nonneg by lia. reflexivity.
Qed.

Lemma pow31_pos r : 0 < 31 ^ Z.of_nat r.
Proof. apply Z.pow_pos_nonneg; lia. Qed.

Lemma pow31_succ r : 31 ^ Z.of_nat (S r) = 31 * 31 ^ Z.of_nat r.
Proof. rewrite Nat2Z.inj_succ, Z.pow_succ_r by lia. reflexivity. Qed.

Lemma pow10_succ r : 10 ^ Z.of_nat (S r) = 10 * 10 ^ Z.of_nat r.
Proof. rewrite Nat2Z.inj_succ, Z.pow_succ_r by lia. reflexivity. Qed.

Lemma checked_int_in z : in_int z -> checked_int z = Some z.
Proof.
  unfold in_int, checked_int. intros [Hlo Hhi].
  apply Z.leb_le in Hlo, Hhi. now rewrite Hlo, Hhi.
Qed.

Lemma checked_int_some z v : checked_int z = Some v -> v = z /\ in_int z.
Proof.
  unfold checked_int, in_int.
  destruct (INT_MIN <=? z) eqn:Elo, (z <=? INT_MAX) eqn:Ehi; try discriminate.
  intros [= <-]. apply Z.leb_le in Elo, Ehi. auto.
Qed.

Lemma hash_body_checked_some t h t' h' :
  hash_body_checked t h = Some (t', h') ->
  in_int (h * 31) /\ in_int (h * 31 + Z.rem t 10) /\
  t' = Z.quot t 10 /\ h' = h * 31 + Z.rem t 10.
Proof.
  unfold hash_body_checked.
  destruct (checked_int (h * 31)) as [h1|] eqn:E1; [|discriminate].
  apply checked_int_some in E1 as [-> H1].
  destruct (checked_int (h * 31 + Z.rem t 10)) as [h2|] eqn:E2; [|discriminate].
  apply checked_int_some in E2 as [-> H2].
  intros [= <- <-]. auto.
Qed.

(** Where no operation overflows, the machine arithmetic of [hash_loop]
    gives the value of the source. *)
Lemma hash_loop_checked_agrees n : forall t h v,
  hash_loop_checked n t h = Some v -> hash_loop n t h = v.
Proof.
  induction n as [|n IH]; intros t h v; cbn [hash_loop_checked hash_loop].
  - now intros [= ->].
  - destruct (t =? 0); [now intros [= ->] |].
    destruct (hash_body_checked t h) as [[t' h']|] eqn:Eb; [|discriminate].
    apply hash_body_checked_some in Eb as (H1 & H2 & -> & ->).
    unfold hash_body. rewrite (to_int_id _ H1), (to_int_id _ H2). apply IH.
Qed.

Lemma hash_checked_agrees tag v : hash_checked tag = Some v -> hash tag = v.
Proof.
  unfold hash_checked, hash, hash_while.
  destruct (hash_loop_checked (hash_fuel tag) tag 7) as [h|] eqn:El; [|discriminate].
  rewrite (hash_loop_checked_agrees _ _ _ _ El).
  pose proof (hash_loop_in_int (hash_fuel tag) tag 7
                ltac:(unfold in_int, INT_MIN, INT_MAX; lia)) as Hin.
  rewrite (hash_loop_checked_agrees _ _ _ _ El) in Hin.
  unfold abs_checked. destruct (h =? INT_MIN) eqn:E; [discriminate |].
  apply Z.eqb_neq in E. intros [= <-]. unfold c_abs. apply to_int_id.
  unfold in_int, INT_MIN, INT_MAX in *. lia.
Qed.

Lemma spread_nonneg k : 0 <= spread k.
Proof.
  induction k as [|k IHk]; cbn [spread]; [lia |]. pose proof (pow31_pos k). lia.
Qed.

(** With at most [f] digits left in [temp] and room for them above the
    accumulator [H], no pass overflows. *)
Lemma hash_loop_checked_small n : forall (f : nat) t H,
  Z.abs t < 10 ^ Z.of_nat f -> 1 <= H ->
  H * 31 ^ Z.of_nat f + spread f <= INT_MAX ->
  exists v, hash_loop_checked n t H = Some v /\ H <= v <= INT_MAX.
Proof.
  induction n as [|n IH]; intros f t H Ht HH Hroom.
  - exists H. split; [reflexivity |].
    pose proof (pow31_pos f). pose proof (spread_nonneg f). nia.
  - cbn [hash_loop_checked].
    pose proof spread_nonneg as Hsp.
    destruct (t =? 0) eqn:E.
    + exists H. split; [reflexivity |]. pose proof (pow31_pos f). pose proof (Hsp f). nia.
    + apply Z.eqb_neq in E.
      destruct f as [|f]; [cbn in Ht; lia |].
      rewrite pow31_succ in Hroom. rewrite pow10_succ in Ht. cbn [spread] in Hroom.
      pose proof (pow31_pos f) as Hp. pose proof (Hsp f) as Hs.
      assert (Hd : -9 <= Z.rem t 10 <= 9)
        by (pose proof (Z.rem_bound_abs t 10 ltac:(lia)); lia).
      assert (Hq : Z.abs (Z.quot t 10) < 10 ^ Z.of_nat f).
      { rewrite <- Z.quot_abs by lia. change (Z.abs 10) with 10.
        rewrite Z.quot_div_nonneg by lia. apply Z.div_lt_upper_bound; lia. }
      assert (H1 : in_int (H * 31)) by (unfold in_int, INT_MIN, INT_MAX in *; nia).
      assert (H2 : in_int (H * 31 + Z.rem t 10))
        by (unfold in_int, INT_MIN, INT_MAX in *; nia).
      unfold hash_body_checked. rewrite (checked_int_in _ H1), (checked_int_in _ H2).
      destruct (IH f (Z.quot t 10) (H * 31 + Z.rem t 10) Hq ltac:(lia) ltac:(nia))
        as (v & Hv & Hb).
      exists v. split; [exact Hv | lia].
Qed.

(** With more than [j] digits left in [temp] and an accumulator that [j]
    more passes take beyond [INT_MAX], a multiplication overflows. *)
Lemma hash_loop_checked_overflow (j : nat) : forall (n : nat) t H,
  10 ^ Z.of_nat j <= Z.abs t -> 1 <= H ->
  INT_MAX <= (H - 1) * 31 ^ Z.of_nat (S j) ->
  (j < n)%nat ->
  hash_loop_checked n t H = None.
Proof.
  induction j as [|j IH]; intros n t H Ht HH Hbig Hn.
  - destruct n as [|n]; [lia |]. cbn [hash_loop_checked].
    destruct (t =? 0) eqn:E; [apply Z.eqb_eq in E; cbn in Ht; lia |].
    destruct (hash_body_checked t H) as [[t' h']|] eqn:Eb; [|reflexivity].
    apply hash_body_checked_some in Eb as (H1 & _).
    change (31 ^ Z.of_nat 1) with 31 in Hbig.
    unfold in_int, INT_MIN, INT_MAX in *. lia.
  - destruct n as [|n]; [lia |]. cbn [hash_loop_checked].
    pose proof (Z.pow_pos_nonneg 10 (Z.of_nat (S j)) ltac:(lia) ltac:(lia)) as H10.
    destruct (t =? 0) eqn:E; [apply Z.eqb_eq in E; subst t; cbn [Z.abs] in Ht; lia |].
    destruct (hash_body_checked t H) as [[t' h']|] eqn:Eb; [|reflexivity].
    apply hash_body_checked_some in Eb as (H1 & H2 & -> & ->).
    assert (Hd : -9 <= Z.rem t 10 <= 9)
      by (pose proof (Z.rem_bound_abs t 10 ltac:(lia)); lia).
    rewrite pow10_succ in Ht. rewrite pow31_succ in Hbig.
    pose proof (pow31_pos (S j)) as Hp.
    apply IH; [| lia | | lia].
    + rewrite <- Z.quot_abs by lia. change (Z.abs 10) with 10.
      rewrite Z.quot_div_nonneg by lia. apply Z.div_le_lower_bound; lia.
    + nia.
Qed.

(** C6 fails on the code.  [hash] ends in [abs], which is there to make
    the result non-negative, but the loop before it works on a signed
    [int], whose overflow is undefined.  For every tag of six digits or
    more, of either sign, a multiplication [hashVal * 31] does not fit an
    [int] (by the sixth pass at the latest), so nothing is promised about
    the result.  Tag 100009 is one of them: the arithmetic of the machine
    leaves -2119746465 there before [abs], which is the negative number an
    optimised build returns once it has made use of the overflow being
    undefined and dropped [abs]. *)
Theorem hash_overflow_is_undefined tag :
  100000 <= Z.abs tag ->
  hash_checked tag = None /\
  hash_checked 100009 = None /\
  hash_while 100009 7 = -2119746465.
Proof.
  intros Ht. split; [|split; vm_compute; reflexivity].
  unfold hash_checked.
  rewrite (hash_loop_checked_overflow 5 (hash_fuel tag) tag 7);
    [reflexivity | exact Ht | lia | vm_compute; discriminate |].
  unfold hash_fuel.
  pose proof (Z.log2_le_mono 100000 (Z.abs tag) Ht) as Hlog.
  change (Z.log2 100000) with 16 in Hlog. lia.
Qed.

Lemma hash_overflow_is_undefined_witness : hash_checked 2147483647 = None.
Proof.
  refine (proj1 (hash_overflow_is_undefined 2147483647 _)). cbn. lia.
Defined.

(** C2.  The fixtures of the hash function: [hash(0) = 7],
    [hash(7) = 7*31 + 7 = 224] and [hash(12) = (7*31 + 2)*31 + 1 = 6790];
    in both cases the value before [abs] is already the result. *)
Theorem hash_fixtures :
  hash 0 = 7 /\
  hash 7 = 7 * 31 + 7 /\ hash 7 = 224 /\
  hash 12 = (7 * 31 + 2) * 31 + 1 /\ hash 12 = 6790 /\
  hash_while 7 7 = hash 7 /\ hash_while 12 7 = hash 12.
Proof. repeat split; reflexivity. Qed.

(** C3, as the specification words it, fails: before [abs] the loop has left 6728
    for tag 10, not 217, and [hash(10)] is 6728. *)
Lemma hash_10_is_not_217 :
  hash_while 10 7 <> 7 * 31 + 0 /\ hash 10 <> 217.
Proof. split; vm_compute; discriminate. Qed.

(** C3, as the code has it.  Tag 10 takes two passes of the loop: the
    digit 0 gives [7*31 + 0 = 217] and the digit 1 then gives
    [217*31 + 1 = 6728], which is the value before [abs] and the result.
    The result depends on the tag alone: equal tags have equal hashes, and
    any number of passes allowed beyond [hash_fuel] gives the same value. *)
Theorem hash_10_and_determinism (n m : Z) (fuel : nat) :
  0 <= n -> n = m -> (hash_fuel n <= fuel)%nat ->
  hash_while 10 7 = (7 * 31 + 0) * 31 + 1 /\
  hash 10 = 6728 /\
  hash n = hash m /\
  c_abs (hash_loop fuel n 7) = hash n.
Proof.
  intros _ <- Hfuel. repeat split; try reflexivity.
  unfold hash. now rewrite hash_loop_exits.
Qed.

Lemma hash_10_and_determinism_witness :
  hash 10 = 6728 /\ c_abs (hash_loop 11 10 7) = hash 10.
Proof.
  destruct (hash_10_and_determinism 10 10 11) as (_ & H10 & _ & Hfuel);
    [lia | reflexivity | vm_compute; lia |].
  split; [exact H10 | exact Hfuel].
Defined.

(** ** The parser *)

Module StdStringFacts.
Import StdString.

Lemma substring_full s : substring 0 (String.length s) s = s.
Proof. induction s as [|c s IH]; simpl; [reflexivity | now rewrite IH]. Qed.

Lemma substr_after_op str :
  2 <= size str <= INT_MAX -> substr str 2 npos = Some (after_op str).
Proof.
  unfold size, INT_MAX. intros Hs.
  destruct str as [|a [|b rest]]; simpl in Hs; try lia.
  unfold substr, size, npos, two64.
  destruct (_ <? 2) eqn:E; [apply Z.ltb_lt in E; simpl in E; lia |].
  f_equal. simpl String.length.
  replace (Z.to_nat (Z.min _ _)) with (String.length rest) by lia.
  change (Z.to_nat 2) with 2%nat. simpl. apply substring_full.
Qed.

Lemma substr_short str : size str < 2 -> substr str 2 npos = None.
Proof.
  unfold substr. intros Hs.
  destruct (size str <? 2) eqn:E; [reflexivity | apply Z.ltb_ge in E; lia].
Qed.

Lemma find_from_spec c s : forall from,
  match after c s with
  | None => find_from c s from = npos /\ before c s = s
  | Some tl =>
      exists n : nat,
        find_from c s from = from + Z.of_nat n /\
        (n < String.length s)%nat /\
        substring 0 n s = before c s /\
        substring (S n) (String.length s - S n) s = tl
  end.
Proof.
  induction s as [|d s IH]; intros from; simpl.
  - split; reflexivity.
  - destruct (Ascii.eqb d c) eqn:E.
    + exists 0%nat. rewrite Nat.sub_0_r.
      repeat split; [lia | lia | apply substring_full].
    + specialize (IH (from + 1)). destruct (after c s) as [tl|].
      * destruct IH as (n & Hf & Hn & Hb & Ha).
        exists (S n). repeat split; [lia | lia | simpl; now rewrite Hb | exact Ha].
      * destruct IH as [Hf Hb]. split; [exact Hf | now rewrite Hb].
Qed.

Lemma to_int_npos : to_int npos = -1.
Proof. reflexivity. Qed.

Lemma to_size_t_small z : 0 <= z <= INT_MAX -> to_size_t z = z.
Proof.
  unfold to_size_t, two64, INT_MAX. intros Hz. apply Z.mod_small. lia.
Qed.

Lemma to_int_small z : 0 <= z <= INT_MAX -> to_int z = z.
Proof. intros Hz. apply to_int_id. unfold in_int, INT_MIN, INT_MAX in *. lia. Qed.

End StdStringFacts.
Import StdStringFacts.

(** What the parser makes of a line of at least two characters. *)
Lemma parse_line_spec str :
  2 <= StdString.size str <= INT_MAX ->
  parse_line str =
  Some (fst (set_op (StdString.front str) Task_default),
        (StdString.atoi (key_field str), StdString.atoi (value_field str))).
Proof.
  intros Hs. unfold parse_line.
  rewrite (substr_after_op str Hs). cbn [mbind option_bind].
  assert (Hrest : 0 <= StdString.size (after_op str) <= INT_MAX).
  { unfold StdString.size in *. destruct str as [|a [|b rest]]; simpl in *; lia. }
  unfold key_field, value_field, StdString.find_first_of.
  set (rest := after_op str) in *.
  pose proof (find_from_spec " "%char rest 0) as Hf.
  destruct (after " "%char rest) as [tl|].
  - destruct Hf as (n & Hf & Hn & Hb & Ha). rewrite Hf, Z.add_0_l.
    unfold StdString.size in Hrest.
    rewrite (to_int_small (Z.of_nat n)) by lia.
    rewrite (to_int_small (Z.of_nat n + 1)) by lia.
    rewrite !to_size_t_small by lia.
    unfold StdString.substr, StdString.size.
    destruct (_ <? 0) eqn:E0; [apply Z.ltb_lt in E0; lia |].
    destruct (_ <? Z.of_nat n + 1) eqn:E1; [apply Z.ltb_lt in E1; lia |].
    cbn [mbind option_bind]. change (Z.to_nat 0) with 0%nat.
    replace (Z.to_nat (Z.min (Z.of_nat n) _)) with n by lia.
    replace (Z.to_nat (Z.of_nat n + 1)) with (S n) by lia.
    replace (Z.to_nat (Z.min StdString.npos _)) with (String.length rest - S n)%nat
      by (unfold StdString.npos, two64, INT_MAX in *; lia).
    rewrite Hb, Ha. reflexivity.
  - destruct Hf as [Hf Hb]. rewrite Hf, to_int_npos.
    change (to_size_t (-1)) with StdString.npos.
    change (to_size_t (to_int (-1 + 1))) with 0.
    unfold StdString.substr, StdString.size in *.
    destruct (_ <? 0) eqn:E0; [apply Z.ltb_lt in E0; lia |].
    cbn [mbind option_bind]. change (Z.to_nat 0) with 0%nat.
    replace (Z.to_nat (Z.min StdString.npos _)) with (String.length rest)
      by (unfold StdString.npos, two64, INT_MAX in *; lia).
    rewrite substring_full, Hb. reflexivity.
Qed.

Lemma parse_line_short str : StdString.size str < 2 -> parse_line str = None.
Proof. intros Hs. unfold parse_line. now rewrite substr_short. Qed.

Lemma read_line_lines s :
  match read_line s with
  | (l, Some rest) =>
      file_lines s = l :: file_lines rest /\ (String.length rest < String.length s)%nat
  | (l, None) => file_lines s = [l]
  end.
Proof.
  induction s as [|c s IH]; simpl; [reflexivity |].
  destruct (Ascii.eqb c "010") eqn:E; [split; [reflexivity | lia] |].
  destruct (read_line s) as [l [rest|]].
  - destruct IH as [-> Hlen]. split; [reflexivity | lia].
  - rewrite IH. reflexivity.
Qed.

Lemma instructions_of_length lines tasks :
  instructions_of lines = Some tasks -> length tasks = length lines.
Proof.
  revert tasks. induction lines as [|l ls IH]; intros tasks; simpl.
  - intros [= <-]. reflexivity.
  - destruct (parse_line l) as [task|]; [|discriminate]. simpl.
    destruct (instructions_of ls) as [ts|]; [|discriminate]. simpl.
    intros [= <-]. simpl. f_equal. now apply IH.
Qed.

Lemma nonblank_size l : (0 <? StdString.size l) = nonblank l.
Proof.
  unfold nonblank, StdString.size.
  destruct (Nat.ltb_spec 0 (String.length l)); [apply Z.ltb_lt | apply Z.ltb_ge]; lia.
Qed.

Section ParseText.

Context {SeqHashTable FgHashTable : Type}.
Context `{!HashTable SeqHashTable} `{!HashTable FgHashTable}.

Lemma with_input_app (w : World SeqHashTable FgHashTable) a b :
  with_input (input (with_input a w) ++ b) (with_input a w) = with_input (a ++ b) w.
Proof. reflexivity. Qed.

Lemma with_input_id (w : World SeqHashTable FgHashTable) : with_input (input w) w = w.
Proof. destruct w; reflexivity. Qed.

(** Whatever the fuel, a loop that ends normally has appended the
    instructions of the non-blank lines left in the stream, in order. *)
Lemma parseText_loop_ok fuel : forall s (w w' : World SeqHashTable FgHashTable),
  parseText_loop fuel (mk_ifstream s false false) w = Ok tt w' ->
  exists tasks,
    instructions_of (nonblank_lines s) = Some tasks /\
    w' = with_input (input w ++ tasks) w.
Proof.
  induction fuel as [|fuel IH]; intros s w w'; [discriminate |].
  cbn [parseText_loop eofbit]. unfold getline. cbn [eofbit failbit orb rdbuf].
  pose proof (read_line_lines s) as Hl. unfold nonblank_lines.
  destruct (read_line s) as [l [rest|]].
  - destruct Hl as [-> _]. cbn [List.filter]. rewrite nonblank_size.
    destruct (nonblank l) eqn:E.
    + cbn [instructions_of].
      destruct (parse_line l) as [task|]; [|discriminate].
      intros Hrun. apply IH in Hrun as (tasks & Hi & ->).
      fold (nonblank_lines rest). rewrite Hi. exists (task :: tasks).
      split; [reflexivity |]. unfold with_input; simpl. now rewrite <- app_assoc.
    + apply IH.
  - rewrite Hl. cbn [List.filter]. rewrite nonblank_size.
    destruct (nonblank l) eqn:E.
    + cbn [instructions_of].
      destruct (parse_line l) as [task|]; [|discriminate].
      destruct fuel; [discriminate |]. cbn.
      intros [= <-]. exists [task]. split; reflexivity.
    + destruct fuel; [discriminate |]. cbn.
      intros [= <-]. exists []. split; [reflexivity |].
      rewrite app_nil_r. now rewrite with_input_id.
Qed.

(** With one pass per character and two to spare the loop does end. *)
Lemma parseText_loop_total fuel : forall s (w : World SeqHashTable FgHashTable) tasks,
  (String.length s + 2 <= fuel)%nat ->
  instructions_of (nonblank_lines s) = Some tasks ->
  parseText_loop fuel (mk_ifstream s false false) w
  = Ok tt (with_input (input w ++ tasks) w).
Proof.
  induction fuel as [|fuel IH]; intros s w tasks Hf; [lia |].
  cbn [parseText_loop eofbit]. unfold getline. cbn [eofbit failbit orb rdbuf].
  pose proof (read_line_lines s) as Hl. unfold nonblank_lines.
  destruct (read_line s) as [l [rest|]].
  - destruct Hl as [-> Hlen]. cbn [List.filter]. rewrite nonblank_size.
    destruct (nonblank l) eqn:E.
    + cbn [instructions_of].
      destruct (parse_line l) as [task|]; [|discriminate]. cbn [mbind option_bind].
      fold (nonblank_lines rest).
      destruct (instructions_of (nonblank_lines rest)) as [ts|] eqn:Hi; [|discriminate].
      intros [= <-].
      change ((w0 ← get; set_input (input w0 ++ [task]);; parseText_loop fuel (mk_ifstream rest false false)) w)
        with (parseText_loop fuel (mk_ifstream rest false false) (with_input (input w ++ [task]) w)).
      rewrite (IH rest _ ts) by (auto; lia).
      unfold with_input; simpl. now rewrite <- app_assoc.
    + intros Hi. apply IH; [lia | exact Hi].
  - rewrite Hl. cbn [List.filter]. rewrite nonblank_size.
    destruct fuel as [|fuel]; [lia |].
    destruct (nonblank l) eqn:E.
    + cbn [instructions_of].
      destruct (parse_line l) as [task|]; [|discriminate].
      intros [= <-]. reflexivity.
    + intros [= <-]. cbn. rewrite app_nil_r. now rewrite with_input_id.
Qed.

(** A line the parser throws on stops the loop, whatever the fuel left. *)
Lemma parseText_loop_throws fuel : forall s (w : World SeqHashTable FgHashTable),
  (String.length s + 2 <= fuel)%nat ->
  instructions_of (nonblank_lines s) = None ->
  exists w', parseText_loop fuel (mk_ifstream s false false) w = Stop OutOfRange w'.
Proof.
  induction fuel as [|fuel IH]; intros s w Hf; [lia |].
  cbn [parseText_loop eofbit]. unfold getline. cbn [eofbit failbit orb rdbuf].
  pose proof (read_line_lines s) as Hl. unfold nonblank_lines.
  destruct (read_line s) as [l [rest|]].
  - destruct Hl as [-> Hlen]. cbn [List.filter]. rewrite nonblank_size.
    destruct (nonblank l) eqn:E.
    + cbn [instructions_of].
      destruct (parse_line l) as [task|]; [|intros _; eexists; reflexivity].
      cbn [mbind option_bind]. fold (nonblank_lines rest).
      destruct (instructions_of (nonblank_lines rest)) as [ts|] eqn:Hi; [discriminate |].
      intros _.
      change ((w0 ← get; set_input (input w0 ++ [task]);; parseText_loop fuel (mk_ifstream rest false false)) w)
        with (parseText_loop fuel (mk_ifstream rest false false) (with_input (input w ++ [task]) w)).
      apply IH; [lia | exact Hi].
    + intros Hi. apply IH; [lia | exact Hi].
  - rewrite Hl. cbn [List.filter]. rewrite nonblank_size.
    destruct (nonblank l) eqn:E.
    + cbn [instructions_of].
      destruct (parse_line l) as [task|]; [discriminate |].
      intros _; eexists; reflexivity.
    + discriminate.
Qed.

(** On a file that could not be opened [eof()] never becomes true. *)
Lemma parseText_loop_unopened fuel : forall (w : World SeqHashTable FgHashTable),
  parseText_loop fuel (mk_ifstream EmptyString false true) w = Stop OutOfFuel w.
Proof. induction fuel as [|fuel IH]; intros w; [reflexivity | apply IH]. Qed.

Lemma parseText_ok fs fuel file (w w' : World SeqHashTable FgHashTable) :
  parseText fs fuel file w = Ok tt w' ->
  exists content tasks,
    fs file = Some content /\
    instructions_of (nonblank_lines content) = Some tasks /\
    w' = with_input tasks w.
Proof.
  unfold parseText, ifstream_open.
  change ((set_input [];; ?k) w) with (k (with_input [] w)).
  destruct (fs file) as [content|].
  - intros Hrun. apply parseText_loop_ok in Hrun as (tasks & Hi & ->).
    exists content, tasks. split; [reflexivity |]. split; [exact Hi | reflexivity].
  - now rewrite parseText_loop_unopened.
Qed.

End ParseText.

Section ParseLine.

Context {SeqHashTable FgHashTable : Type}.
Context `{!HashTable SeqHashTable} `{!HashTable FgHashTable}.
Implicit Types w : World SeqHashTable FgHashTable.

(** One pass of the loop of [parseText] on a non-blank line. *)
Lemma parseText_loop_line fuel infile infile' str w :
  eofbit infile = false ->
  getline infile = (str, infile') ->
  0 < StdString.size str ->
  parseText_loop (S fuel) infile w =
  match parse_line str with
  | Some task => parseText_loop fuel infile' (with_input (input w ++ [task]) w)
  | None => Stop OutOfRange w
  end.
Proof.
  intros Heof Hget Hlen. cbn [parseText_loop]. rewrite Heof, Hget.
  destruct (0 <? StdString.size str) eqn:E; [|apply Z.ltb_ge in E; lia].
  destruct (parse_line str); reflexivity.
Qed.

End ParseLine.

(** A line that denotes an instruction is parsed into it. *)
Lemma line_task_parsed l task :
  StdString.size l <= INT_MAX -> line_task l = Some task -> parse_line l = Some task.
Proof.
  intros Hsize Hl.
  destruct l as [|c [|x rest]]; try discriminate.
  rewrite parse_line_spec
    by (split; [unfold StdString.size; cbn [String.length]; lia | exact Hsize]).
  unfold line_task in Hl.
  destruct (letter_op c) as [op|] eqn:Hop; [|discriminate].
  injection Hl as <-. f_equal. f_equal.
  cbn [StdString.front].
  destruct c as [[] [] [] [] [] [] [] []]; cbn in Hop; try discriminate;
    injection Hop as <-; reflexivity.
Qed.

Lemma tasks_of_parsed lines : forall tasks,
  Forall (fun l => StdString.size l <= INT_MAX) lines ->
  tasks_of lines = Some tasks -> instructions_of lines = Some tasks.
Proof.
  induction lines as [|l ls IH]; intros tasks Hall; cbn [tasks_of instructions_of].
  - now intros [= <-].
  - apply Forall_cons in Hall as [Hl Hall].
    destruct (line_task l) as [task|] eqn:Ht; [|discriminate].
    destruct (tasks_of ls) as [ts|] eqn:Hts; [|discriminate].
    intros [= <-]. rewrite (line_task_parsed l task Hl Ht), (IH ts Hall eq_refl).
    reflexivity.
Qed.

(** C9.  Parsing an existing file, with fuel for one pass per character
    and two more, sets [input] to the instructions of the file's non-blank
    lines in file order, whatever [input] held before; when one of those
    lines makes the parser throw, the process stops instead.  When every
    non-blank line is of the form [<OP> <KEY> <VALUE>] with a letter L, I
    or D, these instructions are the ones the lines denote: the operation
    of the letter, with the key and the value as written. *)
Theorem parseText_replaces_input {SeqHashTable FgHashTable : Type}
    `{!HashTable SeqHashTable} `{!HashTable FgHashTable}
    (fs : FileSystem) (fuel : nat) (file content : string)
    (w : World SeqHashTable FgHashTable) :
  fs file = Some content ->
  (String.length content + 2 <= fuel)%nat ->
  match instructions_of (nonblank_lines content) with
  | Some tasks => parseText fs fuel file w = Ok tt (with_input tasks w)
  | None => exists w', parseText fs fuel file w = Stop OutOfRange w'
  end /\
  (Forall (fun l => StdString.size l <= INT_MAX) (nonblank_lines content) ->
   forall tasks, tasks_of (nonblank_lines content) = Some tasks ->
                 parseText fs fuel file w = Ok tt (with_input tasks w)).
Proof.
  intros Hfs Hfuel.
  assert (Hparse : forall tasks,
             instructions_of (nonblank_lines content) = Some tasks ->
             parseText fs fuel file w = Ok tt (with_input tasks w)).
  { intros tasks Hi. unfold parseText, ifstream_open. rewrite Hfs.
    change ((set_input [];; ?k) w) with (k (with_input [] w)).
    now rewrite (parseText_loop_total fuel content (with_input [] w) tasks Hfuel Hi). }
  split.
  - destruct (instructions_of (nonblank_lines content)) as [tasks|] eqn:Hi.
    + now apply Hparse.
    + unfold parseText, ifstream_open. rewrite Hfs.
      change ((set_input [];; ?k) w) with (k (with_input [] w)).
      now apply parseText_loop_throws.
  - intros Hsize tasks Htasks. apply Hparse. now apply tasks_of_parsed.
Qed.

Lemma parseText_replaces_input_witness :
  parseText printed_lines enough_fuel "tests/10p_del_all.txt" stale_input
  = Ok tt (with_input [ (Instr.insert, (1, 10)); (Instr.lookup, (1, 10));
                        (Instr.del, (1, 10)) ] stale_input).
Proof.
  refine (proj2 (parseText_replaces_input printed_lines enough_fuel
                   "tests/10p_del_all.txt" three_ops stale_input _ _) _ _ _).
  - reflexivity.
  - apply Nat.leb_le. vm_compute. reflexivity.
  - repeat (apply Forall_cons; split; [vm_compute; discriminate |]). apply Forall_nil. exact I.
  - vm_compute. reflexivity.
Defined.

(** C10.  A pass of the loop of [parseText] on a line of at least two
    characters (and of a length an [int] can hold) does not throw: it
    appends exactly one instruction, whose key and value are what [atoi]
    reads from the text after offset 2, before and after its first space.
    On a line of a single character [substr(2)] throws
    [std::out_of_range] and no instruction is appended. *)
Theorem parseText_line_total {SeqHashTable FgHashTable : Type}
    `{!HashTable SeqHashTable} `{!HashTable FgHashTable}
    (fuel : nat) (infile infile' infile1 infile1' : ifstream)
    (str : string) (c : ascii) (w : World SeqHashTable FgHashTable) :
  2 <= StdString.size str <= INT_MAX ->
  eofbit infile = false -> getline infile = (str, infile') ->
  eofbit infile1 = false -> getline infile1 = (String c EmptyString, infile1') ->
  parse_line str
  = Some (op_field str,
          (StdString.atoi (key_field str), StdString.atoi (value_field str))) /\
  parseText_loop (S fuel) infile w
  = parseText_loop fuel infile'
      (with_input
         (input w ++ [(op_field str, (StdString.atoi (key_field str),
                                      StdString.atoi (value_field str)))]) w) /\
  parse_line (String c EmptyString) = None /\
  parseText_loop (S fuel) infile1 w = Stop OutOfRange w.
Proof.
  intros Hs Heof Hget Heof1 Hget1. split; [|split; [|split]].
  - apply (parse_line_spec str Hs).
  - rewrite (parseText_loop_line fuel infile infile' str w Heof Hget) by lia.
    now rewrite (parse_line_spec str Hs).
  - apply parse_line_short. reflexivity.
  - rewrite (parseText_loop_line fuel infile1 infile1' _ w Heof1 Hget1) by reflexivity.
    rewrite parse_line_short by reflexivity. reflexivity.
Qed.

Lemma parseText_line_total_witness :
  parse_line "D 12 -7" = Some (Instr.del, (12, -7)) /\
  parseText_loop 1 last_line stale_input = Stop OutOfRange stale_input.
Proof.
  destruct (parseText_line_total 0 two_lines last_line last_line
              (mk_ifstream EmptyString true false) "D 12 -7" "Z" stale_input)
    as (Hp & _ & _ & Hthrow);
    [vm_compute; split; discriminate | reflexivity | reflexivity | reflexivity
    | reflexivity |].
  split; [exact Hp | exact Hthrow].
Defined.

(** ** The workers *)

Lemma executed_by_app id a b :
  executed_by id (a ++ b) = executed_by id a ++ executed_by id b.
Proof.
  induction a as [|e a IH]; [reflexivity |].
  destruct e; simpl; try exact IH. destruct (_ =? id); simpl; now rewrite IH.
Qed.

Lemma executed_seq_app a b : executed_seq (a ++ b) = executed_seq a ++ executed_seq b.
Proof.
  induction a as [|e a IH]; [reflexivity |].
  destruct e; simpl; try exact IH. now rewrite IH.
Qed.

Lemma driver_events_app a b : driver_events (a ++ b) = driver_events a ++ driver_events b.
Proof. apply List.filter_app. Qed.

Section Workers.

Context {SeqHashTable FgHashTable : Type}.
Context `{!HashTable SeqHashTable} `{!HashTable FgHashTable}.

Lemma bind_ok {A B} (m : M SeqHashTable FgHashTable A) (f : A -> M SeqHashTable FgHashTable B) (w w' : World SeqHashTable FgHashTable) b :
  (m ≫= f) w = Ok b w' -> exists a w1, m w = Ok a w1 /\ f a w1 = Ok b w'.
Proof.
  unfold mbind, M_bind. destruct (m w) as [a w1|e w1]; [|discriminate].
  intros Hf. now exists a, w1.
Qed.

Lemma bind_stop {A B} (m : M SeqHashTable FgHashTable A) (f : A -> M SeqHashTable FgHashTable B) (w w' : World SeqHashTable FgHashTable) e :
  m w = Stop e w' -> (m ≫= f) w = Stop e w'.
Proof. unfold mbind, M_bind. now intros ->. Qed.

Lemma bind_run {A B} (m : M SeqHashTable FgHashTable A) (f : A -> M SeqHashTable FgHashTable B) (w w1 : World SeqHashTable FgHashTable) a :
  m w = Ok a w1 -> (m ≫= f) w = f a w1.
Proof. unfold mbind, M_bind. now intros ->. Qed.

Lemma fgRun_body_ok id i instr (w w' : World SeqHashTable FgHashTable) :
  fgRun_body id i instr w = Ok tt w' ->
  fg_keeps w w' /\ exists evs, log w' = log w ++ evs /\ pass_events id i evs.
Proof.
  destruct instr as [op [key value]]. unfold fgRun_body, fg_keeps.
  unfold mbind, M_bind, get, deref.
  destruct (htable w) as [ht|] eqn:Hht; [|discriminate].
  cbn [mret M_ret]. destruct op.
  - cbn. intros [= <-]. cbn. repeat split; eauto.
    eexists; split; [reflexivity | constructor].
  - cbn. destruct (ht_remove key ht) as [res ht']. cbn.
    destruct res as [node|]; [destruct (get_data node =? value) |];
      cbn; intros [= <-]; cbn; repeat split; eauto.
    + eexists; split; [reflexivity | constructor].
    + rewrite <- app_assoc. eexists; split; [reflexivity | constructor; auto].
    + eexists; split; [reflexivity | constructor].
  - cbn. destruct (ht_find key ht) as [node|]; [destruct (get_data node =? value) |];
      cbn; intros [= <-]; cbn; rewrite ?Hht; repeat split; eauto.
    + eexists; split; [reflexivity | constructor].
    + rewrite <- app_assoc. eexists; split; [reflexivity | constructor; auto].
    + eexists; split; [reflexivity | constructor].
Qed.

Lemma fgRun_body_total id i instr (w : World SeqHashTable FgHashTable) :
  is_Some (htable w) -> exists w', fgRun_body id i instr w = Ok tt w'.
Proof.
  intros [ht Hht]. destruct instr as [op [key value]]. unfold fgRun_body.
  unfold mbind, M_bind, get, deref. rewrite Hht. cbn [mret M_ret]. destruct op.
  - cbn. eauto.
  - cbn. destruct (ht_remove key ht) as [res ht']. cbn.
    destruct res as [node|]; [destruct (get_data node =? value) |]; cbn; eauto.
  - cbn. destruct (ht_find key ht) as [node|]; [destruct (get_data node =? value) |];
      cbn; eauto.
Qed.

Lemma fgRun_iter_exited id th (w : World SeqHashTable FgHashTable) :
  th_end th <= th_i th -> fgRun_iter id th w = Ok th w.
Proof.
  intros Hx. unfold fgRun_iter.
  destruct (th_i th <? th_end th) eqn:E; [apply Z.ltb_lt in E; lia | reflexivity].
Qed.

Lemma fgRun_iter_ok id th th' (w w' : World SeqHashTable FgHashTable) :
  th_i th < th_end th ->
  fgRun_iter id th w = Ok th' w' ->
  th' = mk_Thread (to_int (th_i th + 1)) (th_end th) /\
  fg_keeps w w' /\
  exists evs, log w' = log w ++ evs /\ pass_events id (th_i th) evs.
Proof.
  intros Hlt. unfold fgRun_iter.
  destruct (th_i th <? th_end th) eqn:E; [|apply Z.ltb_ge in E; lia].
  unfold mbind, M_bind, get, deref.
  destruct (input w !! _) as [instr|]; [|discriminate]. cbn [mret M_ret].
  destruct (fgRun_body id (th_i th) instr w) as [[] w1|] eqn:Hbody; [|discriminate].
  intros [= <- <-].
  split; [reflexivity |]. now apply fgRun_body_ok in Hbody.
Qed.

Lemma fgRun_iter_total id th (w : World SeqHashTable FgHashTable) :
  is_Some (htable w) ->
  0 <= th_i th < input_size w ->
  th_i th <= INT_MAX ->
  exists th' w', fgRun_iter id th w = Ok th' w'.
Proof.
  intros Hht Hi Hmax. unfold fgRun_iter.
  destruct (th_i th <? th_end th); [|eauto].
  rewrite to_size_t_small by lia.
  unfold input_size in Hi.
  destruct (lookup_lt_is_Some_2 (input w) (Z.to_nat (th_i th)) ltac:(lia)) as [instr Hin].
  destruct (fgRun_body_total id (th_i th) instr w Hht) as [w' Hb].
  exists (mk_Thread (to_int (th_i th + 1)) (th_end th)), w'.
  unfold mbind, M_bind, get, deref. rewrite Hin. cbn [mret M_ret].
  now rewrite Hb.
Qed.

End Workers.

(** ** The slices of the workers *)

Lemma executed_by_pass id id' i evs :
  pass_events id i evs -> executed_by id' evs = if id =? id' then [i] else [].
Proof. intros [c | c o Ho]; simpl; destruct (id =? id'); reflexivity. Qed.

Lemma pass_events_In id i evs a b c :
  pass_events id i evs -> In (EvFg a b c) evs -> a = id /\ b = i.
Proof.
  intros [c' | c' o Ho]; simpl; intros Hin.
  - destruct Hin as [[= -> -> ->] | []]. split; reflexivity.
  - destruct Hin as [[= -> -> ->] | [[=] | []]]. split; reflexivity.
Qed.

Section Partition.

Context {SeqHashTable FgHashTable : Type}.
Context `{!HashTable SeqHashTable} `{!HashTable FgHashTable}.

Variables (T : nat) (w0 : World SeqHashTable FgHashTable).
Hypothesis HT : (1 <= T)%nat.
Hypothesis HnT : numThreads w0 = Z.of_nat T.
Hypothesis HN : input_size w0 <= INT_MAX.
Hypothesis HTmax : Z.of_nat T <= INT_MAX.

Lemma slice_size :
  0 <= slice_len w0 /\ slice_len w0 * Z.of_nat T <= input_size w0.
Proof.
  unfold slice_len. rewrite HnT.
  assert (0 <= input_size w0) by (unfold input_size; lia). split.
  - apply Z.div_pos; lia.
  - rewrite Z.mul_comm. apply Z.mul_div_le. lia.
Qed.

Lemma slice_within (id : nat) :
  (id < T)%nat ->
  0 <= Z.of_nat id * slice_len w0 /\ (Z.of_nat id + 1) * slice_len w0 <= input_size w0.
Proof. pose proof slice_size. intros Hid. split; nia. Qed.

(** The bounds a worker computes are those of its slice. *)
Lemma fgRun_enter_slice (id : nat) :
  (id < T)%nat ->
  fgRun_enter (Z.of_nat id) w0
  = mk_Thread (Z.of_nat id * slice_len w0) ((Z.of_nat id + 1) * slice_len w0).
Proof.
  intros Hid. pose proof slice_size as [Hq HqT].
  pose proof (slice_within id Hid) as [Hlo Hhi].
  unfold fgRun_enter.
  rewrite (to_size_t_small (numThreads w0)) by lia.
  fold (slice_len w0). set (q := slice_len w0) in *. set (N := input_size w0) in *.
  rewrite (to_int_small q) by nia.
  rewrite (to_int_small (q * Z.of_nat id)) by nia.
  rewrite (to_int_small (q * Z.of_nat id + q)) by nia.
  rewrite (to_size_t_small (q * Z.of_nat id + q)) by nia.
  f_equal; [lia |].
  destruct (q * Z.of_nat id + q <? N) eqn:E; [lia |].
  apply Z.ltb_ge in E. rewrite to_int_small by (unfold N, input_size in *; lia). lia.
Qed.

Lemma spawned_lookup (id : nat) th :
  spawned T w0 !! id = Some th ->
  (id < T)%nat /\ th = fgRun_enter (Z.of_nat id) w0.
Proof.
  unfold spawned. rewrite list_lookup_fmap.
  destruct (seq 0 T !! id) as [k|] eqn:E; [|discriminate].
  apply lookup_seq in E as [-> Hk]. simpl. intros [= <-]. split; [lia | reflexivity].
Qed.

Lemma slice_inv_init : slice_inv T w0 (spawned T w0, w0).
Proof.
  unfold slice_inv; simpl. repeat split; auto.
  - unfold spawned. now rewrite length_map, length_seq.
  - exists []. rewrite app_nil_r. split; [reflexivity |]. split; [|intros ? ? ? []].
    intros id th Hth. apply spawned_lookup in Hth as [Hid ->].
    rewrite (fgRun_enter_slice id Hid). simpl.
    pose proof slice_size. split; [reflexivity |]. split; [nia |].
    rewrite Z.sub_diag. reflexivity.
Qed.

Lemma slice_inv_step st st' :
  slice_inv T w0 st -> fg_step st st' -> slice_inv T w0 st'.
Proof.
  intros (Hin & Hnt & Hht & Hlen & evs & Hlog & Hths & Hevs) Hstep.
  destruct Hstep as [id th th' ths w w' Hth Hlt Hiter]. simpl in *.
  apply fgRun_iter_ok in Hiter as (-> & (Hin' & Hnt' & _ & Hht') & pevs & Hlog' & Hpass);
    [|exact Hlt].
  pose proof (lookup_lt_Some _ _ _ Hth) as Hid. rewrite Hlen in Hid.
  destruct (Hths id th Hth) as (Hend & Hi & Hex).
  pose proof (slice_within id Hid) as [Hlo Hhi].
  assert (Hnext : to_int (th_i th + 1) = th_i th + 1) by (apply to_int_small; lia).
  unfold slice_inv; simpl.
  split; [congruence |]. split; [congruence |]. split; [auto |].
  split; [now rewrite length_insert |].
  exists (evs ++ pevs). split; [rewrite Hlog', Hlog; now rewrite app_assoc |]. split.
  - intros id' th1 Hth1. rewrite executed_by_app, (executed_by_pass _ _ _ _ Hpass).
    destruct (Nat.eq_dec id id') as [<- | Hne].
    + rewrite list_lookup_insert_eq in Hth1 by lia. injection Hth1 as <-. simpl.
      rewrite Hnext, Z.eqb_refl, Hex.
      split; [exact Hend |]. split; [lia |].
      replace (th_i th + 1 - Z.of_nat id * slice_len w0)
        with ((th_i th - Z.of_nat id * slice_len w0) + 1) by lia.
      rewrite seqZ_app by lia. f_equal. rewrite (seqZ_cons _ 1) by lia.
      rewrite seqZ_nil by lia. f_equal. lia.
    + rewrite list_lookup_insert_ne in Hth1 by exact Hne.
      destruct (Z.of_nat id =? Z.of_nat id') eqn:E; [apply Z.eqb_eq in E; lia |].
      rewrite app_nil_r. now apply Hths.
  - intros a b c Hin1. apply in_app_or in Hin1 as [Hin1 | Hin1]; [now apply (Hevs a b c) |].
    apply (pass_events_In _ _ _ a b c Hpass) in Hin1 as [-> ->].
    exists id. repeat split; auto; lia.
Qed.

Lemma slice_inv_rtc st st' :
  slice_inv T w0 st -> rtc fg_step st st' -> slice_inv T w0 st'.
Proof. intros Hinv Hrtc. induction Hrtc; eauto using slice_inv_step. Qed.

(** A worker that has not left its loop can make a pass. *)
Lemma slice_inv_progress ths w (id : nat) th :
  slice_inv T w0 (ths, w) -> is_Some (htable w0) ->
  ths !! id = Some th -> th_i th < th_end th ->
  exists th' w', fgRun_iter (Z.of_nat id) th w = Ok th' w'.
Proof.
  intros (Hin & Hnt & Hht & Hlen & evs & Hlog & Hths & Hevs) Hsome Hth Hlt.
  simpl in *. destruct (Hths id th Hth) as (Hend & Hi & Hex).
  pose proof (lookup_lt_Some _ _ _ Hth) as Hid. rewrite Hlen in Hid.
  pose proof (slice_within id Hid) as [Hlo Hhi].
  apply fgRun_iter_total; [auto | | lia].
  unfold input_size in *. rewrite Hin. lia.
Qed.

(** The remaining passes of one worker, made in a row, are steps of the
    concurrent run and leave the worker outside its loop. *)
Lemma fgRun_loop_steps n (id : nat) : forall ths w th,
  slice_inv T w0 (ths, w) -> is_Some (htable w0) ->
  ths !! id = Some th ->
  exists th' w',
    fgRun_loop n (Z.of_nat id) th w = Ok th' w' /\
    rtc fg_step (ths, w) (<[id := th']> ths, w') /\
    ((remaining th <= n)%nat -> th_end th' <= th_i th').
Proof.
  induction n as [|n IH]; intros ths w th Hinv Hsome Hth.
  - exists th, w. rewrite (list_insert_id _ _ _ Hth).
    split; [reflexivity |]. split; [reflexivity |]. unfold remaining. lia.
  - cbn [fgRun_loop]. destruct (Z.lt_ge_cases (th_i th) (th_end th)) as [Hlt | Hge].
    + destruct (slice_inv_progress ths w id th Hinv Hsome Hth Hlt) as (th1 & w1 & Hiter).
      assert (Hstep : fg_step (ths, w) (<[id := th1]> ths, w1))
        by (econstructor; eauto).
      pose proof (slice_inv_step _ _ Hinv Hstep) as Hinv1.
      pose proof (lookup_lt_Some _ _ _ Hth) as Hid.
      destruct (IH (<[id := th1]> ths) w1 th1 Hinv1 Hsome
                  ltac:(now apply list_lookup_insert_eq)) as (th' & w' & Hloop & Hrtc & Hex).
      exists th', w'. rewrite (bind_run _ _ _ _ _ Hiter).
      split; [exact Hloop |]. rewrite list_insert_insert_eq in Hrtc.
      split; [eapply rtc_l; eauto |].
      intros Hrem. apply Hex.
      apply fgRun_iter_ok in Hiter as (-> & _); [|exact Hlt].
      destruct Hinv as (_ & _ & _ & Hlen & evs & _ & Hths & _). simpl in *.
      destruct (Hths id th Hth) as (Hend & Hi & _). rewrite Hlen in Hid.
      pose proof (slice_within id Hid) as [Hlo Hhi].
      unfold remaining in *. simpl. rewrite to_int_small by lia. lia.
    + rewrite (bind_run _ _ _ _ _ (fgRun_iter_exited _ th w Hge)).
      destruct (IH ths w th Hinv Hsome Hth) as (th' & w' & Hloop & Hrtc & Hex).
      exists th', w'. split; [exact Hloop |]. split; [exact Hrtc |].
      intros _. apply Hex. unfold remaining. lia.
Qed.

Lemma sched_step_steps (id : nat) ths w :
  slice_inv T w0 (ths, w) -> is_Some (htable w0) ->
  exists ths' w', sched_step id ths w = Ok ths' w' /\ rtc fg_step (ths, w) (ths', w').
Proof.
  intros Hinv Hsome. unfold sched_step.
  destruct (ths !! id) as [th|] eqn:Hth; [|exists ths, w; split; reflexivity].
  destruct (fgRun_loop_steps 1 id ths w th Hinv Hsome Hth) as (th' & w' & Hloop & Hrtc & _).
  exists (<[id := th']> ths), w'. split; [|exact Hrtc].
  cbn [fgRun_loop] in Hloop. unfold mbind, M_bind in *.
  destruct (fgRun_iter (Z.of_nat id) th w) as [th1 w1|]; [|discriminate].
  cbn in Hloop. injection Hloop as -> ->. reflexivity.
Qed.

Lemma run_schedule_steps s : forall ths w,
  slice_inv T w0 (ths, w) -> is_Some (htable w0) ->
  exists ths' w', run_schedule s ths w = Ok ths' w' /\ rtc fg_step (ths, w) (ths', w').
Proof.
  induction s as [|id s IH]; intros ths w Hinv Hsome.
  - exists ths, w. split; reflexivity.
  - destruct (sched_step_steps id ths w Hinv Hsome) as (ths1 & w1 & Hstep & Hrtc1).
    destruct (IH ths1 w1 (slice_inv_rtc _ _ Hinv Hrtc1) Hsome) as (ths' & w' & Hrun & Hrtc).
    exists ths', w'. cbn [run_schedule]. rewrite (bind_run _ _ _ _ _ Hstep).
    split; [exact Hrun | etrans; eauto].
Qed.

(** A worker that has left its loop is never touched again. *)
Lemma exited_stable (st st' : list Thread * World SeqHashTable FgHashTable) (id : nat) th :
  rtc fg_step st st' ->
  st.1 !! id = Some th -> th_end th <= th_i th -> st'.1 !! id = Some th.
Proof.
  intros Hrtc. induction Hrtc as [|st st1 st' Hstep _ IH]; [auto |].
  intros Hth Hex. apply IH; [|exact Hex].
  destruct Hstep as [id' th1 th1' ths w w' Hth1 Hlt _]. simpl in *.
  destruct (Nat.eq_dec id' id) as [-> | Hne].
  - rewrite Hth in Hth1. injection Hth1 as <-. lia.
  - now rewrite list_lookup_insert_ne.
Qed.

Lemma join_threads_steps ids : forall ths w,
  slice_inv T w0 (ths, w) -> is_Some (htable w0) ->
  Forall (fun id => id < T)%nat ids ->
  exists ths' w',
    join_threads ids ths w = Ok ths' w' /\
    rtc fg_step (ths, w) (ths', w') /\
    (forall id, In id ids -> exists th, ths' !! id = Some th /\ th_end th <= th_i th).
Proof.
  induction ids as [|id ids IH]; intros ths w Hinv Hsome Hids.
  - exists ths, w. split; [reflexivity |]. split; [reflexivity | intros ? []].
  - apply Forall_cons in Hids as [Hid Hids].
    assert (Hlen : length ths = T) by apply Hinv.
    destruct (lookup_lt_is_Some_2 ths id ltac:(lia)) as [th Hth].
    destruct (fgRun_loop_steps (remaining th) id ths w th Hinv Hsome Hth)
      as (th' & w1 & Hloop & Hrtc1 & Hex).
    specialize (Hex ltac:(lia)).
    destruct (IH (<[id := th']> ths) w1 (slice_inv_rtc _ _ Hinv Hrtc1) Hsome Hids)
      as (ths' & w' & Hjoin & Hrtc & Hall).
    exists ths', w'. split; [|split].
    + cbn [join_threads]. unfold pthread_join, mbind at 1, M_bind at 1.
      unfold mbind at 1, M_bind at 1, deref. rewrite Hth. cbn [mret M_ret].
      unfold mbind, M_bind in *. rewrite Hloop. exact Hjoin.
    + etrans; eauto.
    + intros id' [<- | Hin]; [|now apply Hall].
      exists th'. split; [|exact Hex].
      apply (exited_stable _ _ id th' Hrtc); simpl; [|exact Hex].
      apply list_lookup_insert_eq. lia.
Qed.

(** Whatever the schedule, the workers of a run all reach the end of
    their loops, by passes of the concurrent run only. *)
Lemma fg_phase_completes s :
  is_Some (htable w0) ->
  exists ths1 w1 ths w,
    run_schedule s (spawned T w0) w0 = Ok ths1 w1 /\
    join_threads (seq 0 T) ths1 w1 = Ok ths w /\
    rtc fg_step (spawned T w0, w0) (ths, w) /\
    all_exited ths.
Proof.
  intros Hsome.
  destruct (run_schedule_steps s _ _ slice_inv_init Hsome) as (ths1 & w1 & Hrun & Hrtc1).
  pose proof (slice_inv_rtc _ _ slice_inv_init Hrtc1) as Hinv1.
  destruct (join_threads_steps (seq 0 T) ths1 w1 Hinv1 Hsome) as (ths & w & Hjoin & Hrtc & Hall).
  { apply List.Forall_forall. intros id Hid. apply in_seq in Hid. lia. }
  exists ths1, w1, ths, w. repeat split; [exact Hrun | exact Hjoin | etrans; eauto |].
  pose proof (slice_inv_rtc _ _ Hinv1 Hrtc) as (_ & _ & _ & Hlen & _). simpl in Hlen.
  apply Forall_lookup_2. intros id th Hth.
  pose proof (lookup_lt_Some _ _ _ Hth) as Hid.
  destruct (Hall id ltac:(apply in_seq; lia)) as (th' & Hth' & Hex). congruence.
Qed.

(** Once every worker has left its loop, each has executed its slice. *)
Lemma slice_inv_exited ths w :
  slice_inv T w0 (ths, w) -> all_exited ths ->
  exists evs,
    log w = log w0 ++ evs /\
    (forall id : nat, (id < T)%nat ->
       executed_by (Z.of_nat id) evs = slice (slice_len w0) (Z.of_nat id)) /\
    (forall id i c, In (EvFg id i c) evs ->
       0 <= i < Z.of_nat T * slice_len w0 /\ 0 <= id < Z.of_nat T).
Proof.
  intros (_ & _ & _ & Hlen & evs & Hlog & Hths & Hevs) Hall. simpl in *.
  exists evs. split; [exact Hlog |]. split.
  - intros id Hid.
    destruct (lookup_lt_is_Some_2 ths id ltac:(lia)) as [th Hth].
    destruct (Hths id th Hth) as (Hend & Hi & Hex).
    pose proof (Forall_lookup_1 _ _ _ _ Hall Hth) as Hx. simpl in Hx.
    rewrite Hex. unfold slice. f_equal. lia.
  - intros id i c Hin. destruct (Hevs id i c Hin) as (k & Hk & -> & Hi).
    pose proof slice_size. split; [nia | lia].
Qed.

End Partition.

(** The slices of the [T] workers, one after the other, are the indices
    below [T * len] in increasing order: they are contiguous and do not
    overlap. *)
Lemma slices_tile (len : Z) (T : nat) :
  0 <= len ->
  concat (map (fun id => slice len (Z.of_nat id)) (seq 0 T)) = seqZ 0 (Z.of_nat T * len).
Proof.
  intros Hlen. induction T as [|T IH]; [reflexivity |].
  rewrite seq_S, map_app, concat_app, IH. simpl. rewrite app_nil_r.
  replace (Z.of_nat (S T) * len) with (Z.of_nat T * len + len) by lia.
  rewrite seqZ_app by nia. reflexivity.
Qed.

(** C1.  A concurrent run over [N] instructions with [T] workers, for [N]
    in the range of [int] and [T >= 1].  In every state where all the
    workers have left their loops, however their passes were interleaved,
    worker [id] has executed exactly the indices
    [id * (N / T), ..., (id + 1) * (N / T) - 1], in this order; the slices
    of workers 0, 1, ..., T-1 put end to end are the indices below
    [T * (N / T)]; and no worker has executed any of the last [N mod T]
    indices.  Such a state is reached under every schedule.  For N = 10
    and T = 3 the slices are 0..2, 3..5 and 6..8, and index 9 is left
    out. *)
Theorem fgRun_partition {SeqHashTable FgHashTable : Type}
    `{!HashTable SeqHashTable} `{!HashTable FgHashTable}
    (T : nat) (w0 : World SeqHashTable FgHashTable) :
  (1 <= T)%nat ->
  numThreads w0 = Z.of_nat T ->
  input_size w0 <= INT_MAX ->
  Z.of_nat T <= INT_MAX ->
  let N := input_size w0 in
  let len := N / Z.of_nat T in
  (forall ths w,
      rtc fg_step (spawned T w0, w0) (ths, w) -> all_exited ths ->
      exists evs,
        log w = log w0 ++ evs /\
        (forall id : nat, (id < T)%nat ->
           executed_by (Z.of_nat id) evs = seqZ (Z.of_nat id * len) len) /\
        (forall i, N - N mod Z.of_nat T <= i < N ->
           forall id c, ~ In (EvFg id i c) evs)) /\
  concat (map (fun id => seqZ (Z.of_nat id * len) len) (seq 0 T))
    = seqZ 0 (Z.of_nat T * len) /\
  (is_Some (htable w0) ->
   forall s, exists ths1 w1 ths w,
       run_schedule s (spawned T w0) w0 = Ok ths1 w1 /\
       join_threads (seq 0 T) ths1 w1 = Ok ths w /\
       rtc fg_step (spawned T w0, w0) (ths, w) /\
       all_exited ths) /\
  (seqZ (0 * (10 / 3)) (10 / 3) = [0; 1; 2] /\
   seqZ (1 * (10 / 3)) (10 / 3) = [3; 4; 5] /\
   seqZ (2 * (10 / 3)) (10 / 3) = [6; 7; 8] /\
   10 - 10 mod 3 = 9).
Proof.
  intros HT HnT HN HTmax N len.
  assert (Hlen : len = slice_len w0) by (unfold len, N, slice_len; now rewrite HnT).
  split; [|split; [|split]].
  - intros ths w Hrtc Hall.
    assert (Hinit : slice_inv T w0 (spawned T w0, w0))
      by (apply slice_inv_init; assumption).
    assert (Hinv : slice_inv T w0 (ths, w))
      by (eapply slice_inv_rtc; eauto).
    edestruct (slice_inv_exited T w0) as (evs & Hlog & Hex & Hin); eauto.
    exists evs. split; [exact Hlog |]. split.
    + intros id Hid. rewrite Hlen. now apply Hex.
    + intros i Hi id c Hc. destruct (Hin id i c Hc) as [Hi' _].
      rewrite <- Hlen in Hi'. unfold len in Hi'.
      pose proof (Z.div_mod N (Z.of_nat T) ltac:(lia)). lia.
  - apply (slices_tile len T). unfold len, N, input_size. apply Z.div_pos; lia.
  - intros Hsome s. now apply fg_phase_completes.
  - repeat split; reflexivity.
Qed.

Lemma fgRun_partition_witness :
  exists ths w,
    rtc fg_step (spawned 3 three_workers, three_workers) (ths, w) /\
    all_exited ths /\
    executed_by 0 (log w) = [0; 1; 2] /\
    executed_by 1 (log w) = [3; 4; 5] /\
    executed_by 2 (log w) = [6; 7; 8] /\
    (forall id c, ~ In (EvFg id 9 c) (log w)).
Proof.
  destruct (fgRun_partition 3%nat three_workers) as (Hall & _ & Hrun & _);
    [lia | reflexivity | vm_compute; discriminate | vm_compute; discriminate |].
  destruct (Hrun ltac:(eexists; reflexivity) [2; 0; 1; 1; 2; 0]%nat)
    as (ths1 & w1 & ths & w & _ & _ & Hrtc & Hexit).
  destruct (Hall ths w Hrtc Hexit) as (evs & Hlog & Hex & Hrest).
  exists ths, w. simpl in Hlog. rewrite Hlog.
  split; [exact Hrtc |]. split; [exact Hexit |].
  split; [exact (Hex 0%nat ltac:(lia)) |].
  split; [exact (Hex 1%nat ltac:(lia)) |].
  split; [exact (Hex 2%nat ltac:(lia)) |].
  apply Hrest. vm_compute. split; [discriminate | reflexivity].
Defined.

(** ** What a run does with the node the table returns *)

Section Dispatch.

Context {SeqHashTable FgHashTable : Type}.
Context `{!HashTable SeqHashTable} `{!HashTable FgHashTable}.

(** The [switch] of [seqRun] on a [del] or [lookup] instruction. *)
Lemma seqRun_body_check (i : Z) op key value (w : World SeqHashTable FgHashTable) ht :
  op <> Instr.insert ->
  baseline w = Some ht ->
  exists w',
    log w' = log w ++ [EvSeq i (call_of op key value)] /\
    seqRun_body i (op, (key, value)) w =
    match returned op key ht with
    | Some node => if get_data node =? value then Ok tt w' else Stop AssertionFailed w'
    | None => Stop Undefined w'
    end.
Proof.
  intros Hop Hb. unfold seqRun_body, mbind, M_bind, get, deref. rewrite Hb.
  cbn [mret M_ret]. destruct op; [contradiction | |]; cbn.
  - destruct (ht_remove key ht) as [res ht']. cbn.
    destruct res as [node|]; cbn; [destruct (get_data node =? value); cbn |];
      eexists; (split; [|reflexivity]); reflexivity.
  - destruct (ht_find key ht) as [node|]; cbn; [destruct (get_data node =? value); cbn |];
      eexists; (split; [|reflexivity]); reflexivity.
Qed.

(** A pass of the loop of [seqRun] whose instruction stops the process
    stops the loop. *)
Lemma seqRun_loop_stops n (i : Z) instr e (w w' : World SeqHashTable FgHashTable) :
  0 <= i <= INT_MAX -> i < input_size w ->
  input w !! Z.to_nat i = Some instr ->
  seqRun_body i instr w = Stop e w' ->
  seqRun_loop (S n) i w = Stop e w'.
Proof.
  intros Hi Hlt Hin Hbody. cbn [seqRun_loop]. unfold mbind at 1, M_bind at 1, get.
  rewrite to_size_t_small by lia.
  destruct (i <? input_size w) eqn:E; [|apply Z.ltb_ge in E; lia].
  unfold mbind at 1, M_bind at 1, deref. rewrite Hin. cbn [mret M_ret].
  now apply bind_stop.
Qed.

(** The [switch] of [fgRun] on a [del] or [lookup] instruction. *)
Lemma fgRun_body_check (id i : Z) op key value (w : World SeqHashTable FgHashTable) ht :
  op <> Instr.insert ->
  htable w = Some ht ->
  exists w',
    fgRun_body id i (op, (key, value)) w = Ok tt w' /\
    log w' = log w ++ EvFg id i (call_of op key value)
                   :: warnings op (returned op key ht) value.
Proof.
  intros Hop Hb. unfold fgRun_body, mbind, M_bind, get, deref. rewrite Hb.
  cbn [mret M_ret]. destruct op; [contradiction | |]; cbn.
  - destruct (ht_remove key ht) as [res ht']. cbn.
    destruct res as [node|]; cbn; [destruct (get_data node =? value); cbn |];
      eexists; (split; [reflexivity |]); cbn; rewrite <- ?app_assoc; reflexivity.
  - destruct (ht_find key ht) as [node|]; cbn; [destruct (get_data node =? value); cbn |];
      eexists; (split; [reflexivity |]); cbn; rewrite <- ?app_assoc; reflexivity.
Qed.

End Dispatch.

(** C5.  Instruction [i] is a [del] or a [lookup] with value field
    [value].  In the sequential run the node the table returns is
    dereferenced and compared: a node with another value stops the whole
    loop with a failed assertion, right after the table call.  A worker of
    the concurrent run on the same instruction always goes on to [i + 1];
    it prints one warning line when the node is not null and carries
    another value, and prints nothing when the node is null (or carries the
    value). *)
Theorem mismatch_fatal_or_warning {SeqHashTable FgHashTable : Type}
    `{!HashTable SeqHashTable} `{!HashTable FgHashTable}
    (n : nat) (id i : Z) (op : Instr.t) (key value : Z) (th : Thread)
    (w : World SeqHashTable FgHashTable) (sT : SeqHashTable) (fT : FgHashTable) :
  op <> Instr.insert ->
  0 <= i <= INT_MAX -> i < input_size w ->
  input w !! Z.to_nat i = Some ((op, (key, value)) : Task) ->
  baseline w = Some sT ->
  htable w = Some fT ->
  th_i th = i -> i < th_end th ->
  (forall node, returned op key sT = Some node -> get_data node <> value ->
     exists w', seqRun_loop (S n) i w = Stop AssertionFailed w' /\
                log w' = log w ++ [EvSeq i (call_of op key value)]) /\
  (exists w', fgRun_iter id th w = Ok (mk_Thread (to_int (i + 1)) (th_end th)) w' /\
              log w' = log w ++ EvFg id i (call_of op key value)
                             :: warnings op (returned op key fT) value) /\
  (forall node, returned op key fT = Some node -> get_data node <> value ->
     warnings op (returned op key fT) value = [EvPrint (warning_of op)]) /\
  (returned op key fT = None -> warnings op (returned op key fT) value = []).
Proof.
  intros Hop Hi Hlt Hin Hb Hh Hth Hend. split; [|split; [|split]].
  - intros node Hret Hne.
    destruct (seqRun_body_check i op key value w sT Hop Hb) as (w' & Hlog & Hbody).
    rewrite Hret in Hbody. apply Z.eqb_neq in Hne. rewrite Hne in Hbody.
    exists w'. split; [|exact Hlog]. now apply seqRun_loop_stops with (instr := (op, (key, value))).
  - destruct (fgRun_body_check id i op key value w fT Hop Hh) as (w' & Hbody & Hlog).
    exists w'. split; [|exact Hlog].
    unfold fgRun_iter. rewrite Hth.
    destruct (i <? th_end th) eqn:E; [|apply Z.ltb_ge in E; lia].
    unfold mbind, M_bind, get, deref.
    rewrite to_size_t_small by lia. rewrite Hin. cbn [mret M_ret].
    rewrite Hbody. reflexivity.
  - intros node -> Hne. simpl. apply Z.eqb_neq in Hne. now rewrite Hne.
  - intros ->. reflexivity.
Qed.

Lemma mismatch_fatal_or_warning_witness :
  (exists w', seqRun_loop 2 0 stale_delete = Stop AssertionFailed w' /\
              log w' = [EvSeq 0 (CallRemove 5)]) /\
  (exists w', fgRun_iter 0 (mk_Thread 0 2) stale_delete = Ok (mk_Thread 1 2) w' /\
              log w' = [EvFg 0 0 (CallRemove 5); EvPrint OutDeletionFailed]).
Proof.
  destruct (mismatch_fatal_or_warning 1 0 0 Instr.del 5 51 (mk_Thread 0 2)
              stale_delete table_5_50 table_5_50)
    as (Hseq & Hfg & _ & _);
    [discriminate | vm_compute; split; discriminate | reflexivity | reflexivity
    | reflexivity | reflexivity | reflexivity | reflexivity |].
  split.
  - apply (Hseq (mk_LLNode 5 50)); [reflexivity | discriminate].
  - exact Hfg.
Defined.

(** ** Lines that start with an unknown letter *)

Lemma set_op_unknown str :
  unknown_op str -> set_op (StdString.front str) Task_default = Task_default.
Proof.
  destruct str as [|c s]; [intros [] |]. simpl. intros (HL & HI & HD).
  destruct c as [[] [] [] [] [] [] [] []]; try reflexivity; exfalso; auto.
Qed.

(** A line of at least two characters whose first one is not an operation
    letter yields an [insert] instruction. *)
Lemma unknown_op_parsed_as_insert str :
  unknown_op str ->
  2 <= StdString.size str <= INT_MAX ->
  parse_line str =
  Some (Instr.insert, (StdString.atoi (key_field str), StdString.atoi (value_field str))).
Proof.
  intros Hu Hs. rewrite (parse_line_spec str Hs), (set_op_unknown str Hu). reflexivity.
Qed.

(** The [switch] of either run on an [insert] instruction calls [insert]. *)
Lemma insert_dispatch {SeqHashTable FgHashTable : Type}
    `{!HashTable SeqHashTable} `{!HashTable FgHashTable}
    (id i key value : Z) (inp : list Task) (nT : Z)
    (sT : SeqHashTable) (fT : FgHashTable) (l : list Event) :
  let w := mk_World inp nT (Some sT) (Some fT) l in
  seqRun_body i (Instr.insert, (key, value)) w
  = Ok tt (mk_World inp nT (Some (ht_insert key value sT)) (Some fT)
             (l ++ [EvSeq i (CallInsert key value)])) /\
  fgRun_body id i (Instr.insert, (key, value)) w
  = Ok tt (mk_World inp nT (Some sT) (Some (ht_insert key value fT))
             (l ++ [EvFg id i (CallInsert key value)])).
Proof. split; reflexivity. Qed.

(** C4.  The line [X 5 50] starts with a letter that is none of L, I, D.
    The parser produces an instruction for it, but the operation of that
    instruction is [insert] (the value-initialised enumeration), so either
    run executes it as [insert(5, 50)] on its table instead of skipping
    it. *)
Theorem unknown_letter_is_inserted :
  unknown_op "X 5 50" /\
  parse_line "X 5 50" = Some (Instr.insert, (5, 50)) /\
  (forall (SeqHashTable FgHashTable : Type)
          (HS : HashTable SeqHashTable) (HF : HashTable FgHashTable)
          (id i : Z) (inp : list Task) (nT : Z)
          (sT : SeqHashTable) (fT : FgHashTable) (l : list Event),
      let w := mk_World inp nT (Some sT) (Some fT) l in
      (exists w', seqRun_body i (Instr.insert, (5, 50)) w = Ok tt w' /\
                  calls_of (log w') = calls_of l ++ [CallInsert 5 50] /\
                  baseline w' = Some (ht_insert 5 50 sT)) /\
      (exists w', fgRun_body id i (Instr.insert, (5, 50)) w = Ok tt w' /\
                  calls_of (log w') = calls_of l ++ [CallInsert 5 50] /\
                  htable w' = Some (ht_insert 5 50 fT))).
Proof.
  split; [repeat split; discriminate |]. split; [reflexivity |].
  intros S F HS HF id i inp nT sT fT l w.
  assert (Hcalls : forall e, calls_of (l ++ [e]) = calls_of l ++ calls_of [e]).
  { intros e. induction l as [|e' l' IH]; [reflexivity |].
    destruct e'; simpl; rewrite ?IH; reflexivity. }
  destruct (insert_dispatch id i 5 50 inp nT sT fT l) as [Hs Hf].
  split; eexists; (split; [eassumption |]); simpl; rewrite Hcalls; split; reflexivity.
Qed.

(** ** The driver loop *)

Lemma driver_events_creates (ids : list nat) :
  driver_events (map (fun id => EvCreate (Z.of_nat id)) ids)
  = map (fun id => EvCreate (Z.of_nat id)) ids.
Proof. induction ids as [|id ids IH]; [reflexivity |]. simpl. now rewrite IH. Qed.

Lemma executed_seq_creates (ids : list nat) :
  executed_seq (map (fun id => EvCreate (Z.of_nat id)) ids) = [].
Proof. induction ids as [|id ids IH]; [reflexivity | exact IH]. Qed.

Lemma pass_events_quiet id i evs :
  pass_events id i evs -> driver_events evs = [] /\ executed_seq evs = [].
Proof. intros [c | c o [-> | ->]]; split; reflexivity. Qed.

Section Driver.

Context {SeqHashTable FgHashTable : Type}.
Context `{!HashTable SeqHashTable} `{!HashTable FgHashTable}.
Implicit Types w : World SeqHashTable FgHashTable.

Lemma quiet_refl w : quiet w w.
Proof.
  repeat split. exists []. rewrite app_nil_r. repeat split.
Qed.

Lemma quiet_trans w1 w2 w3 : quiet w1 w2 -> quiet w2 w3 -> quiet w1 w3.
Proof.
  intros (Hi & Hn & Hb & e1 & Hl1 & Hd1 & Hs1) (Hi' & Hn' & Hb' & e2 & Hl2 & Hd2 & Hs2).
  split; [congruence |]. split; [congruence |]. split; [congruence |].
  exists (e1 ++ e2). rewrite Hl2, Hl1, <- app_assoc.
  rewrite driver_events_app, executed_seq_app, Hd1, Hd2, Hs1, Hs2. repeat split.
Qed.

Lemma fgRun_iter_quiet id th th' w w' : fgRun_iter id th w = Ok th' w' -> quiet w w'.
Proof.
  intros Hrun. destruct (Z.lt_ge_cases (th_i th) (th_end th)) as [Hlt | Hge].
  - apply fgRun_iter_ok in Hrun as (_ & (Hi & Hn & Hb & _) & evs & Hlog & Hp); [|exact Hlt].
    apply pass_events_quiet in Hp as [Hd Hs].
    repeat (split; [assumption |]). now exists evs.
  - rewrite (fgRun_iter_exited id th w Hge) in Hrun. injection Hrun as _ <-.
    apply quiet_refl.
Qed.

Lemma fgRun_loop_quiet n id : forall th th' w w',
  fgRun_loop n id th w = Ok th' w' -> quiet w w'.
Proof.
  induction n as [|n IH]; intros th th' w w'.
  - intros [= _ <-]. apply quiet_refl.
  - cbn [fgRun_loop]. intros Hrun. apply bind_ok in Hrun as (th1 & w1 & Hiter & Hrun).
    eapply quiet_trans; [eapply fgRun_iter_quiet | eapply IH]; eauto.
Qed.

Lemma sched_step_quiet id ths ths' w w' : sched_step id ths w = Ok ths' w' -> quiet w w'.
Proof.
  unfold sched_step. destruct (ths !! id) as [th|].
  - intros Hrun. apply bind_ok in Hrun as (th1 & w1 & Hiter & [= _ <-]).
    eapply fgRun_iter_quiet; eauto.
  - intros [= _ <-]. apply quiet_refl.
Qed.

Lemma run_schedule_quiet s : forall ths ths' w w',
  run_schedule s ths w = Ok ths' w' -> quiet w w'.
Proof.
  induction s as [|id s IH]; intros ths ths' w w'.
  - intros [= _ <-]. apply quiet_refl.
  - cbn [run_schedule]. intros Hrun. apply bind_ok in Hrun as (ths1 & w1 & Hstep & Hrun).
    eapply quiet_trans; [eapply sched_step_quiet | eapply IH]; eauto.
Qed.

Lemma pthread_join_quiet id ths ths' w w' : pthread_join id ths w = Ok ths' w' -> quiet w w'.
Proof.
  unfold pthread_join. intros Hrun.
  apply bind_ok in Hrun as (th & w1 & Hth & Hrun).
  apply bind_ok in Hrun as (th1 & w2 & Hloop & [= _ <-]).
  unfold deref in Hth. destruct (ths !! id); [|discriminate]. injection Hth as _ <-.
  eapply fgRun_loop_quiet; eauto.
Qed.

Lemma join_threads_quiet ids : forall ths ths' w w',
  join_threads ids ths w = Ok ths' w' -> quiet w w'.
Proof.
  induction ids as [|id ids IH]; intros ths ths' w w'.
  - intros [= _ <-]. apply quiet_refl.
  - cbn [join_threads]. intros Hrun. apply bind_ok in Hrun as (ths1 & w1 & Hj & Hrun).
    eapply quiet_trans; [eapply pthread_join_quiet | eapply IH]; eauto.
Qed.

Lemma with_events_app (a b : list Event) w :
  with_events b (with_events a w) = with_events (a ++ b) w.
Proof. unfold with_events; simpl. now rewrite app_assoc. Qed.

Lemma create_threads_ok ids : forall ths w w',
  create_threads ids w = Ok ths w' ->
  w' = with_events (map (fun id => EvCreate (Z.of_nat id)) ids) w.
Proof.
  induction ids as [|id ids IH]; intros ths w w'.
  - intros [= _ <-]. destruct w; unfold with_events; simpl. now rewrite app_nil_r.
  - cbn [create_threads]. unfold mbind at 1, M_bind at 1, emit.
    unfold mbind at 1, M_bind at 1, get.
    intros Hrun. apply bind_ok in Hrun as (ths1 & w1 & Hc & [= _ <-]).
    apply IH in Hc as ->. now rewrite with_events_app.
Qed.

Variable fs : FileSystem.
Variable schedule : string -> Z -> list nat.

(** One concurrent run of [main], when it ends normally. *)
Lemma fg_test_ok file j w w' :
  0 <= j <= INT_MAX ->
  fg_test schedule file j w = Ok tt w' ->
  input w' = input w /\ baseline w' = baseline w /\
  exists evs,
    log w' = log w ++ evs /\
    driver_events evs = fg_block (table_capacity w) j /\
    executed_seq evs = [].
Proof.
  intros Hj. unfold fg_test.
  unfold mbind at 1, M_bind at 1, get.
  unfold mbind at 1, M_bind at 1, emit.
  unfold mbind at 1, M_bind at 1, set_htable.
  unfold mbind at 1, M_bind at 1, set_numThreads.
  set (w1 := with_numThreads _ _).
  intros Hrun. apply bind_ok in Hrun as (ths & w2 & Hc & Hrun).
  apply bind_ok in Hrun as (ths1 & w3 & Hs & Hrun).
  apply bind_ok in Hrun as (ths2 & w4 & Hjn & Hrun).
  apply create_threads_ok in Hc. apply run_schedule_quiet in Hs. apply join_threads_quiet in Hjn.
  destruct (quiet_trans _ _ _ Hs Hjn) as (Hi & Hn & Hb & evs & Hlog & Hd & Hq).
  unfold mbind, M_bind, get, printf, emit, set_htable in Hrun. injection Hrun as <-.
  subst w2. simpl in *.
  split; [exact Hi |]. split; [exact Hb |].
  rewrite Hlog, Hn, (to_int_small j Hj).
  eexists. split; [rewrite <- !app_assoc; reflexivity |].
  rewrite !driver_events_app, !executed_seq_app, Hd, Hq.
  rewrite driver_events_creates, executed_seq_creates. split; reflexivity.
Qed.

Lemma thread_counts_loop_step fuel file j w w' :
  j <= 16 ->
  thread_counts_loop schedule (S fuel) file j w = Ok tt w' ->
  exists w1, fg_test schedule file j w = Ok tt w1 /\
             thread_counts_loop schedule fuel file (to_uint (j * 2)) w1 = Ok tt w'.
Proof.
  intros Hj. cbn [thread_counts_loop].
  destruct (j <=? 16) eqn:E; [|apply Z.leb_gt in E; lia].
  intros Hrun. apply bind_ok in Hrun as ([] & w1 & Hf & Hrun). eauto.
Qed.

(** The loop over the thread counts, when it ends normally. *)
Lemma thread_counts_loop_ok fuel file w w' :
  thread_counts_loop schedule fuel file 1 w = Ok tt w' ->
  input w' = input w /\ baseline w' = baseline w /\
  exists evs,
    log w' = log w ++ evs /\
    driver_events evs = concat (map (fg_block (table_capacity w)) thread_counts) /\
    executed_seq evs = [].
Proof.
  intros Hrun.
  destruct fuel as [|fuel]; [discriminate |].
  apply thread_counts_loop_step in Hrun as (w1 & H1 & Hrun); [|lia].
  destruct fuel as [|fuel]; [discriminate |].
  apply thread_counts_loop_step in Hrun as (w2 & H2 & Hrun); [|vm_compute; discriminate].
  destruct fuel as [|fuel]; [discriminate |].
  apply thread_counts_loop_step in Hrun as (w3 & H3 & Hrun); [|vm_compute; discriminate].
  destruct fuel as [|fuel]; [discriminate |].
  apply thread_counts_loop_step in Hrun as (w4 & H4 & Hrun); [|vm_compute; discriminate].
  destruct fuel as [|fuel]; [discriminate |].
  apply thread_counts_loop_step in Hrun as (w5 & H5 & Hrun); [|vm_compute; discriminate].
  destruct fuel as [|fuel]; [discriminate |].
  change (to_uint (to_uint (to_uint (to_uint (to_uint (1 * 2) * 2) * 2) * 2) * 2)) with 32 in Hrun.
  change (to_uint (to_uint (to_uint (to_uint (1 * 2) * 2) * 2) * 2)) with 16 in H5.
  change (to_uint (to_uint (to_uint (1 * 2) * 2) * 2)) with 8 in H4.
  change (to_uint (to_uint (1 * 2) * 2)) with 4 in H3.
  change (to_uint (1 * 2)) with 2 in H2.
  cbn in Hrun. injection Hrun as <-.
  apply fg_test_ok in H1 as (Hi1 & Hb1 & e1 & Hl1 & Hd1 & Hs1); [|vm_compute; split; discriminate].
  apply fg_test_ok in H2 as (Hi2 & Hb2 & e2 & Hl2 & Hd2 & Hs2); [|vm_compute; split; discriminate].
  apply fg_test_ok in H3 as (Hi3 & Hb3 & e3 & Hl3 & Hd3 & Hs3); [|vm_compute; split; discriminate].
  apply fg_test_ok in H4 as (Hi4 & Hb4 & e4 & Hl4 & Hd4 & Hs4); [|vm_compute; split; discriminate].
  apply fg_test_ok in H5 as (Hi5 & Hb5 & e5 & Hl5 & Hd5 & Hs5); [|vm_compute; split; discriminate].
  assert (Hc : forall w2, input w2 = input w -> table_capacity w2 = table_capacity w)
    by (intros ? Heq; unfold table_capacity, input_size; now rewrite Heq).
  rewrite (Hc w1) in Hd2 by congruence. rewrite (Hc w2) in Hd3 by congruence.
  rewrite (Hc w3) in Hd4 by congruence. rewrite (Hc w4) in Hd5 by congruence.
  split; [congruence |]. split; [congruence |].
  exists (e1 ++ e2 ++ e3 ++ e4 ++ e5). split; [|split].
  - rewrite Hl5, Hl4, Hl3, Hl2, Hl1. now rewrite <- !app_assoc.
  - rewrite !driver_events_app, Hd1, Hd2, Hd3, Hd4, Hd5.
    unfold thread_counts. cbn [map concat]. now rewrite app_nil_r.
  - rewrite !executed_seq_app, Hs1, Hs2, Hs3, Hs4, Hs5. reflexivity.
Qed.

Lemma seqRun_body_ok i instr w w' :
  seqRun_body i instr w = Ok tt w' ->
  input w' = input w /\ numThreads w' = numThreads w /\ htable w' = htable w /\
  exists c, log w' = log w ++ [EvSeq i c].
Proof.
  destruct instr as [op [key value]]. unfold seqRun_body, mbind, M_bind, get, deref.
  destruct (baseline w) as [ht|]; [|discriminate]. cbn [mret M_ret]. destruct op; cbn.
  - intros [= <-]. repeat split; eauto.
  - destruct (ht_remove key ht) as [res ht']. cbn.
    destruct res as [node|]; cbn; [|discriminate].
    destruct (get_data node =? value); cbn; [|discriminate].
    intros [= <-]. repeat split; eauto.
  - destruct (ht_find key ht) as [node|]; cbn; [|discriminate].
    destruct (get_data node =? value); cbn; [|discriminate].
    intros [= <-]. repeat split; eauto.
Qed.

(** The loop of [seqRun], when it ends normally: only table calls are
    logged, and with as much fuel as instructions left it has gone through
    all of them. *)
Lemma seqRun_loop_ok n : forall i w w',
  seqRun_loop n i w = Ok tt w' ->
  input w' = input w /\ numThreads w' = numThreads w /\ htable w' = htable w /\
  exists evs,
    log w' = log w ++ evs /\ driver_events evs = [] /\
    (0 <= i -> i + Z.of_nat n = input_size w -> input_size w <= INT_MAX ->
     executed_seq evs = seqZ i (Z.of_nat n)).
Proof.
  induction n as [|n IH]; intros i w w'.
  - intros [= <-]. repeat split. exists []. rewrite app_nil_r. repeat split.
  - cbn [seqRun_loop]. unfold mbind at 1, M_bind at 1, get.
    destruct (to_size_t i <? input_size w) eqn:E.
    + intros Hrun. apply bind_ok in Hrun as (instr & w1 & Hin & Hrun).
      apply bind_ok in Hrun as ([] & w2 & Hbody & Hrun).
      unfold deref in Hin. destruct (input w !! _); [|discriminate]. injection Hin as -> <-.
      apply seqRun_body_ok in Hbody as (Hi & Hn & Hh & c & Hlog).
      apply IH in Hrun as (Hi' & Hn' & Hh' & evs & Hlog' & Hd & Hs).
      split; [congruence |]. split; [congruence |]. split; [congruence |].
      exists (EvSeq i c :: evs). split; [rewrite Hlog', Hlog, <- app_assoc; reflexivity |].
      split; [exact Hd |].
      intros H0 Hsum Hmax. cbn [executed_seq].
      assert (Hsize : input_size w2 = input_size w) by (unfold input_size; now rewrite Hi).
      assert (Hnext : to_int (i + 1) = i + 1) by (apply to_int_small; lia).
      rewrite Hnext, Hsize in Hs. rewrite Hs by lia.
      rewrite (seqZ_cons i) by lia. f_equal. f_equal; lia.
    + intros [= <-]. repeat split. exists []. rewrite app_nil_r. repeat split.
      intros H0 Hsum Hmax. apply Z.ltb_ge in E.
      rewrite to_size_t_small in E by lia. lia.
Qed.

Lemma seqRun_ok w w' :
  seqRun w = Ok tt w' ->
  input w' = input w /\ numThreads w' = numThreads w /\ htable w' = htable w /\
  exists evs,
    log w' = log w ++ evs ++ [EvPrint OutSeqComplete] /\ driver_events evs = [] /\
    (input_size w <= INT_MAX -> executed_seq evs = seqZ 0 (input_size w)).
Proof.
  unfold seqRun. unfold mbind at 1, M_bind at 1, get.
  intros Hrun. apply bind_ok in Hrun as ([] & w1 & Hloop & Hrun).
  apply seqRun_loop_ok in Hloop as (Hi & Hn & Hh & evs & Hlog & Hd & Hs).
  unfold printf, emit in Hrun. injection Hrun as <-. simpl.
  repeat (split; [assumption |]). exists evs.
  split; [rewrite Hlog, <- app_assoc; reflexivity |]. split; [exact Hd |].
  intros Hmax. apply Hs; unfold input_size in *; lia.
Qed.

(** One file of [main], when it ends normally. *)
Lemma test_file_ok fuel file w w' :
  test_file fs schedule fuel file w = Ok tt w' ->
  exists evs,
    log w' = log w ++ evs /\
    driver_events evs = file_block file (instruction_count fs file) /\
    (instruction_count fs file <= INT_MAX ->
     executed_seq evs = seqZ 0 (instruction_count fs file)).
Proof.
  unfold test_file. unfold mbind at 1, M_bind at 1, printf, emit.
  intros Hrun. apply bind_ok in Hrun as ([] & w1 & Hp & Hrun).
  apply parseText_ok in Hp as (content & tasks & Hfs & Hins & ->).
  assert (Hcount : input_size (with_input tasks (with_events [EvPrint (OutTestingFile file)] w))
                   = instruction_count fs file).
  { unfold instruction_count, input_size. rewrite Hfs. simpl.
    now rewrite (instructions_of_length _ _ Hins). }
  revert Hrun Hcount. set (w1 := with_input tasks _). intros Hrun Hcount.
  unfold mbind at 1, M_bind at 1, get in Hrun.
  unfold mbind at 1, M_bind at 1, emit in Hrun.
  unfold mbind at 1, M_bind at 1, set_baseline in Hrun.
  apply bind_ok in Hrun as ([] & w2 & Hseq & Hrun).
  apply bind_ok in Hrun as ([] & w3 & Hloop & Hrun).
  unfold mbind, M_bind, emit, set_baseline in Hrun. injection Hrun as <-.
  apply seqRun_ok in Hseq as (Hi & Hn & Hh & e1 & Hl1 & Hd1 & Hs1).
  apply thread_counts_loop_ok in Hloop as (Hi' & Hb' & e2 & Hl2 & Hd2 & Hs2).
  assert (Hcap1 : table_capacity w1 = instruction_count fs file / 1000)
    by (unfold table_capacity; now rewrite Hcount).
  assert (Hcap2 : table_capacity w2 = instruction_count fs file / 1000).
  { unfold table_capacity.
    replace (input_size w2) with (input_size w1)
      by (unfold input_size; now rewrite Hi).
    now rewrite Hcount. }
  change (input_size (with_baseline _ _)) with (input_size w1) in Hs1.
  rewrite Hcount in Hs1. rewrite Hcap2 in Hd2.
  exists ([EvPrint (OutTestingFile file); EvNewSeq (table_capacity w1)]
            ++ e1 ++ [EvPrint OutSeqComplete] ++ e2 ++ [EvDeleteSeq]).
  split.
  { cbn [log with_baseline with_events]. rewrite Hl2, Hl1.
    cbn [log with_baseline with_events]. subst w1. cbn [log with_input with_events].
    rewrite <- !app_assoc. reflexivity. }
  rewrite !driver_events_app, !executed_seq_app, Hd1, Hd2, Hs2, Hcap1.
  split; [reflexivity |].
  intros Hmax. rewrite Hs1 by exact Hmax. simpl. now rewrite !app_nil_r.
Qed.

(** The loop over the files, when it ends normally. *)
Lemma files_loop_ok fuel files : forall w w',
  files_loop fs schedule fuel files w = Ok tt w' ->
  exists evs,
    log w' = log w ++ evs /\
    driver_events evs
    = concat (map (fun file => file_block file (instruction_count fs file)) files) /\
    (Forall (fun file => instruction_count fs file <= INT_MAX) files ->
     executed_seq evs
     = concat (map (fun file => seqZ 0 (instruction_count fs file)) files)).
Proof.
  induction files as [|file files IH]; intros w w'.
  - intros [= <-]. exists []. rewrite app_nil_r. repeat split.
  - cbn [files_loop]. intros Hrun. apply bind_ok in Hrun as ([] & w1 & Hf & Hrun).
    apply test_file_ok in Hf as (e1 & Hl1 & Hd1 & Hs1).
    apply IH in Hrun as (e2 & Hl2 & Hd2 & Hs2).
    exists (e1 ++ e2). split; [rewrite Hl2, Hl1, <- app_assoc; reflexivity |].
    rewrite driver_events_app, executed_seq_app, Hd1, Hd2. split; [reflexivity |].
    intros Hall. apply Forall_cons in Hall as [Hm Hall].
    cbn [map concat]. now rewrite Hs1, Hs2.
Qed.

End Driver.

(** ** The loops of the driver end *)

Section Termination.

Context {SeqHashTable FgHashTable : Type}.
Context `{!HashTable SeqHashTable} `{!HashTable FgHashTable}.
Implicit Types w : World SeqHashTable FgHashTable.

Lemma fuel_sufficed_bind {A B} (m : M SeqHashTable FgHashTable A)
    (f : A -> M SeqHashTable FgHashTable B) w :
  fuel_sufficed (m w) ->
  (forall a w1, m w = Ok a w1 -> fuel_sufficed (f a w1)) ->
  fuel_sufficed ((m ≫= f) w).
Proof.
  unfold mbind, M_bind. destruct (m w) as [a w1|e w1]; [|now intros].
  intros _ Hf. now apply Hf.
Qed.

Lemma fuel_sufficed_deref {A} (p : option A) w : fuel_sufficed (deref p w).
Proof. destruct p; exact I. Qed.

Lemma seqRun_body_fuel i instr w : fuel_sufficed (seqRun_body i instr w).
Proof.
  destruct instr as [op [key value]]. unfold seqRun_body, mbind, M_bind, get, deref.
  destruct (baseline w) as [ht|]; [|exact I]. cbn [mret M_ret]. destruct op; cbn.
  - exact I.
  - destruct (ht_remove key ht) as [[node|] ht']; cbn; [|exact I].
    destruct (get_data node =? value); exact I.
  - destruct (ht_find key ht) as [node|]; cbn; [|exact I].
    destruct (get_data node =? value); exact I.
Qed.

Lemma seqRun_loop_fuel n : forall i w, fuel_sufficed (seqRun_loop n i w).
Proof.
  induction n as [|n IH]; intros i w; [exact I |].
  cbn [seqRun_loop]. unfold mbind at 1, M_bind at 1, get.
  destruct (to_size_t i <? input_size w); [|exact I].
  apply fuel_sufficed_bind; [apply fuel_sufficed_deref |]. intros instr w1 _.
  apply fuel_sufficed_bind; [apply seqRun_body_fuel |]. intros _ w2 _. apply IH.
Qed.

Lemma seqRun_fuel w : fuel_sufficed (seqRun w).
Proof.
  unfold seqRun. unfold mbind at 1, M_bind at 1, get.
  apply fuel_sufficed_bind; [apply seqRun_loop_fuel |]. intros; exact I.
Qed.

Lemma fgRun_body_fuel id i instr w : fuel_sufficed (fgRun_body id i instr w).
Proof.
  destruct instr as [op [key value]]. unfold fgRun_body, mbind, M_bind, get, deref.
  destruct (htable w) as [ht|]; [|exact I]. cbn [mret M_ret]. destruct op; cbn.
  - exact I.
  - destruct (ht_remove key ht) as [[node|] ht']; cbn; [|exact I].
    destruct (get_data node =? value); exact I.
  - destruct (ht_find key ht) as [node|]; cbn; [|exact I].
    destruct (get_data node =? value); exact I.
Qed.

Lemma fgRun_iter_fuel id th w : fuel_sufficed (fgRun_iter id th w).
Proof.
  unfold fgRun_iter. destruct (th_i th <? th_end th); [|exact I].
  unfold mbind at 1, M_bind at 1, get.
  apply fuel_sufficed_bind; [apply fuel_sufficed_deref |]. intros instr w1 _.
  apply fuel_sufficed_bind; [apply fgRun_body_fuel | intros; exact I].
Qed.

Lemma fgRun_loop_fuel n id : forall th w, fuel_sufficed (fgRun_loop n id th w).
Proof.
  induction n as [|n IH]; intros th w; [exact I |].
  cbn [fgRun_loop]. apply fuel_sufficed_bind; [apply fgRun_iter_fuel | intros; apply IH].
Qed.

Lemma run_schedule_fuel s : forall ths w, fuel_sufficed (run_schedule s ths w).
Proof.
  induction s as [|id s IH]; intros ths w; [exact I |].
  cbn [run_schedule]. apply fuel_sufficed_bind; [|intros; apply IH].
  unfold sched_step. destruct (ths !! id); [|exact I].
  apply fuel_sufficed_bind; [apply fgRun_iter_fuel | intros; exact I].
Qed.

Lemma join_threads_fuel ids : forall ths w, fuel_sufficed (join_threads ids ths w).
Proof.
  induction ids as [|id ids IH]; intros ths w; [exact I |].
  cbn [join_threads]. apply fuel_sufficed_bind; [|intros; apply IH].
  unfold pthread_join.
  apply fuel_sufficed_bind; [apply fuel_sufficed_deref |]. intros th w1 _.
  apply fuel_sufficed_bind; [apply fgRun_loop_fuel | intros; exact I].
Qed.

Lemma create_threads_fuel ids : forall w, fuel_sufficed (create_threads ids w).
Proof.
  induction ids as [|id ids IH]; intros w; [exact I |].
  cbn [create_threads]. unfold mbind at 1, M_bind at 1, emit.
  unfold mbind at 1, M_bind at 1, get.
  apply fuel_sufficed_bind; [apply IH | intros; exact I].
Qed.

Variable fs : FileSystem.
Variable schedule : string -> Z -> list nat.

Lemma fg_test_fuel file j w : fuel_sufficed (fg_test schedule file j w).
Proof.
  unfold fg_test.
  unfold mbind at 1, M_bind at 1, get.
  unfold mbind at 1, M_bind at 1, emit.
  unfold mbind at 1, M_bind at 1, set_htable.
  unfold mbind at 1, M_bind at 1, set_numThreads.
  apply fuel_sufficed_bind; [apply create_threads_fuel |]. intros ths w1 _.
  apply fuel_sufficed_bind; [apply run_schedule_fuel |]. intros ths1 w2 _.
  apply fuel_sufficed_bind; [apply join_threads_fuel |]. intros; exact I.
Qed.

(** Six passes are enough for the loop over the thread counts. *)
Lemma thread_counts_loop_fuel fuel file w :
  (6 <= fuel)%nat -> fuel_sufficed (thread_counts_loop schedule fuel file 1 w).
Proof.
  intros Hfuel.
  do 6 (destruct fuel as [|fuel]; [lia |]). clear Hfuel.
  cbn [thread_counts_loop].
  change (1 <=? 16) with true. cbv iota.
  apply fuel_sufficed_bind; [apply fg_test_fuel |]. intros _ w1 _.
  change (to_uint (1 * 2) <=? 16) with true. cbv iota.
  apply fuel_sufficed_bind; [apply fg_test_fuel |]. intros _ w2 _.
  change (to_uint (to_uint (1 * 2) * 2) <=? 16) with true. cbv iota.
  apply fuel_sufficed_bind; [apply fg_test_fuel |]. intros _ w3 _.
  change (to_uint (to_uint (to_uint (1 * 2) * 2) * 2) <=? 16) with true. cbv iota.
  apply fuel_sufficed_bind; [apply fg_test_fuel |]. intros _ w4 _.
  change (to_uint (to_uint (to_uint (to_uint (1 * 2) * 2) * 2) * 2) <=? 16) with true.
  cbv iota.
  apply fuel_sufficed_bind; [apply fg_test_fuel |]. intros _ w5 _.
  change (to_uint (to_uint (to_uint (to_uint (to_uint (1 * 2) * 2) * 2) * 2) * 2) <=? 16)
    with false.
  exact I.
Qed.

Lemma parseText_fuel fuel file content w :
  fs file = Some content -> (String.length content + 2 <= fuel)%nat ->
  fuel_sufficed (parseText fs fuel file w).
Proof.
  intros Hfs Hfuel. unfold parseText, ifstream_open. rewrite Hfs.
  change ((set_input [];; ?k) w) with (k (with_input [] w)).
  destruct (instructions_of (nonblank_lines content)) as [tasks|] eqn:Hi.
  - now rewrite (parseText_loop_total fuel content _ tasks Hfuel Hi).
  - destruct (parseText_loop_throws fuel content (with_input [] w) Hfuel Hi) as [w' ->].
    exact I.
Qed.

(** With every trace file present, a pass of the parser per character of
    the longest one (and two more, six at least), [main] ends: normally,
    or because the process stops on an exception, a failed assertion or a
    null pointer. *)
Lemma files_loop_fuel fuel files : forall w,
  (6 <= fuel)%nat ->
  Forall (fun file => exists content,
              fs file = Some content /\ (String.length content + 2 <= fuel)%nat) files ->
  fuel_sufficed (files_loop fs schedule fuel files w).
Proof.
  induction files as [|file files IH]; intros w H6 Hall; [exact I |].
  apply Forall_cons in Hall as [(content & Hfs & Hlen) Hall].
  cbn [files_loop]. apply fuel_sufficed_bind; [|intros; now apply IH].
  unfold test_file. unfold mbind at 1, M_bind at 1, printf, emit.
  apply fuel_sufficed_bind; [now apply parseText_fuel with (content := content) |].
  intros _ w1 _.
  unfold mbind at 1, M_bind at 1, get.
  unfold mbind at 1, M_bind at 1, emit.
  unfold mbind at 1, M_bind at 1, set_baseline.
  apply fuel_sufficed_bind; [apply seqRun_fuel |]. intros _ w2 _.
  apply fuel_sufficed_bind; [now apply thread_counts_loop_fuel |]. intros; exact I.
Qed.

Lemma main_terminates fuel :
  (6 <= fuel)%nat ->
  Forall (fun file => exists content,
              fs file = Some content /\ (String.length content + 2 <= fuel)%nat)
         testfiles ->
  fuel_sufficed (@main SeqHashTable FgHashTable _ _ fs schedule fuel).
Proof. intros H6 Hall. now apply files_loop_fuel. Qed.

End Termination.

(** ** The table calls of a run *)







Section WorkerCalls.

Context {SeqHashTable FgHashTable : Type}.
Context `{!HashTable SeqHashTable} `{!HashTable FgHashTable}.
Implicit Types w : World SeqHashTable FgHashTable.


Variables (T : nat) (w0 : World SeqHashTable FgHashTable).
Hypothesis HT : (1 <= T)%nat.
Hypothesis HnT : numThreads w0 = Z.of_nat T.
Hypothesis HN : input_size w0 <= INT_MAX.
Hypothesis HTmax : Z.of_nat T <= INT_MAX.


End WorkerCalls.

Section DriverCalls.

Context {SeqHashTable FgHashTable : Type}.
Context `{!HashTable SeqHashTable} `{!HashTable FgHashTable}.
Implicit Types w : World SeqHashTable FgHashTable.

Lemma create_threads_spawned ids : forall w,
  create_threads ids w
  = Ok (map (fun id => fgRun_enter (Z.of_nat id) w) ids)
       (with_events (map (fun id => EvCreate (Z.of_nat id)) ids) w).
Proof.
  induction ids as [|id ids IH]; intros w.
  - cbn. unfold with_events. rewrite app_nil_r. now destruct w.
  - cbn [create_threads]. unfold mbind at 1, M_bind at 1, emit.
    unfold mbind at 1, M_bind at 1, get.
    unfold mbind, M_bind. rewrite IH. cbn [mret M_ret map].
    now rewrite with_events_app.
Qed.

Variable fs : FileSystem.
Variable schedule : string -> Z -> list nat.








End DriverCalls.

(** ** The whole run *)

Lemma capacities_app a b : capacities (a ++ b) = capacities a ++ capacities b.
Proof.
  induction a as [|e a IH]; [reflexivity |].
  destruct e; simpl; rewrite ?IH; reflexivity.
Qed.

Lemma capacities_driver_events evs : capacities (driver_events evs) = capacities evs.
Proof.
  induction evs as [|e evs IH]; [reflexivity |].
  destruct e as [[] | | | | | | |]; simpl; rewrite ?IH; reflexivity.
Qed.

Lemma capacities_creates (ids : list nat) rest :
  capacities (map (fun id => EvCreate (Z.of_nat id)) ids ++ rest) = capacities rest.
Proof. induction ids as [|id ids IH]; [reflexivity | exact IH]. Qed.

Lemma capacities_file_block file n : capacities (file_block file n) = repeat (n / 1000) 6.
Proof.
  unfold file_block, thread_counts, fg_block. cbn [map concat app capacities].
  rewrite !capacities_app. cbn [capacities app].
  repeat (rewrite capacities_creates; cbn [capacities app]).
  reflexivity.
Qed.

Lemma run_ok {SeqHashTable FgHashTable : Type} (r : Res SeqHashTable FgHashTable unit) :
  is_ok r = true -> r = Ok tt (world_of r).
Proof. destruct r as [[] w|e w]; [reflexivity | discriminate]. Qed.



Lemma long_files_complete :
  is_ok (@main ChainTable.t ChainTable.t _ _ long_files round_robin enough_fuel) = true.
Proof. vm_compute. reflexivity. Qed.


(** C7, as the code has it.  In a run of [main] that ends normally the
    tables are constructed, file after file, with the number of that file's
    instructions divided by 1000: once for the baseline table and once for
    each of the five fine-grained tables.  The quotient is not raised to 1:
    for a file of fewer than 1000 instructions it is 0. *)
Theorem capacity_is_quotient {SeqHashTable FgHashTable : Type}
    `{!HashTable SeqHashTable} `{!HashTable FgHashTable}
    (fs : FileSystem) (schedule : string -> Z -> list nat) (fuel : nat)
    (w : World SeqHashTable FgHashTable) :
  main fs schedule fuel = Ok tt w ->
  capacities (log w)
  = concat (map (fun file => repeat (instruction_count fs file / 1000) 6) testfiles) /\
  (forall file, instruction_count fs file < 1000 -> instruction_count fs file / 1000 = 0).
Proof.
  intros Hrun. split.
  - unfold main in Hrun. apply files_loop_ok in Hrun as (evs & Hlog & Hd & _).
    simpl in Hlog. subst evs. rewrite <- capacities_driver_events, Hd.
    generalize testfiles. intros files.
    induction files as [|file files IH]; [reflexivity |].
    cbn [map concat]. now rewrite capacities_app, capacities_file_block, IH.
  - intros file Hlt. apply Z.div_small. split; [|exact Hlt].
    unfold instruction_count. destruct (fs file); lia.
Qed.

Lemma capacity_is_quotient_witness :
  exists w : World ChainTable.t ChainTable.t,
    main long_files round_robin enough_fuel = Ok tt w /\
    capacities (log w)
    = [ 1; 1; 1; 1; 1; 1;  0; 0; 0; 0; 0; 0;  0; 0; 0; 0; 0; 0;
        0; 0; 0; 0; 0; 0;  0; 0; 0; 0; 0; 0 ].
Proof.
  exists (world_of (main long_files round_robin enough_fuel)).
  pose proof (run_ok _ long_files_complete) as Hrun.
  split; [exact Hrun |].
  destruct (capacity_is_quotient long_files round_robin enough_fuel _ Hrun) as [Hcap _].
  rewrite Hcap. vm_compute. reflexivity.
Defined.

(** C7, as the specification words it, fails: the first trace file holds three
    instructions, and the six tables [main] constructs for it get capacity
    0, where the clamped quotient is 1. *)
Lemma capacity_is_not_clamped :
  let constructed :=
    capacities
      (log (world_of (@test_file ChainTable.t ChainTable.t _ _ short_files round_robin
                        enough_fuel "tests/uniform_all_test.txt" initial_world))) in
  instruction_count short_files "tests/uniform_all_test.txt" = 3 /\
  constructed = [0; 0; 0; 0; 0; 0] /\
  constructed <> repeat (clamped_capacity 3) 6.
Proof.
  intros constructed. subst constructed.
  split; [vm_compute; reflexivity |].
  split; [vm_compute; reflexivity | vm_compute; discriminate].
Qed.

(** * Further properties *)

(** ** The sequential run, whatever its outcome *)

Section SeqOutcome.

Context {SeqHashTable FgHashTable : Type}.
Context `{!HashTable SeqHashTable} `{!HashTable FgHashTable}.
Implicit Types w : World SeqHashTable FgHashTable.

(** One instruction of the sequential run: it logs its table call and
    keeps the table pointer set; only a [del] or a [lookup] can stop the
    process, and only by a failed assertion or a null pointer. *)
Lemma seqRun_body_outcome i op key value w :
  is_Some (baseline w) ->
  let r := seqRun_body i (op, (key, value)) w in
  input (world_of r) = input w /\
  is_Some (baseline (world_of r)) /\
  log (world_of r) = log w ++ [EvSeq i (call_of op key value)] /\
  match r with
  | Ok _ _ => True
  | Stop e _ => op <> Instr.insert /\ (e = AssertionFailed \/ e = Undefined)
  end.
Proof.
  intros [ht Hb]. unfold seqRun_body, mbind, M_bind, get, deref. rewrite Hb.
  cbn [mret M_ret]. destruct op; cbn.
  - repeat split; eauto.
  - destruct (ht_remove key ht) as [[node|] ht']; cbn.
    + destruct (get_data node =? value); cbn; repeat split; eauto; discriminate.
    + repeat split; eauto; discriminate.
  - destruct (ht_find key ht) as [node|]; cbn.
    + destruct (get_data node =? value); cbn; rewrite ?Hb; repeat split; eauto; discriminate.
    + rewrite Hb. repeat split; eauto; discriminate.
Qed.

Lemma seqRun_loop_pass n i instr w :
  0 <= i -> i < input_size w -> input_size w <= INT_MAX ->
  input w !! Z.to_nat i = Some instr ->
  seqRun_loop (S n) i w =
  match seqRun_body i instr w with
  | Ok _ w1 => seqRun_loop n (i + 1) w1
  | Stop e w1 => Stop e w1
  end.
Proof.
  intros Hi Hlt Hmax Hin. cbn [seqRun_loop]. unfold mbind at 1, M_bind at 1, get.
  rewrite to_size_t_small by lia.
  destruct (i <? input_size w) eqn:E; [|apply Z.ltb_ge in E; lia].
  unfold mbind at 1, M_bind at 1, deref. rewrite Hin. cbn [mret M_ret].
  unfold mbind, M_bind. rewrite (to_int_small (i + 1)) by lia.
  destruct (seqRun_body i instr w) as [[] w1|e w1]; reflexivity.
Qed.

(** The loop of [seqRun] from instruction [i] with [n] instructions left:
    it goes through them in order and stops at the first one that stops
    the process. *)
Lemma seqRun_loop_outcome n : forall i w,
  is_Some (baseline w) ->
  0 <= i -> i + Z.of_nat n = input_size w -> input_size w <= INT_MAX ->
  let r := seqRun_loop n i w in
  input (world_of r) = input w /\
  exists evs (k : nat),
    log (world_of r) = log w ++ evs /\
    driver_events evs = [] /\
    executed_seq evs = seqZ i (Z.of_nat k) /\
    match r with
    | Ok _ _ => k = n
    | Stop e _ =>
        (1 <= k <= n)%nat /\
        (e = AssertionFailed \/ e = Undefined) /\
        exists op key value,
          input w !! Z.to_nat (i + Z.of_nat k - 1) = Some ((op, (key, value)) : Task) /\
          op <> Instr.insert
    end.
Proof.
  induction n as [|n IH]; intros i w Hb Hi Hsum Hmax r.
  - subst r. cbn. split; [reflexivity |]. exists [], 0%nat. rewrite app_nil_r. repeat split.
  - destruct (lookup_lt_is_Some_2 (input w) (Z.to_nat i)
                ltac:(unfold input_size in *; lia)) as [[op [key value]] Hin].
    subst r. rewrite (seqRun_loop_pass n i _ w ltac:(lia) ltac:(lia) Hmax Hin).
    pose proof (seqRun_body_outcome i op key value w Hb) as (Hinp & Hb1 & Hlog & Hstop).
    destruct (seqRun_body i (op, (key, value)) w) as [[] w1|e w1]; cbn [world_of] in *.
    + assert (Hsize : input_size w1 = input_size w) by (unfold input_size; now rewrite Hinp).
      specialize (IH (i + 1) w1 Hb1 ltac:(lia) ltac:(lia) ltac:(lia)).
      cbv zeta in IH. destruct IH as (Hinp' & evs & k & Hlog' & Hd & Hex & Hres).
      split; [congruence |].
      exists (EvSeq i (call_of op key value) :: evs), (S k).
      split; [rewrite Hlog', Hlog, <- app_assoc; reflexivity |].
      split; [exact Hd |].
      split; [cbn [executed_seq]; rewrite Hex, (seqZ_cons i) by lia; f_equal; f_equal; lia |].
      destruct (seqRun_loop n (i + 1) w1) as [[] w2|e w2].
      * now subst k.
      * destruct Hres as (Hk & He & op' & key' & value' & Hin' & Hop').
        split; [lia |]. split; [exact He |].
        exists op', key', value'. split; [|exact Hop'].
        rewrite <- Hinp. rewrite <- Hin'. f_equal. lia.
    + split; [exact Hinp |]. destruct Hstop as [Hop He].
      exists [EvSeq i (call_of op key value)], 1%nat.
      split; [exact Hlog |]. split; [reflexivity |].
      split; [rewrite (seqZ_cons i) by lia; now rewrite seqZ_nil by lia |].
      split; [lia |]. split; [exact He |].
      exists op, key, value. split; [|exact Hop].
      rewrite <- Hin. f_equal. lia.
Qed.

End SeqOutcome.

(** X1.  In the sequential run a [del] or a [lookup] whose key the table
    does not hold gets a null pointer back and dereferences it: the loop
    stops there, right after the table call. *)
Theorem seqRun_missing_key {SeqHashTable FgHashTable : Type}
    `{!HashTable SeqHashTable} `{!HashTable FgHashTable}
    (n : nat) (i : Z) (op : Instr.t) (key value : Z)
    (w : World SeqHashTable FgHashTable) (sT : SeqHashTable) :
  op <> Instr.insert ->
  0 <= i <= INT_MAX -> i < input_size w ->
  input w !! Z.to_nat i = Some ((op, (key, value)) : Task) ->
  baseline w = Some sT ->
  returned op key sT = None ->
  exists w', seqRun_loop (S n) i w = Stop Undefined w' /\
             log w' = log w ++ [EvSeq i (call_of op key value)].
Proof.
  intros Hop Hi Hlt Hin Hb Hret.
  destruct (seqRun_body_check i op key value w sT Hop Hb) as (w' & Hlog & Hbody).
  rewrite Hret in Hbody. exists w'. split; [|exact Hlog].
  now apply seqRun_loop_stops with (instr := (op, (key, value))).
Qed.

Lemma seqRun_missing_key_witness :
  exists w', seqRun_loop 1 1 stale_delete = Stop Undefined w' /\
             log w' = [EvSeq 1 (CallFind 6)].
Proof.
  apply (seqRun_missing_key 0 1 Instr.lookup 6 60 stale_delete table_5_50);
    [discriminate | vm_compute; split; discriminate | reflexivity | reflexivity
    | reflexivity | reflexivity].
Defined.

(** X2.  A sequential run over no more instructions than an [int] holds
    executes instructions 0, 1, 2, ... in this order and logs nothing but
    their table calls.  It ends normally only after all [N] of them, and
    then prints its completion line.  Otherwise it stops at the first
    instruction that stops the process, which is a [del] or a [lookup]
    (an [insert] never does), by a failed assertion or a null pointer, and
    prints nothing. *)
Theorem seqRun_in_order {SeqHashTable FgHashTable : Type}
    `{!HashTable SeqHashTable} `{!HashTable FgHashTable}
    (w : World SeqHashTable FgHashTable) :
  is_Some (baseline w) ->
  input_size w <= INT_MAX ->
  exists evs (k : nat),
    executed_seq evs = seqZ 0 (Z.of_nat k) /\
    driver_events evs = [] /\
    match seqRun w with
    | Ok _ w' =>
        Z.of_nat k = input_size w /\
        log w' = log w ++ evs ++ [EvPrint OutSeqComplete]
    | Stop e w' =>
        (1 <= Z.of_nat k <= input_size w) /\
        log w' = log w ++ evs /\
        (e = AssertionFailed \/ e = Undefined) /\
        exists op key value,
          input w !! (k - 1)%nat = Some ((op, (key, value)) : Task) /\
          op <> Instr.insert
    end.
Proof.
  intros Hb Hmax.
  pose proof (seqRun_loop_outcome (length (input w)) 0 w Hb ltac:(lia)
                ltac:(unfold input_size; lia) Hmax) as Hloop.
  cbv zeta in Hloop. destruct Hloop as (Hinp & evs & k & Hlog & Hd & Hex & Hres).
  exists evs, k. split; [exact Hex |]. split; [exact Hd |].
  unfold seqRun. unfold mbind at 1, M_bind at 1, get.
  unfold mbind, M_bind.
  destruct (seqRun_loop (length (input w)) 0 w) as [[] w1|e w1]; cbn [world_of] in *.
  - subst k. unfold printf, emit. cbn. split; [reflexivity |].
    now rewrite Hlog, <- app_assoc.
  - destruct Hres as (Hk & He & op & key & value & Hin & Hop).
    split; [unfold input_size; lia |]. split; [exact Hlog |]. split; [exact He |].
    exists op, key, value. split; [|exact Hop].
    rewrite <- Hin. f_equal. lia.
Qed.

Lemma seqRun_in_order_witness :
  exists w', seqRun stale_delete = Stop AssertionFailed w' /\
             executed_seq (log w') = [0].
Proof.
  destruct (seqRun_in_order stale_delete) as (evs & k & Hex & _ & Hrun);
    [eexists; reflexivity | vm_compute; discriminate |].
  destruct (seqRun stale_delete) as [[] w'|e w'] eqn:E.
  - exfalso. assert (H : is_ok (seqRun stale_delete) = false) by (vm_compute; reflexivity).
    rewrite E in H. discriminate.
  - exists w'. destruct Hrun as (Hk & Hlog & He & _).
    assert (Hs : match seqRun stale_delete with
                 | Stop AssertionFailed w1 => executed_seq (log w1) = [0]
                 | _ => False
                 end) by (vm_compute; reflexivity).
    rewrite E in Hs. destruct e; try contradiction. split; [reflexivity | exact Hs].
Defined.

(** ** The parser loop and the driver, whatever their outcome *)

Section DriverOutcome.

Context {SeqHashTable FgHashTable : Type}.
Context `{!HashTable SeqHashTable} `{!HashTable FgHashTable}.
Implicit Types w : World SeqHashTable FgHashTable.

(** The parser changes [input] only, and stops only on a line that makes
    [substr] throw or when the model runs out of passes. *)
Lemma parseText_loop_outcome fuel : forall infile w,
  let r := parseText_loop fuel infile w in
  log (world_of r) = log w /\
  match r with
  | Ok _ _ => True
  | Stop e _ => e = OutOfRange \/ e = OutOfFuel
  end.
Proof.
  induction fuel as [|fuel IH]; intros infile w; cbv zeta.
  - cbn. auto.
  - cbn [parseText_loop]. destruct (eofbit infile); [cbn; auto |].
    destruct (getline infile) as [str infile'].
    destruct (0 <? StdString.size str); [|apply IH].
    destruct (parse_line str) as [task|]; [|cbn; auto].
    apply (IH infile' (with_input (input w ++ [task]) w)).
Qed.

(** Beyond one pass per character and two more, the fuel of the parser
    loop does not matter. *)
Lemma parseText_loop_fuel_indep f1 : forall f2 s w,
  (String.length s + 2 <= f1)%nat -> (String.length s + 2 <= f2)%nat ->
  parseText_loop f1 (mk_ifstream s false false) w
  = parseText_loop f2 (mk_ifstream s false false) w.
Proof.
  induction f1 as [|f1 IH]; intros f2 s w H1 H2; [lia |].
  destruct f2 as [|f2]; [lia |].
  cbn [parseText_loop eofbit]. unfold getline. cbn [eofbit failbit orb rdbuf].
  pose proof (read_line_lines s) as Hl.
  destruct (read_line s) as [l [rest|]].
  - destruct Hl as [_ Hlen].
    destruct (0 <? StdString.size l).
    + destruct (parse_line l) as [task|]; [|reflexivity].
      apply (IH f2 rest (with_input (input w ++ [task]) w)); lia.
    + apply IH; lia.
  - destruct f1 as [|f1]; [lia |]. destruct f2 as [|f2]; [lia |].
    destruct (0 <? StdString.size l); [|reflexivity].
    destruct (parse_line l); reflexivity.
Qed.

Variable fs : FileSystem.
Variable schedule : string -> Z -> list nat.

(** A concurrent run of [main] never stops the process. *)
Lemma fg_test_total file j w :
  1 <= j <= INT_MAX -> input_size w <= INT_MAX ->
  exists w', fg_test schedule file j w = Ok tt w'.
Proof.
  intros Hj Hmax. unfold fg_test.
  unfold mbind at 1, M_bind at 1, get.
  unfold mbind at 1, M_bind at 1, emit.
  unfold mbind at 1, M_bind at 1, set_htable.
  unfold mbind at 1, M_bind at 1, set_numThreads.
  set (w1 := with_numThreads _ _).
  unfold mbind at 1, M_bind at 1. rewrite create_threads_spawned.
  set (w2 := with_events _ w1).
  assert (HnT : numThreads w2 = Z.of_nat (Z.to_nat j)).
  { subst w2 w1. cbn. rewrite to_int_small by lia. lia. }
  destruct (fg_phase_completes (Z.to_nat j) w2 ltac:(lia) HnT
              ltac:(exact Hmax) ltac:(lia) (schedule file j)
              ltac:(eexists; reflexivity))
    as (ths1 & w3 & ths & w4 & Hrun & Hjoin & _ & _).
  change (map (fun id => fgRun_enter (Z.of_nat id) w1) (seq 0 (Z.to_nat j)))
    with (spawned (Z.to_nat j) w2).
  unfold mbind at 1, M_bind at 1. rewrite Hrun.
  unfold mbind at 1, M_bind at 1. rewrite Hjoin.
  eexists. reflexivity.
Qed.

Lemma thread_counts_loop_pass fuel file j w w1 :
  j <= 16 ->
  fg_test schedule file j w = Ok tt w1 ->
  thread_counts_loop schedule (S fuel) file j w
  = thread_counts_loop schedule fuel file (to_uint (j * 2)) w1.
Proof.
  intros Hj Hrun. cbn [thread_counts_loop].
  destruct (j <=? 16) eqn:E; [|apply Z.leb_gt in E; lia].
  now rewrite (bind_run _ _ _ _ _ Hrun).
Qed.

(** With six passes allowed, the loop over the thread counts makes its
    five concurrent runs and ends. *)
Lemma thread_counts_loop_total fuel file w :
  (6 <= fuel)%nat -> input_size w <= INT_MAX ->
  exists w', thread_counts_loop schedule fuel file 1 w = Ok tt w'.
Proof.
  intros Hfuel Hmax.
  do 6 (destruct fuel as [|fuel]; [lia |]). clear Hfuel.
  assert (Hstep : forall j w1,
             1 <= j <= INT_MAX -> input_size w1 <= INT_MAX ->
             exists w2, fg_test schedule file j w1 = Ok tt w2 /\
                        input_size w2 <= INT_MAX).
  { intros j w1 Hj Hm. destruct (fg_test_total file j w1 Hj Hm) as [w2 Hw2].
    exists w2. split; [exact Hw2 |].
    apply fg_test_ok in Hw2 as (Hi & _); [|lia].
    unfold input_size in *. now rewrite Hi. }
  destruct (Hstep 1 w ltac:(vm_compute; split; discriminate) Hmax) as (w1 & R1 & H1).
  rewrite (thread_counts_loop_pass _ file 1 w w1 ltac:(lia) R1).
  change (to_uint (1 * 2)) with 2.
  destruct (Hstep 2 w1 ltac:(vm_compute; split; discriminate) H1) as (w2 & R2 & H2).
  rewrite (thread_counts_loop_pass _ file 2 w1 w2 ltac:(lia) R2).
  change (to_uint (2 * 2)) with 4.
  destruct (Hstep 4 w2 ltac:(vm_compute; split; discriminate) H2) as (w3 & R3 & H3).
  rewrite (thread_counts_loop_pass _ file 4 w2 w3 ltac:(lia) R3).
  change (to_uint (4 * 2)) with 8.
  destruct (Hstep 8 w3 ltac:(vm_compute; split; discriminate) H3) as (w4 & R4 & H4).
  rewrite (thread_counts_loop_pass _ file 8 w3 w4 ltac:(lia) R4).
  change (to_uint (8 * 2)) with 16.
  destruct (Hstep 16 w4 ltac:(vm_compute; split; discriminate) H4) as (w5 & R5 & H5).
  rewrite (thread_counts_loop_pass _ file 16 w4 w5 ltac:(lia) R5).
  exists w5. reflexivity.
Qed.

(** Beyond six passes the fuel of the loop over the thread counts does
    not matter. *)
Lemma thread_counts_loop_fuel_indep f1 f2 file w :
  (6 <= f1)%nat -> (6 <= f2)%nat ->
  thread_counts_loop schedule f1 file 1 w = thread_counts_loop schedule f2 file 1 w.
Proof.
  intros H1 H2.
  do 6 (destruct f1 as [|f1]; [lia |]). do 6 (destruct f2 as [|f2]; [lia |]).
  reflexivity.
Qed.

(** A file that cannot be opened: the parser loop never sees the end of
    the file. *)
Lemma test_file_unopened fuel file w :
  fs file = None ->
  exists w', test_file fs schedule fuel file w = Stop OutOfFuel w' /\
             log w' = log w ++ [EvPrint (OutTestingFile file)].
Proof.
  intros Hfs. unfold test_file. unfold mbind at 1, M_bind at 1, printf, emit.
  eexists. split.
  - apply bind_stop. unfold parseText, ifstream_open. rewrite Hfs.
    change ((set_input [];; ?k) ?w0) with (k (with_input [] w0)).
    apply parseText_loop_unopened.
  - reflexivity.
Qed.

Lemma files_loop_unopened fuel files file : forall w,
  In file files -> fs file = None ->
  is_ok (files_loop fs schedule fuel files w) = false.
Proof.
  induction files as [|f files IH]; intros w Hin Hfs; [destruct Hin |].
  cbn [files_loop]. unfold mbind, M_bind.
  destruct (test_file fs schedule fuel f w) as [[] w1|e w1] eqn:E; [|reflexivity].
  destruct Hin as [-> | Hin]; [|now apply IH].
  destruct (test_file_unopened fuel file w Hfs) as (w' & Hstop & _). congruence.
Qed.

(** One file of [main], when the process stops in it: it stops in the
    parser, with only the banner printed, or in the sequential run, with
    only the baseline table constructed. *)
Lemma test_file_stops fuel file w e w' :
  (6 <= fuel)%nat -> instruction_count fs file <= INT_MAX ->
  test_file fs schedule fuel file w = Stop e w' ->
  exists evs,
    log w' = log w ++ evs /\
    (((e = OutOfRange \/ e = OutOfFuel) /\
      driver_events evs = [EvPrint (OutTestingFile file)]) \/
     ((e = AssertionFailed \/ e = Undefined) /\
      driver_events evs
      = [EvPrint (OutTestingFile file); EvNewSeq (instruction_count fs file / 1000)])).
Proof.
  intros Hfuel Hmax. unfold test_file. unfold mbind at 1, M_bind at 1, printf, emit.
  set (w0 := with_events _ w).
  unfold mbind at 1, M_bind at 1.
  destruct (parseText fs fuel file w0) as [[] w1|e1 w1] eqn:Hp.
  - apply parseText_ok in Hp as (content & tasks & Hfs & Hins & ->).
    assert (Hcount : input_size (with_input tasks w0) = instruction_count fs file).
    { unfold instruction_count, input_size. rewrite Hfs. simpl.
      now rewrite (instructions_of_length _ _ Hins). }
    unfold mbind at 1, M_bind at 1, get.
    unfold mbind at 1, M_bind at 1, emit.
    unfold mbind at 1, M_bind at 1, set_baseline.
    set (w2 := with_baseline _ _).
    assert (Hsize2 : input_size w2 = instruction_count fs file) by exact Hcount.
    destruct (seqRun_in_order w2 ltac:(eexists; reflexivity) ltac:(lia))
      as (evs & k & _ & Hd & Hrun).
    unfold mbind at 1, M_bind at 1.
    destruct (seqRun w2) as [[] w3|e3 w3] eqn:Hseq.
    + apply seqRun_ok in Hseq as (Hi & _).
      destruct (thread_counts_loop_total fuel file w3 Hfuel) as [w4 Hloop].
      { unfold input_size in *. rewrite Hi. lia. }
      unfold mbind at 1, M_bind at 1. rewrite Hloop. discriminate.
    + intros [= <- <-]. destruct Hrun as (_ & Hlog & He & _).
      exists ([EvPrint (OutTestingFile file); EvNewSeq (table_capacity (with_input tasks w0))]
                ++ evs).
      split; [rewrite Hlog; subst w2 w0; cbn; rewrite <- !app_assoc; reflexivity |].
      right. split; [exact He |].
      rewrite driver_events_app, Hd. unfold table_capacity. rewrite Hcount. reflexivity.
  - intros [= <- <-].
    pose proof (parseText_loop_outcome fuel (ifstream_open fs file) (with_input [] w0))
      as [Hlog He].
    unfold parseText in Hp.
    change ((set_input [];; ?k) w0) with (k (with_input [] w0)) in Hp.
    rewrite Hp in Hlog, He. cbn [world_of] in Hlog.
    exists [EvPrint (OutTestingFile file)]. split; [exact Hlog |].
    left. split; [exact He | reflexivity].
Qed.

(** The loop over the files, when the process stops in it: the files
    before the one it stops in were gone through completely. *)
Lemma files_loop_stops fuel files : forall w e w',
  (6 <= fuel)%nat ->
  Forall (fun file => instruction_count fs file <= INT_MAX) files ->
  files_loop fs schedule fuel files w = Stop e w' ->
  exists done file rest evs,
    files = done ++ file :: rest /\
    log w' = log w ++ evs /\
    let before :=
      concat (map (fun f => file_block f (instruction_count fs f)) done) in
    (((e = OutOfRange \/ e = OutOfFuel) /\
      driver_events evs = before ++ [EvPrint (OutTestingFile file)]) \/
     ((e = AssertionFailed \/ e = Undefined) /\
      driver_events evs
      = before ++ [EvPrint (OutTestingFile file);
                   EvNewSeq (instruction_count fs file / 1000)])).
Proof.
  induction files as [|f files IH]; intros w e w' Hfuel Hall; [discriminate |].
  apply Forall_cons in Hall as [Hm Hall].
  cbn [files_loop]. unfold mbind, M_bind.
  destruct (test_file fs schedule fuel f w) as [[] w1|e1 w1] eqn:Hf.
  - intros Hrun. apply test_file_ok in Hf as (e1 & Hl1 & Hd1 & _).
    destruct (IH w1 e w' Hfuel Hall Hrun) as (done & file & rest & evs & -> & Hlog & Hcase).
    exists (f :: done), file, rest, (e1 ++ evs).
    split; [reflexivity |]. split; [rewrite Hlog, Hl1, <- app_assoc; reflexivity |].
    cbv zeta in *. cbn [map concat]. rewrite driver_events_app, Hd1, <- !app_assoc.
    destruct Hcase as [[He Hd] | [He Hd]]; [left | right]; (split; [exact He |]);
      now rewrite Hd.
  - intros [= <- <-].
    destruct (test_file_stops fuel f w e1 w1 Hfuel Hm Hf) as (evs & Hlog & Hcase).
    exists [], f, files, evs. split; [reflexivity |]. split; [exact Hlog |].
    exact Hcase.
Qed.

End DriverOutcome.

Section DriverFuel.

Context {SeqHashTable FgHashTable : Type}.
Context `{!HashTable SeqHashTable} `{!HashTable FgHashTable}.
Implicit Types w : World SeqHashTable FgHashTable.

Lemma bind_ext {A B} (m : M SeqHashTable FgHashTable A)
    (f g : A -> M SeqHashTable FgHashTable B) w :
  (forall a w1, f a w1 = g a w1) -> (m ≫= f) w = (m ≫= g) w.
Proof.
  intros Hfg. unfold mbind, M_bind. destruct (m w); [apply Hfg | reflexivity].
Qed.

Lemma bind_cong {A B} (m1 m2 : M SeqHashTable FgHashTable A)
    (f g : A -> M SeqHashTable FgHashTable B) w :
  m1 w = m2 w -> (forall a w1, f a w1 = g a w1) -> (m1 ≫= f) w = (m2 ≫= g) w.
Proof.
  intros Hm Hfg. unfold mbind, M_bind. rewrite Hm.
  destruct (m2 w); [apply Hfg | reflexivity].
Qed.

Variable fs : FileSystem.
Variable schedule : string -> Z -> list nat.

Lemma parseText_fuel_indep f1 f2 file w :
  (forall content, fs file = Some content ->
                   (String.length content + 2 <= f1)%nat /\
                   (String.length content + 2 <= f2)%nat) ->
  parseText fs f1 file w = parseText fs f2 file w.
Proof.
  intros Hlen. unfold parseText, ifstream_open.
  change ((set_input [];; ?k) w) with (k (with_input [] w)).
  destruct (fs file) as [content|].
  - destruct (Hlen content eq_refl). now apply parseText_loop_fuel_indep.
  - now rewrite !parseText_loop_unopened.
Qed.

Lemma test_file_fuel_indep f1 f2 file w :
  (6 <= f1)%nat -> (6 <= f2)%nat ->
  (forall content, fs file = Some content ->
                   (String.length content + 2 <= f1)%nat /\
                   (String.length content + 2 <= f2)%nat) ->
  test_file fs schedule f1 file w = test_file fs schedule f2 file w.
Proof.
  intros H1 H2 Hlen. unfold test_file.
  apply bind_ext. intros _ w1.
  apply bind_cong; [now apply parseText_fuel_indep |]. intros _ w2.
  apply bind_ext. intros w3 w4.
  apply bind_ext. intros _ w5.
  apply bind_ext. intros _ w6.
  apply bind_ext. intros _ w7.
  apply bind_cong; [|reflexivity].
  now apply thread_counts_loop_fuel_indep.
Qed.

Lemma files_loop_fuel_indep f1 f2 files : forall w,
  (6 <= f1)%nat -> (6 <= f2)%nat ->
  Forall (fun file => forall content, fs file = Some content ->
                        (String.length content + 2 <= f1)%nat /\
                        (String.length content + 2 <= f2)%nat) files ->
  files_loop fs schedule f1 files w = files_loop fs schedule f2 files w.
Proof.
  induction files as [|file files IH]; intros w H1 H2 Hall; [reflexivity |].
  apply Forall_cons in Hall as [Hlen Hall].
  cbn [files_loop].
  apply bind_cong; [now apply test_file_fuel_indep |]. intros _ w1. now apply IH.
Qed.

End DriverFuel.

(** X3.  When one of the five trace files cannot be opened, [parseText]
    never leaves its loop on it, however many passes it is given
    ([eof()] stays false), and so [main] never ends normally. *)
Theorem unopened_file_never_ends {SeqHashTable FgHashTable : Type}
    `{!HashTable SeqHashTable} `{!HashTable FgHashTable}
    (fs : FileSystem) (schedule : string -> Z -> list nat) (file : string)
    (fuel : nat) (w : World SeqHashTable FgHashTable) :
  In file testfiles ->
  fs file = None ->
  parseText fs fuel file w = Stop OutOfFuel (with_input [] w) /\
  is_ok (@main SeqHashTable FgHashTable _ _ fs schedule fuel) = false.
Proof.
  intros Hin Hfs. split.
  - unfold parseText, ifstream_open. rewrite Hfs.
    change ((set_input [];; ?k) w) with (k (with_input [] w)).
    apply parseText_loop_unopened.
  - unfold main. now apply files_loop_unopened with (file := file).
Qed.

Lemma unopened_file_never_ends_witness :
  is_ok (@main ChainTable.t ChainTable.t _ _ missing_last round_robin 1000) = false.
Proof.
  refine (proj2 (unopened_file_never_ends missing_last round_robin
                   "tests/10p_del_all.txt" 1000 initial_world _ _)).
  - cbv [testfiles args In]. auto 10.
  - reflexivity.
Defined.

(** X4.  With every trace file present, the outcome of [main] is the same
    for any two numbers of passes allowed to its loops that are at least
    six and at least the length of the longest file plus two: the loops
    have ended by themselves, and [main] has ended normally or the
    process has stopped on an exception, a failed assertion or a null
    pointer. *)
Theorem main_ends {SeqHashTable FgHashTable : Type}
    `{!HashTable SeqHashTable} `{!HashTable FgHashTable}
    (fs : FileSystem) (schedule : string -> Z -> list nat) (f1 f2 : nat) :
  (6 <= f1)%nat -> (6 <= f2)%nat ->
  Forall (fun file => exists content,
              fs file = Some content /\
              (String.length content + 2 <= f1)%nat /\
              (String.length content + 2 <= f2)%nat) testfiles ->
  @main SeqHashTable FgHashTable _ _ fs schedule f1 = main fs schedule f2 /\
  match @main SeqHashTable FgHashTable _ _ fs schedule f1 with
  | Ok _ _ => True
  | Stop e _ => e = OutOfRange \/ e = AssertionFailed \/ e = Undefined
  end.
Proof.
  intros H1 H2 Hall. split.
  - unfold main. apply files_loop_fuel_indep; auto.
    eapply List.Forall_impl; [|exact Hall]. cbn.
    intros file (content & Hfs & Hl1 & Hl2) content' Hfs'.
    rewrite Hfs in Hfs'. injection Hfs' as <-. auto.
  - assert (Hfuel : fuel_sufficed (@main SeqHashTable FgHashTable _ _ fs schedule f1)).
    { apply main_terminates; [exact H1 |].
      eapply List.Forall_impl; [|exact Hall]. cbn.
      intros file (content & Hfs & Hl1 & _). eauto. }
    destruct (main fs schedule f1) as [[] w|e w]; [exact I |].
    destruct e; cbn in Hfuel; auto; contradiction.
Qed.

Lemma main_ends_witness :
  @main ChainTable.t ChainTable.t _ _ bad_second round_robin 20
  = main bad_second round_robin 30.
Proof.
  refine (proj1 (main_ends bad_second round_robin 20 30 _ _ _)); [lia | lia |].
  apply List.Forall_forall. intros file _. unfold bad_second.
  destruct (String.eqb file _); eexists; (split; [reflexivity |]);
    vm_compute; split; lia.
Defined.

(** X5.  A run of [main] that stops early, with six passes allowed to its
    loops and trace files whose instruction counts fit an [int], has
    stopped in the parser or in the sequential run of one of the files,
    never in a concurrent run.  The files before that one were gone
    through completely.  When it stops in the parser (an exception from
    [substr], or a file that cannot be opened) the last thing the driver
    did is print the banner of the file; when it stops in the sequential
    run (a failed assertion or a null pointer) the last thing it did is
    construct the baseline table. *)
Theorem main_stops_before_concurrent_runs {SeqHashTable FgHashTable : Type}
    `{!HashTable SeqHashTable} `{!HashTable FgHashTable}
    (fs : FileSystem) (schedule : string -> Z -> list nat) (fuel : nat)
    (e : Abort) (w : World SeqHashTable FgHashTable) :
  (6 <= fuel)%nat ->
  Forall (fun file => instruction_count fs file <= INT_MAX) testfiles ->
  main fs schedule fuel = Stop e w ->
  exists done file rest,
    testfiles = done ++ file :: rest /\
    let before :=
      concat (map (fun f => file_block f (instruction_count fs f)) done) in
    (((e = OutOfRange \/ e = OutOfFuel) /\
      driver_events (log w) = before ++ [EvPrint (OutTestingFile file)]) \/
     ((e = AssertionFailed \/ e = Undefined) /\
      driver_events (log w)
      = before ++ [EvPrint (OutTestingFile file);
                   EvNewSeq (instruction_count fs file / 1000)])).
Proof.
  intros Hfuel Hall Hrun. unfold main in Hrun.
  destruct (files_loop_stops fs schedule fuel testfiles initial_world e w Hfuel Hall Hrun)
    as (done & file & rest & evs & Hfiles & Hlog & Hcase).
  cbn in Hlog. subst evs. exists done, file, rest. split; [exact Hfiles | exact Hcase].
Qed.

Lemma bad_second_fits :
  Forall (fun file => instruction_count bad_second file <= INT_MAX) testfiles.
Proof.
  apply List.Forall_forall. intros file _. unfold instruction_count, bad_second.
  destruct (String.eqb file _); vm_compute; discriminate.
Qed.

Lemma main_stops_before_concurrent_runs_witness :
  exists (w : World ChainTable.t ChainTable.t),
    main bad_second round_robin 20 = Stop OutOfRange w /\
    exists done file rest, testfiles = done ++ file :: rest /\
      ((OutOfRange = OutOfRange \/ OutOfRange = OutOfFuel) /\
       driver_events (log w)
       = concat (map (fun f => file_block f (instruction_count bad_second f)) done)
           ++ [EvPrint (OutTestingFile file)] \/
       (OutOfRange = AssertionFailed \/ OutOfRange = Undefined) /\
       driver_events (log w)
       = concat (map (fun f => file_block f (instruction_count bad_second f)) done)
           ++ [EvPrint (OutTestingFile file);
               EvNewSeq (instruction_count bad_second file / 1000)]).
Proof.
  assert (Hs : match @main ChainTable.t ChainTable.t _ _ bad_second round_robin 20 with
               | Stop OutOfRange _ => True
               | _ => False
               end) by (vm_compute; exact I).
  destruct (main bad_second round_robin 20) as [[] w|e w] eqn:E; [contradiction |].
  destruct e; try contradiction.
  exists w. split; [reflexivity |].
  exact (main_stops_before_concurrent_runs bad_second round_robin 20 OutOfRange w
           ltac:(lia) bad_second_fits E).
Defined.


(** ** One worker against the baseline, and workers with nothing to do *)

Section SingleWorker.

Context {SeqHashTable FgHashTable : Type}.
Context `{!HashTable SeqHashTable} `{!HashTable FgHashTable}.
Implicit Types w ws wf : World SeqHashTable FgHashTable.

Variable R : SeqHashTable -> FgHashTable -> Prop.
Hypothesis Hagree : tables_agree R.

(** An instruction the baseline table passes, on a fine-grained table
    that agrees with it: the worker makes the same call, prints nothing,
    and the tables still agree. *)
Lemma body_agree id i instr ws wf ws1 s f :
  baseline ws = Some s -> htable wf = Some f -> R s f ->
  seqRun_body i instr ws = Ok tt ws1 ->
  exists c s1 f1,
    log ws1 = log ws ++ [EvSeq i c] /\
    baseline ws1 = Some s1 /\ R s1 f1 /\
    fgRun_body id i instr wf
    = Ok tt (mk_World (input wf) (numThreads wf) (baseline wf) (Some f1)
                      (log wf ++ [EvFg id i c])).
Proof.
  destruct Hagree as (Hins & Hfind & Hrem).
  intros Hb Hh HR. destruct instr as [op [key value]].
  unfold seqRun_body, fgRun_body, mbind, M_bind, get, deref. rewrite Hb, Hh.
  cbn [mret M_ret]. destruct op; cbn.
  - intros [= <-]. exists (CallInsert key value), (ht_insert key value s), (ht_insert key value f).
    cbn. repeat split; auto.
  - specialize (Hrem key s f HR) as [Hres HR'].
    destruct (ht_remove key s) as [rs s'], (ht_remove key f) as [rf f']. cbn in *.
    destruct rs as [ns|]; cbn; [|discriminate].
    destruct rf as [nf|]; cbn in Hres; [|discriminate].
    injection Hres as Hres. rewrite <- Hres.
    destruct (get_data ns =? value); cbn; [|discriminate].
    intros [= <-]. exists (CallRemove key), s', f'. cbn. repeat split; auto.
  - specialize (Hfind key s f HR).
    destruct (ht_find key s) as [ns|]; cbn; [|discriminate].
    destruct (ht_find key f) as [nf|]; cbn in Hfind; [|discriminate].
    injection Hfind as Hfind. rewrite <- Hfind.
    destruct (get_data ns =? value); cbn; [|discriminate].
    intros [= <-]. exists (CallFind key), s, f. cbn. rewrite Hb.
    repeat split; auto. unfold with_events. now rewrite Hh.
Qed.

Lemma loop_agree n : forall i ws wf ws' s f,
  baseline ws = Some s -> htable wf = Some f -> R s f ->
  input wf = input ws ->
  0 <= i -> i + Z.of_nat n = input_size ws -> input_size ws <= INT_MAX ->
  seqRun_loop n i ws = Ok tt ws' ->
  exists evs s' f',
    log ws' = log ws ++ evs /\
    (forall e, In e evs -> exists j c, e = EvSeq j c) /\
    length evs = n /\
    baseline ws' = Some s' /\ R s' f' /\
    fgRun_loop n 0 (mk_Thread i (input_size ws)) wf
    = Ok (mk_Thread (input_size ws) (input_size ws))
         (mk_World (input wf) (numThreads wf) (baseline wf) (Some f')
                   (log wf ++ map (as_worker 0) evs)).
Proof.
  induction n as [|n IH]; intros i ws wf ws' s f Hb Hh HR Hinp Hi Hsum Hmax Hrun.
  - cbn in Hrun. injection Hrun as <-. exists [], s, f.
    rewrite !app_nil_r. repeat split; auto; [intros e [] |].
    cbn. replace i with (input_size ws) by lia.
    destruct wf; cbn in *. now rewrite Hh.
  - destruct (lookup_lt_is_Some_2 (input ws) (Z.to_nat i)
                ltac:(unfold input_size in *; lia)) as [instr Hin].
    rewrite (seqRun_loop_pass n i _ ws ltac:(lia) ltac:(lia) Hmax Hin) in Hrun.
    destruct (seqRun_body i instr ws) as [[] ws1|e ws1] eqn:Hbody; [|discriminate].
    destruct (body_agree 0 i instr ws wf ws1 s f Hb Hh HR Hbody)
      as (c & s1 & f1 & Hlog1 & Hb1 & HR1 & Hfg).
    destruct (seqRun_body_ok i instr ws ws1 Hbody) as (Hinp1 & _ & _ & _).
    assert (Hsize : input_size ws1 = input_size ws) by (unfold input_size; now rewrite Hinp1).
    set (wf1 := mk_World (input wf) (numThreads wf) (baseline wf) (Some f1)
                         (log wf ++ [EvFg 0 i c])) in *.
    destruct (IH (i + 1) ws1 wf1 ws' s1 f1 Hb1 eq_refl HR1
                ltac:(cbn; congruence) ltac:(lia) ltac:(lia) ltac:(lia) Hrun)
      as (evs & s' & f' & Hlog & Hevs & Hlen & Hb' & HR' & Hloop).
    exists (EvSeq i c :: evs), s', f'.
    split; [rewrite Hlog, Hlog1, <- app_assoc; reflexivity |].
    split; [intros e [<- | He]; eauto |].
    split; [cbn; now rewrite Hlen |].
    split; [exact Hb' |]. split; [exact HR' |].
    cbn [fgRun_loop]. unfold mbind at 1, M_bind at 1.
    unfold fgRun_iter. cbn [th_i th_end].
    destruct (i <? input_size ws) eqn:E; [|apply Z.ltb_ge in E; lia].
    unfold mbind at 1, M_bind at 1, get.
    rewrite to_size_t_small by lia. rewrite Hinp.
    unfold mbind at 1, M_bind at 1, deref. rewrite Hin. cbn [mret M_ret].
    unfold mbind at 1, M_bind at 1. rewrite Hfg. fold wf1.
    rewrite (to_int_small (i + 1)) by lia.
    rewrite Hsize in Hloop. cbn [mret M_ret]. rewrite Hloop. cbn.
    now rewrite Hinp, <- app_assoc.
Qed.

End SingleWorker.

(** X6.  One worker against the baseline.  When the fine-grained table
    gives the same answers as the baseline table, and the sequential run
    has gone through the whole input, a concurrent run with a single
    worker on the same input makes the same table calls in the same order,
    all [input.size()] of them, and prints no warning; the two tables
    agree at the end. *)
Theorem single_worker_agrees {SeqHashTable FgHashTable : Type}
    `{!HashTable SeqHashTable} `{!HashTable FgHashTable}
    (R : SeqHashTable -> FgHashTable -> Prop)
    (ws wf ws' : World SeqHashTable FgHashTable) (s : SeqHashTable) (f : FgHashTable) :
  tables_agree R ->
  baseline ws = Some s -> htable wf = Some f -> R s f ->
  input wf = input ws -> numThreads wf = 1 ->
  input_size ws <= INT_MAX ->
  seqRun ws = Ok tt ws' ->
  exists evs wf' s' f',
    log ws' = log ws ++ evs ++ [EvPrint OutSeqComplete] /\
    fgRun 0 wf = Ok tt wf' /\
    log wf' = log wf ++ map (as_worker 0) evs /\
    (forall o, ~ In (EvPrint o) (map (as_worker 0) evs)) /\
    calls_of (map (as_worker 0) evs) = calls_of evs /\
    Z.of_nat (length (calls_of evs)) = input_size ws /\
    baseline ws' = Some s' /\ htable wf' = Some f' /\ R s' f'.
Proof.
  intros Hagree Hb Hh HR Hinp HnT Hmax Hrun.
  unfold seqRun in Hrun. unfold mbind at 1, M_bind at 1, get in Hrun.
  apply bind_ok in Hrun as ([] & ws1 & Hloop & Hprint).
  unfold printf, emit in Hprint. injection Hprint as <-.
  assert (H0 : 0 <= 0) by lia.
  assert (Hsum : 0 + Z.of_nat (length (input ws)) = input_size ws) by reflexivity.
  destruct (loop_agree R Hagree (length (input ws)) 0 ws wf ws1 s f Hb Hh HR Hinp
              H0 Hsum Hmax Hloop)
    as (evs & s' & f' & Hlog & Hevs & Hnum & Hb' & HR' & Hfg).
  assert (Hsize : input_size wf = input_size ws) by (unfold input_size; now rewrite Hinp).
  assert (Henter : fgRun_enter 0 wf = mk_Thread 0 (input_size ws)).
  { unfold fgRun_enter. rewrite HnT, Hsize.
    pose proof (Zle_0_nat (length (input ws))) as Hnn. fold (input_size ws) in Hnn.
    rewrite (to_size_t_small 1) by (unfold INT_MAX; lia).
    rewrite Z.div_1_r, Z.mul_0_r.
    rewrite (to_int_small (input_size ws)) by lia.
    rewrite (to_int_small 0) by (unfold INT_MAX; lia).
    rewrite Z.add_0_l, (to_int_small (input_size ws)) by lia.
    rewrite to_size_t_small by lia.
    now rewrite Z.ltb_irrefl. }
  exists evs,
    (mk_World (input wf) (numThreads wf) (baseline wf) (Some f')
              (log wf ++ map (as_worker 0) evs)), s', f'.
  split; [cbn; rewrite Hlog, <- app_assoc; reflexivity |].
  split.
  { unfold fgRun. unfold mbind at 1, M_bind at 1, get. rewrite Henter.
    unfold remaining. cbn [th_i th_end]. rewrite Z.sub_0_r.
    unfold input_size at 1. rewrite Nat2Z.id.
    unfold mbind, M_bind. now rewrite Hfg. }
  split; [reflexivity |].
  assert (Hlen : forall l : list Event,
             (forall e, In e l -> exists j c, e = EvSeq j c) ->
             (forall o, ~ In (EvPrint o) (map (as_worker 0) l)) /\
             calls_of (map (as_worker 0) l) = calls_of l /\
             length (calls_of l) = length l).
  { induction l as [|e l IHl]; intros Hl; [repeat split; intros o [] |].
    destruct (Hl e (or_introl eq_refl)) as (j & c & ->).
    destruct (IHl (fun e He => Hl e (or_intror He))) as (Hno & Hcalls & Hcount).
    cbn. repeat split.
    - intros o [Ho | Ho]; [discriminate | now apply (Hno o)].
    - now rewrite Hcalls.
    - now rewrite Hcount. }
  destruct (Hlen evs Hevs) as (Hno & Hcalls & Hcount).
  split; [exact Hno |]. split; [exact Hcalls |].
  split; [|cbn; auto].
  rewrite Hcount, Hnum. reflexivity.
Qed.

Lemma single_worker_agrees_witness :
  exists wf', fgRun 0 one_worker = Ok tt wf' /\
              log wf' = [EvFg 0 0 (CallInsert 5 50); EvFg 0 1 (CallFind 5);
                         EvFg 0 2 (CallRemove 5)].
Proof.
  assert (Hok : is_ok (seqRun one_worker) = true) by (vm_compute; reflexivity).
  assert (Hl : log (world_of (seqRun one_worker))
               = [EvSeq 0 (CallInsert 5 50); EvSeq 1 (CallFind 5); EvSeq 2 (CallRemove 5)]
                   ++ [EvPrint OutSeqComplete]) by (vm_compute; reflexivity).
  destruct (seqRun one_worker) as [[] ws'|e ws'] eqn:E; [|discriminate].
  cbn [world_of] in Hl.
  assert (Hagree : tables_agree (@eq ChainTable.t)).
  { repeat split; intros; subst; reflexivity. }
  destruct (single_worker_agrees eq one_worker one_worker ws'
              (ht_new 1 hash) (ht_new 1 hash)
              Hagree eq_refl eq_refl eq_refl eq_refl eq_refl
              ltac:(vm_compute; discriminate) E)
    as (evs & wf' & s' & f' & Hlog & Hfg & Hlogf & _).
  exists wf'. split; [exact Hfg |].
  rewrite Hl in Hlog. cbn [log one_worker app] in Hlog, Hlogf.
  change [EvSeq 0 (CallInsert 5 50); EvSeq 1 (CallFind 5); EvSeq 2 (CallRemove 5);
          EvPrint OutSeqComplete]
    with ([EvSeq 0 (CallInsert 5 50); EvSeq 1 (CallFind 5); EvSeq 2 (CallRemove 5)]
            ++ [EvPrint OutSeqComplete]) in Hlog.
  apply app_inj_tail in Hlog as [<- _]. exact Hlogf.
Defined.

(** X7.  Fewer instructions than workers: [input.size() / numThreads] is
    0, every worker gets the empty slice [0, 0), whatever its id, and
    leaves without a table call: a worker run on its own changes nothing,
    and no worker of the concurrent run can make a pass. *)
Theorem fgRun_idle {SeqHashTable FgHashTable : Type}
    `{!HashTable SeqHashTable} `{!HashTable FgHashTable}
    (id : Z) (w : World SeqHashTable FgHashTable) :
  input_size w < numThreads w -> numThreads w <= INT_MAX ->
  fgRun_enter id w = mk_Thread 0 0 /\
  fgRun id w = Ok tt w /\
  forall T st, ~ fg_step (spawned T w, w) st.
Proof.
  intros Hlt Hmax.
  pose proof (Zle_0_nat (length (input w))) as Hnn. fold (input_size w) in Hnn.
  assert (Henter : forall id, fgRun_enter id w = mk_Thread 0 0).
  { intros id'. unfold fgRun_enter.
    rewrite (to_size_t_small (numThreads w)) by lia.
    rewrite Z.div_small by lia.
    rewrite (to_int_small 0) by (unfold INT_MAX; lia).
    rewrite Z.mul_0_l, Z.add_0_l, (to_int_small 0) by (unfold INT_MAX; lia).
    rewrite (to_size_t_small 0) by (unfold INT_MAX; lia).
    destruct (0 <? input_size w) eqn:E; [reflexivity |].
    apply Z.ltb_ge in E. replace (input_size w) with 0 by lia.
    now rewrite (to_int_small 0) by (unfold INT_MAX; lia). }
  split; [apply Henter |]. split.
  - unfold fgRun. unfold mbind at 1, M_bind at 1, get. rewrite Henter. reflexivity.
  - intros T st Hstep. inversion Hstep as [k th th' ths w1 w' Hth Hpass Hiter]; subst.
    unfold spawned in Hth. rewrite list_lookup_fmap in Hth.
    destruct (seq 0 T !! k) as [k'|]; [|discriminate].
    cbn in Hth. injection Hth as <-. rewrite Henter in Hpass. cbn in Hpass. lia.
Qed.

Lemma fgRun_idle_witness :
  fgRun 2 three_for_four = Ok tt three_for_four.
Proof.
  refine (proj1 (proj2 (fgRun_idle 2 three_for_four _ _))).
  - vm_compute. reflexivity.
  - vm_compute. discriminate.
Defined.

(** ** One concurrent run of the driver *)

Section ConcurrentRun.

Context {SeqHashTable FgHashTable : Type}.
Context `{!HashTable SeqHashTable} `{!HashTable FgHashTable}.
Implicit Types w : World SeqHashTable FgHashTable.

Variable schedule : string -> Z -> list nat.

Lemma executed_by_creates id (ids : list nat) :
  executed_by id (map (fun k => EvCreate (Z.of_nat k)) ids) = [].
Proof. induction ids; [reflexivity | exact IHids]. Qed.

Lemma fg_test_slices file j w :
  1 <= j <= INT_MAX -> input_size w <= INT_MAX ->
  exists w' evs,
    fg_test schedule file j w = Ok tt w' /\
    numThreads w' = j /\ htable w' = None /\
    log w' = log w ++ evs /\
    forall id : nat, (id < Z.to_nat j)%nat ->
      executed_by (Z.of_nat id) evs
      = seqZ (Z.of_nat id * (input_size w / j)) (input_size w / j).
Proof.
  intros Hj Hmax. unfold fg_test.
  unfold mbind at 1, M_bind at 1, get.
  unfold mbind at 1, M_bind at 1, emit.
  unfold mbind at 1, M_bind at 1, set_htable.
  unfold mbind at 1, M_bind at 1, set_numThreads.
  set (w1 := with_numThreads _ _).
  unfold mbind at 1, M_bind at 1. rewrite create_threads_spawned.
  set (w2 := with_events _ w1).
  assert (HnT : numThreads w2 = Z.of_nat (Z.to_nat j)).
  { subst w2 w1. cbn. rewrite to_int_small by lia. lia. }
  assert (HJ : (1 <= Z.to_nat j)%nat) by lia.
  assert (HJmax : Z.of_nat (Z.to_nat j) <= INT_MAX) by lia.
  assert (HN : input_size w2 <= INT_MAX) by exact Hmax.
  destruct (fg_phase_completes (Z.to_nat j) w2 HJ HnT HN HJmax (schedule file j)
              ltac:(eexists; reflexivity))
    as (ths1 & w3 & ths & w4 & Hrun & Hjoin & Hrtc & Hex).
  assert (Hinit : slice_inv (Z.to_nat j) w2 (spawned (Z.to_nat j) w2, w2))
    by (apply slice_inv_init; assumption).
  assert (Hinv : slice_inv (Z.to_nat j) w2 (ths, w4))
    by (eapply slice_inv_rtc; eauto).
  assert (Hsl : exists evs,
             log w4 = log w2 ++ evs /\
             forall id : nat, (id < Z.to_nat j)%nat ->
               executed_by (Z.of_nat id) evs = slice (slice_len w2) (Z.of_nat id)).
  { edestruct (slice_inv_exited (Z.to_nat j) w2) as (evs & Hlog & Hslices & _); eauto. }
  destruct Hsl as (evs & Hlog & Hslices).
  destruct Hinv as (_ & HnT4 & _).
  change (map (fun id => fgRun_enter (Z.of_nat id) w1) (seq 0 (Z.to_nat j)))
    with (spawned (Z.to_nat j) w2).
  unfold mbind at 1, M_bind at 1. rewrite Hrun.
  unfold mbind at 1, M_bind at 1. rewrite Hjoin.
  eexists. eexists. split; [reflexivity |].
  cbn in HnT4 |- *. split; [rewrite HnT4; apply to_int_small; lia |].
  split; [reflexivity |].
  split; [rewrite Hlog; cbn; rewrite <- !app_assoc; reflexivity |].
  intros id Hid. cbn [app executed_by].
  rewrite !executed_by_app, executed_by_creates, (Hslices id Hid). cbn.
  rewrite app_nil_r. unfold slice, slice_len. cbn.
  rewrite to_int_small by lia. reflexivity.
Qed.

End ConcurrentRun.

(** X8.  One concurrent run of [main] (lines 160-174) with [j] workers
    always completes, however the workers interleave and whatever the
    table returns.  It leaves [input] and the baseline table as they were
    and [numThreads] at [j]; between the construction and the deletion of
    its table it creates workers 0, ..., j-1 and prints the two report
    lines; worker [id] executes the [input.size() / j] instructions from
    [id * (input.size() / j)] on, in order, and no instruction is executed
    on the baseline table. *)
Theorem concurrent_run_completes {SeqHashTable FgHashTable : Type}
    `{!HashTable SeqHashTable} `{!HashTable FgHashTable}
    (schedule : string -> Z -> list nat) (file : string) (j : Z)
    (w : World SeqHashTable FgHashTable) :
  1 <= j <= INT_MAX -> input_size w <= INT_MAX ->
  exists w' evs,
    fg_test schedule file j w = Ok tt w' /\
    input w' = input w /\ baseline w' = baseline w /\
    numThreads w' = j /\ htable w' = None /\
    log w' = log w ++ evs /\
    driver_events evs = fg_block (input_size w / 1000) j /\
    executed_seq evs = [] /\
    forall id : nat, (id < Z.to_nat j)%nat ->
      executed_by (Z.of_nat id) evs
      = seqZ (Z.of_nat id * (input_size w / j)) (input_size w / j).
Proof.
  intros Hj Hmax.
  destruct (fg_test_slices schedule file j w Hj Hmax)
    as (w' & evs & Hrun & HnT & Hht & Hlog & Hslices).
  destruct (fg_test_ok schedule file j w w' ltac:(lia) Hrun)
    as (Hinp & Hb & evs' & Hlog' & Hd & Hs).
  rewrite Hlog in Hlog'. apply app_inv_head in Hlog'. subst evs'.
  exists w', evs. repeat split; assumption.
Qed.

Lemma concurrent_run_completes_witness :
  exists w' evs,
    fg_test round_robin "tests/uniform_all_test.txt" 3 three_workers = Ok tt w' /\
    log w' = evs /\
    executed_by 0 evs = [0; 1; 2] /\
    executed_by 1 evs = [3; 4; 5] /\
    executed_by 2 evs = [6; 7; 8].
Proof.
  destruct (concurrent_run_completes round_robin "tests/uniform_all_test.txt" 3
              three_workers ltac:(vm_compute; split; discriminate)
              ltac:(vm_compute; discriminate))
    as (w' & evs & Hrun & _ & _ & _ & _ & Hlog & _ & _ & Hslices).
  exists w', evs. split; [exact Hrun |]. split; [exact Hlog |].
  split; [exact (Hslices 0%nat ltac:(vm_compute; lia)) |].
  split; [exact (Hslices 1%nat ltac:(vm_compute; lia)) |].
  exact (Hslices 2%nat ltac:(vm_compute; lia)).
Defined.


(** ** Printed traces are read back *)

Module PrintingFacts.

Import StdString.

Lemma after_app_none c s1 s2 :
  after c s1 = None -> after c (String.append s1 s2) = after c s2.
Proof.
  induction s1 as [|d s1 IH]; cbn; [reflexivity |].
  destruct (Ascii.eqb d c); [discriminate | exact IH].
Qed.

Lemma before_app_none c s1 s2 :
  after c s1 = None -> before c (String.append s1 (String c s2)) = s1.
Proof.
  induction s1 as [|d s1 IH]; cbn.
  - now rewrite Ascii.eqb_refl.
  - destruct (Ascii.eqb d c); [discriminate |]. intros H. now rewrite IH.
Qed.

Lemma before_none c s : after c s = None -> before c s = s.
Proof.
  induction s as [|d s IH]; cbn; [reflexivity |].
  destruct (Ascii.eqb d c); [discriminate |]. intros H. now rewrite IH.
Qed.

Lemma append_nil_r s : String.append s EmptyString = s.
Proof. induction s as [|c s IH]; cbn; [reflexivity | now rewrite IH]. Qed.

Lemma append_length s1 s2 :
  String.length (String.append s1 s2) = (String.length s1 + String.length s2)%nat.
Proof. induction s1 as [|c s1 IH]; cbn; [reflexivity | now rewrite IH]. Qed.

(** The digits of a decimal number hold no other character. *)
Lemma after_uint c d :
  isdigit c = false -> after c (DecimalString.NilEmpty.string_of_uint d) = None.
Proof.
  intros Hc. induction d; cbn [DecimalString.NilEmpty.string_of_uint after];
    try reflexivity;
    (match goal with
     | |- (if Ascii.eqb ?a c then _ else _) = _ =>
         destruct (Ascii.eqb_spec a c) as [<- |]; [discriminate Hc | assumption]
     end).
Qed.

Lemma string_of_uint_nonnil d :
  d <> Decimal.Nil ->
  DecimalString.NilZero.string_of_uint d = DecimalString.NilEmpty.string_of_uint d.
Proof. destruct d; [congruence | reflexivity..]. Qed.

Lemma after_show_int c z :
  isdigit c = false -> c <> "-"%char -> after c (show_int z) = None.
Proof.
  intros Hc Hm. unfold show_int.
  destruct z as [|p|p]; cbn [Z.to_int DecimalString.NilZero.string_of_int].
  - change (after c (String "0" EmptyString) = None). cbn [after].
    destruct (Ascii.eqb_spec "0" c) as [<- |]; [discriminate Hc | reflexivity].
  - rewrite string_of_uint_nonnil by apply DecimalPos.Unsigned.to_uint_nonnil.
    now apply after_uint.
  - rewrite string_of_uint_nonnil by apply DecimalPos.Unsigned.to_uint_nonnil.
    cbn [after]. destruct (Ascii.eqb_spec "-" c) as [<- |]; [congruence |].
    now apply after_uint.
Qed.

(** What [atoi] accumulates over the digits of a decimal number. *)
Lemma digits_uint_acc d : forall acc tail,
  (forall v, digits tail v = v) ->
  digits (String.append (DecimalString.NilEmpty.string_of_uint d) tail) (Z.pos acc)
  = Z.pos (Pos.of_uint_acc d acc).
Proof.
  induction d; intros acc tail Htail;
    cbn [DecimalString.NilEmpty.string_of_uint String.append Pos.of_uint_acc];
    [apply Htail | ..];
    (cbn [digits]; change (isdigit _) with true; cbv iota;
     match goal with
     | |- digits _ ?v = Z.pos (Pos.of_uint_acc _ ?a) =>
         replace v with (Z.pos a)
           by (match goal with
               | |- context [digit_value ?c] =>
                   let k := eval vm_compute in (digit_value c) in
                   change (digit_value c) with k
               end; lia)
     end;
     now apply IHd).
Qed.

Lemma digits_uint d : forall tail,
  (forall v, digits tail v = v) ->
  digits (String.append (DecimalString.NilEmpty.string_of_uint d) tail) 0
  = Z.of_N (Pos.of_uint d).
Proof.
  induction d; intros tail Htail;
    cbn [DecimalString.NilEmpty.string_of_uint String.append Pos.of_uint];
    [apply Htail | now apply IHd | ..];
    (cbn [digits]; change (isdigit _) with true; cbv iota;
     match goal with
     | |- digits _ ?v = Z.of_N (N.pos (Pos.of_uint_acc _ ?a)) =>
         change v with (Z.pos a)
     end;
     now apply digits_uint_acc).
Qed.

Lemma digits_pos p tail :
  (forall v, digits tail v = v) ->
  digits (String.append (DecimalString.NilEmpty.string_of_uint (Pos.to_uint p)) tail) 0
  = Z.pos p.
Proof.
  intros Htail. rewrite digits_uint by exact Htail.
  now rewrite DecimalPos.Unsigned.of_to.
Qed.

(** A string that starts with a digit: [atoi] skips nothing and reads no
    sign. *)
Lemma atoi_digit_first c s :
  isdigit c = true ->
  atoi (String c s) = to_int (Z.max LONG_MIN (Z.min LONG_MAX (digits (String c s) 0))).
Proof.
  intros Hc. unfold atoi.
  assert (Hsp : isspace c = false).
  { unfold isdigit, isspace in *. destruct (nat_of_ascii c =? 32)%nat eqn:E32.
    - apply Nat.eqb_eq in E32. rewrite E32 in Hc. discriminate.
    - cbn [orb]. apply andb_false_iff. apply andb_true_iff in Hc as [Hlo _].
      apply Nat.leb_le in Hlo. right. apply Nat.leb_gt. lia. }
  cbn [skip_spaces]. rewrite Hsp.
  destruct (Ascii.eqb_spec c "-") as [-> |]; [discriminate Hc |].
  destruct (Ascii.eqb_spec c "+") as [-> |]; [discriminate Hc |].
  destruct c as [[] [] [] [] [] [] [] []]; try reflexivity; congruence.
Qed.

Lemma uint_digit_first d :
  d <> Decimal.Nil ->
  exists c s, DecimalString.NilEmpty.string_of_uint d = String c s /\ isdigit c = true.
Proof. destruct d; [congruence | eexists; eexists; split; reflexivity..]. Qed.

Lemma clamp_int z : in_int z -> to_int (Z.max LONG_MIN (Z.min LONG_MAX z)) = z.
Proof.
  intros Hz. pose proof Hz as Hz'. unfold in_int, INT_MIN, INT_MAX in Hz'.
  unfold LONG_MIN, LONG_MAX.
  rewrite Z.min_r, Z.max_r by lia. now apply to_int_id.
Qed.

(** [atoi] reads a printed [int] back, whatever follows it that does not
    start with a digit. *)
Lemma atoi_show_int z tail :
  in_int z -> (forall v, digits tail v = v) ->
  atoi (String.append (show_int z) tail) = z.
Proof.
  intros Hz Htail. unfold show_int.
  destruct z as [|p|p]; cbn [Z.to_int DecimalString.NilZero.string_of_int].
  - change (atoi (String "0" tail) = 0).
    rewrite atoi_digit_first by reflexivity.
    cbn [digits]. change (isdigit "0") with true. cbv iota.
    change (0 * 10 + digit_value "0") with 0. rewrite Htail. reflexivity.
  - rewrite string_of_uint_nonnil by apply DecimalPos.Unsigned.to_uint_nonnil.
    destruct (uint_digit_first (Pos.to_uint p) (DecimalPos.Unsigned.to_uint_nonnil p))
      as (c & s & Hcs & Hc).
    pose proof (digits_pos p tail Htail) as Hd.
    rewrite Hcs in Hd |- *. cbn [String.append] in Hd |- *.
    rewrite atoi_digit_first by exact Hc. rewrite Hd. now apply clamp_int.
  - rewrite string_of_uint_nonnil by apply DecimalPos.Unsigned.to_uint_nonnil.
    cbn [String.append]. unfold atoi. cbn [skip_spaces].
    change (isspace "-") with false. cbv iota.
    rewrite digits_pos by exact Htail.
    change (- Z.pos p) with (Z.neg p). now apply clamp_int.
Qed.

(** Length of a printed [int]. *)
Lemma string_of_uint_length d :
  String.length (DecimalString.NilEmpty.string_of_uint d) = Decimal.nb_digits d.
Proof. induction d; cbn; congruence. Qed.

Lemma double_digits d :
  (Decimal.nb_digits (Decimal.Little.double d) <= S (Decimal.nb_digits d))%nat /\
  (Decimal.nb_digits (Decimal.Little.succ_double d) <= S (Decimal.nb_digits d))%nat.
Proof. induction d; cbn; lia. Qed.

Lemma to_little_uint_digits p :
  (Decimal.nb_digits (Pos.to_little_uint p) <= Pos.size_nat p)%nat.
Proof.
  induction p as [p IH|p IH|]; cbn [Pos.to_little_uint Pos.size_nat].
  - pose proof (double_digits (Pos.to_little_uint p)). lia.
  - pose proof (double_digits (Pos.to_little_uint p)). lia.
  - cbn. lia.
Qed.

Lemma size_nat_bound p : forall n : nat,
  Z.pos p < 2 ^ Z.of_nat n -> (Pos.size_nat p <= n)%nat.
Proof.
  induction p as [p IH|p IH|]; intros n Hp; cbn [Pos.size_nat].
  - destruct n as [|n]; [cbn in Hp; lia |].
    rewrite Nat2Z.inj_succ, Z.pow_succ_r in Hp by lia.
    specialize (IH n ltac:(lia)). lia.
  - destruct n as [|n]; [cbn in Hp; lia |].
    rewrite Nat2Z.inj_succ, Z.pow_succ_r in Hp by lia.
    specialize (IH n ltac:(lia)). lia.
  - destruct n as [|n]; [cbn in Hp; lia | lia].
Qed.

Lemma show_int_length z : in_int z -> (1 <= String.length (show_int z) <= 33)%nat.
Proof.
  intros Hz. unfold in_int, INT_MIN, INT_MAX in Hz. unfold show_int.
  assert (Hp : forall p, Z.pos p < 2 ^ Z.of_nat 32 ->
             (1 <= String.length (DecimalString.NilZero.string_of_uint (Pos.to_uint p))
              <= 32)%nat).
  { intros p Hlt.
    rewrite string_of_uint_nonnil by apply DecimalPos.Unsigned.to_uint_nonnil.
    rewrite string_of_uint_length. unfold Pos.to_uint.
    rewrite DecimalFacts.nb_digits_rev.
    pose proof (to_little_uint_digits p). pose proof (size_nat_bound p 32 Hlt).
    split; [|lia].
    pose proof (DecimalPos.Unsigned.to_uint_nonnil p) as Hnn. unfold Pos.to_uint in Hnn.
    destruct (Decimal.nb_digits (Pos.to_little_uint p)) eqn:E; [|lia].
    apply DecimalFacts.nb_digits_0 in E. rewrite E in Hnn. now contradiction Hnn. }
  destruct z as [|p|p]; cbn [Z.to_int DecimalString.NilZero.string_of_int].
  - cbn. lia.
  - specialize (Hp p). change (2 ^ Z.of_nat 32) with 4294967296 in Hp. lia.
  - cbn [String.length]. specialize (Hp p). change (2 ^ Z.of_nat 32) with 4294967296 in Hp.
    lia.
Qed.

Lemma digits_nil v : digits EmptyString v = v.
Proof. reflexivity. Qed.

Lemma digits_space s v : digits (String " " s) v = v.
Proof. reflexivity. Qed.

(** A printed line, taken apart. *)
Lemma show_line_fields sep op key value :
  let str := show_line_with sep (op, (key, value)) in
  op_field str = op /\
  key_field str = show_int key /\
  value_field str = show_int value.
Proof.
  cbv zeta. unfold show_line_with, op_field, key_field, value_field.
  cbn [fst snd after_op StdString.front].
  assert (Hk : after " " (show_int key) = None) by (now apply after_show_int).
  split; [destruct op; reflexivity |].
  split; [now apply before_app_none |].
  rewrite after_app_none by exact Hk. cbn [after]. now rewrite Ascii.eqb_refl.
Qed.

Lemma show_line_length sep t :
  fits_int t -> 2 <= StdString.size (show_line_with sep t) <= INT_MAX.
Proof.
  intros [Hk Hv]. unfold show_line_with, StdString.size.
  cbn [String.length]. rewrite append_length. cbn [String.length].
  pose proof (show_int_length _ Hk). pose proof (show_int_length _ Hv).
  unfold INT_MAX. lia.
Qed.

Lemma parse_show_line sep op key value :
  in_int key -> in_int value ->
  parse_line (show_line_with sep (op, (key, value))) = Some (op, (key, value)).
Proof.
  intros Hk Hv.
  rewrite parse_line_spec by (apply show_line_length; split; assumption).
  destruct (show_line_fields sep op key value) as (Hop & Hkey & Hval).
  fold (op_field (show_line_with sep (op, (key, value)))).
  rewrite Hop, Hkey, Hval.
  rewrite <- (append_nil_r (show_int key)), <- (append_nil_r (show_int value)).
  now rewrite !atoi_show_int by (assumption || apply digits_nil).
Qed.

(** The lines of a printed trace. *)
Lemma file_lines_app l rest :
  after "010" l = None ->
  file_lines (String.append l (String "010" rest)) = l :: file_lines rest.
Proof.
  induction l as [|c l IH]; cbn [String.append file_lines after].
  - reflexivity.
  - destruct (Ascii.eqb c "010"); [discriminate |]. intros H. now rewrite IH.
Qed.

Lemma show_line_one_line t : after "010" (show_line t) = None.
Proof.
  destruct t as [op [key value]]. unfold show_line, show_line_with. cbn [fst snd after].
  assert (Hop : Ascii.eqb (op_letter op) "010" = false) by (destruct op; reflexivity).
  rewrite Hop. change (Ascii.eqb " " "010") with false. cbv iota.
  rewrite after_app_none by (now apply after_show_int).
  cbn [after]. change (Ascii.eqb " " "010") with false. cbv iota.
  now apply after_show_int.
Qed.

Lemma nonblank_lines_show_trace tasks :
  nonblank_lines (show_trace tasks) = map show_line tasks.
Proof.
  unfold nonblank_lines. induction tasks as [|t tasks IH]; [reflexivity |].
  cbn [show_trace map]. rewrite file_lines_app by apply show_line_one_line.
  cbn [List.filter]. rewrite IH.
  destruct t as [op [key value]]. reflexivity.
Qed.

Lemma instructions_of_show tasks :
  Forall fits_int tasks -> instructions_of (map show_line tasks) = Some tasks.
Proof.
  induction 1 as [|[op [key value]] tasks [Hk Hv] _ IH]; [reflexivity |].
  cbn [map instructions_of].
  change (show_line (op, (key, value))) with (show_line_with " " (op, (key, value))).
  rewrite parse_show_line by assumption. cbn. now rewrite IH.
Qed.

End PrintingFacts.

(** X9.  A line made of an operation letter, any one character, the key
    in decimal, a space and the value in decimal is parsed back into that
    very instruction, for every key and value an [int] can hold, negative
    ones included.  The character at offset 1 is never looked at. *)
Theorem parse_line_reads_printed_line (sep : ascii) (op : Instr.t) (key value : Z) :
  in_int key -> in_int value ->
  parse_line (show_line_with sep (op, (key, value))) = Some (op, (key, value)).
Proof. apply PrintingFacts.parse_show_line. Qed.

Lemma parse_line_reads_printed_line_witness :
  parse_line "D,12 -7" = Some (Instr.del, (12, -7)).
Proof.
  apply (parse_line_reads_printed_line "," Instr.del 12 (-7));
    unfold in_int, INT_MIN, INT_MAX; lia.
Defined.

(** X10.  A line with no space after offset 2 has a single field:
    [find_first_of] returns [npos], which becomes -1 in [spcIdx];
    [substr(0, spcIdx)] and [substr(spcIdx + 1)] are then both the whole
    rest of the line, and the key and the value are the same number. *)
Theorem parse_line_single_field (str : string) :
  2 <= StdString.size str <= INT_MAX ->
  after " " (after_op str) = None ->
  StdString.find_first_of (after_op str) " " = StdString.npos /\
  parse_line str
  = Some (op_field str,
          (StdString.atoi (after_op str), StdString.atoi (after_op str))).
Proof.
  intros Hsize Hnone. split.
  - pose proof (find_from_spec " " (after_op str) 0) as Hspec.
    rewrite Hnone in Hspec. exact (proj1 Hspec).
  - rewrite parse_line_spec by exact Hsize.
    unfold op_field, key_field, value_field. rewrite Hnone.
    now rewrite PrintingFacts.before_none.
Qed.

Lemma parse_line_single_field_witness :
  parse_line "I 77" = Some (Instr.insert, (77, 77)).
Proof.
  refine (proj2 (parse_line_single_field "I 77" _ _)).
  - vm_compute. split; discriminate.
  - reflexivity.
Defined.

(** X11.  A trace written one instruction per line, in decimal, is read
    back by [parseText] as it was written: [input] ends up holding exactly
    those instructions, in order, whatever it held before, given one pass
    of the loop per character and two more. *)
Theorem parseText_reads_printed_trace {SeqHashTable FgHashTable : Type}
    `{!HashTable SeqHashTable} `{!HashTable FgHashTable}
    (fs : FileSystem) (fuel : nat) (file : string) (tasks : list Task)
    (w : World SeqHashTable FgHashTable) :
  Forall fits_int tasks ->
  fs file = Some (show_trace tasks) ->
  (String.length (show_trace tasks) + 2 <= fuel)%nat ->
  parseText fs fuel file w = Ok tt (with_input tasks w) /\
  instruction_count fs file = Z.of_nat (length tasks).
Proof.
  intros Hfit Hfs Hfuel. split.
  - unfold parseText, ifstream_open. rewrite Hfs.
    change ((set_input [];; ?k) w) with (k (with_input [] w)).
    rewrite (parseText_loop_total fuel (show_trace tasks) (with_input [] w) tasks Hfuel);
      [reflexivity |].
    rewrite PrintingFacts.nonblank_lines_show_trace.
    now apply PrintingFacts.instructions_of_show.
  - unfold instruction_count. rewrite Hfs, PrintingFacts.nonblank_lines_show_trace.
    now rewrite length_map.
Qed.

Lemma parseText_reads_printed_trace_witness :
  parseText printed_files 200 "tests/10p_del_all.txt" stale_delete
  = Ok tt (with_input ten_instructions stale_delete).
Proof.
  refine (proj1 (parseText_reads_printed_trace printed_files 200 "tests/10p_del_all.txt"
                   ten_instructions stale_delete _ _ _)).
  - unfold ten_instructions.
    repeat (apply Forall_cons; split;
            [split; unfold in_int, INT_MIN, INT_MAX; cbn; lia |]).
    apply Forall_nil. exact I.
  - reflexivity.
  - apply Nat.leb_le. vm_compute. reflexivity.
Defined.


(** ** The hash function on short tags, and its collisions *)

Module HashExact.

Import HashRange.

(** Reading the digits back from the exact value the loop has reached
    from [H]: the [k] passes of the loop on [t] are undone by [k] passes
    of [unhash_loop]. *)
Lemma unhash_loop_hash f : forall t H acc (n : nat),
  7 <= H -> 0 <= acc -> 1 <= t < 10 ^ Z.of_nat f -> (f <= n)%nat ->
  exists (X : Z) (k : nat),
    (1 <= k <= f)%nat /\
    hash_while t (to_int H) = to_int X /\
    H * 31 ^ Z.of_nat k <= X <= H * 31 ^ Z.of_nat k + spread k /\
    unhash_loop n X acc = unhash_loop (n - k) H (acc * 10 ^ Z.of_nat k + t).
Proof.
  induction f as [|f IH]; intros t H acc n HH Hacc Ht Hn.
  - simpl in Ht. lia.
  - rewrite hash_while_step by lia.
    rewrite pow10_succ in Ht.
    assert (Hd : 0 <= t mod 10 < 10) by (apply Z.mod_pos_bound; lia).
    assert (Hstep : forall m a,
               unhash_loop (S m) (H * 31 + t mod 10) a
               = unhash_loop m H (a * 10 + t mod 10)).
    { intros m a. cbn [unhash_loop].
      destruct (H * 31 + t mod 10 =? 7) eqn:E; [apply Z.eqb_eq in E; lia |].
      f_equal; [|f_equal]; Z.to_euclidean_division_equations; lia. }
    destruct (Z.eq_dec (t / 10) 0) as [Hq | Hq].
    + rewrite Hq, hash_while_zero.
      exists (H * 31 + t mod 10), 1%nat.
      split; [lia |]. split; [reflexivity |]. split; [simpl; lia |].
      destruct n as [|n]; [lia |]. rewrite Hstep.
      replace (S n - 1)%nat with n by lia. f_equal.
      change (10 ^ Z.of_nat 1) with 10. Z.to_euclidean_division_equations. lia.
    + assert (Hq' : 1 <= t / 10 < 10 ^ Z.of_nat f).
      { split; [Z.to_euclidean_division_equations; lia |].
        apply Z.div_lt_upper_bound; lia. }
      destruct (IH (t / 10) (H * 31 + t mod 10) acc n ltac:(lia) Hacc Hq' ltac:(lia))
        as (X & k & Hk & Heq & HX & Hun).
      exists X, (S k). split; [lia |]. split; [exact Heq |]. split.
      * rewrite pow31_succ. cbn [spread]. pose proof (pow31_pos k). nia.
      * rewrite Hun. replace (n - k)%nat with (S (n - S k)) by lia.
        rewrite Hstep. f_equal. rewrite pow10_succ.
        Z.to_euclidean_division_equations. lia.
Qed.

Lemma unhash_hash t : 0 <= t < 100000 -> unhash (hash t) = t.
Proof.
  intros Ht. destruct (Z.eq_dec t 0) as [-> | Hz]; [reflexivity |].
  destruct (unhash_loop_hash 5 t 7 0 10 ltac:(lia) ltac:(lia)
              ltac:(change (10 ^ Z.of_nat 5) with 100000; lia) ltac:(lia))
    as (X & k & Hk & Heq & HX & Hun).
  assert (HXb : 7 <= X <= INT_MAX).
  { unfold INT_MAX.
    assert (k = 1 \/ k = 2 \/ k = 3 \/ k = 4 \/ k = 5)%nat as Hc by lia.
    destruct Hc as [-> | [-> | [-> | [-> | ->]]]]; cbn in HX; lia. }
  unfold hash. change 7 with (to_int 7) at 1. rewrite Heq.
  rewrite to_int_small by lia. unfold c_abs.
  rewrite Z.abs_eq, to_int_small by lia.
  unfold unhash. rewrite Hun. rewrite Z.mul_0_l, Z.add_0_l.
  destruct (10 - k)%nat; reflexivity.
Qed.

End HashExact.

(** X12.  On a tag of at most five digits, negative or not, no operation
    of [hash] overflows: the result is defined, it is the one the
    arithmetic of the machine gives, and it lies between 7 and [INT_MAX].
    (On a negative tag [temp % 10] is zero or negative and the loop takes
    the digits away instead of adding them.) *)
Theorem hash_defined_below_100000 tag :
  -100000 < tag < 100000 ->
  hash_checked tag = Some (hash tag) /\ 7 <= hash tag <= INT_MAX.
Proof.
  intros Ht.
  destruct (hash_loop_checked_small (hash_fuel tag) 5 tag 7
              ltac:(change (10 ^ Z.of_nat 5) with 100000; lia) ltac:(lia)
              ltac:(vm_compute; discriminate))
    as (v & Hv & Hb).
  assert (Hc : hash_checked tag = Some v).
  { unfold hash_checked. rewrite Hv. unfold abs_checked.
    destruct (v =? INT_MIN) eqn:E; [apply Z.eqb_eq in E; unfold INT_MIN in E; lia |].
    now rewrite Z.abs_eq by lia. }
  rewrite (hash_checked_agrees tag v Hc). split; [exact Hc | exact Hb].
Qed.

Lemma hash_defined_below_100000_witness :
  hash_checked (-99999) = Some (hash (-99999)) /\ 7 <= hash (-99999) <= INT_MAX.
Proof. apply (hash_defined_below_100000 (-99999)). lia. Defined.

(** X13.  Tags of at most five digits have pairwise different hashes: the
    loop does not overflow on them, and the tag can be read back from the
    base-31 digits of its hash.  Beyond that [hash] is not injective:
    70012 and 1170001 have the same hash. *)
Theorem hash_injective_below_100000 a b :
  0 <= a < 100000 -> 0 <= b < 100000 ->
  (hash a = hash b -> a = b) /\
  unhash (hash a) = a /\
  hash 70012 = hash 1170001.
Proof.
  intros Ha Hb.
  pose proof (HashExact.unhash_hash a Ha) as Hinva.
  pose proof (HashExact.unhash_hash b Hb) as Hinvb.
  split; [|split; [exact Hinva | vm_compute; reflexivity]].
  intros Heq. rewrite <- Hinva, <- Hinvb. now rewrite Heq.
Qed.

Lemma hash_injective_below_100000_witness :
  (hash 123 = hash 321 -> 123 = 321) /\ unhash (hash 123) = 123.
Proof.
  destruct (hash_injective_below_100000 123 321 ltac:(lia) ltac:(lia)) as (H1 & H2 & _).
  split; [exact H1 | exact H2].
Defined.


(** ** What the parser makes of other lines *)

Lemma append_assoc_string (a b c : string) :
  String.append (String.append a b) c = String.append a (String.append b c).
Proof. induction a as [|x a IH]; cbn; [reflexivity | now rewrite IH]. Qed.

(** X14.  Whatever follows the value on a line is ignored, as long as it
    does not start with a digit: [atoi] stops there.  A line that ends
    with a carriage return, as in a file with CR-LF line ends, gives the
    same instruction as the line without it. *)
Theorem parse_line_ignores_trailing_text (sep c : ascii) (op : Instr.t)
    (key value : Z) (rest : string) :
  in_int key -> in_int value ->
  StdString.isdigit c = false ->
  StdString.size (String.append (show_line_with sep (op, (key, value))) (String c rest))
    <= INT_MAX ->
  parse_line (String.append (show_line_with sep (op, (key, value))) (String c rest))
  = Some (op, (key, value)).
Proof.
  intros Hk Hv Hc Hsize.
  set (str := String.append (show_line_with sep (op, (key, value))) (String c rest)) in *.
  assert (Hstr : str = String (op_letter op)
                         (String sep
                            (String.append (show_int key)
                               (String " " (String.append (show_int value)
                                              (String c rest)))))).
  { subst str. unfold show_line_with. cbn [fst snd String.append].
    now rewrite append_assoc_string. }
  assert (Hk0 : after " " (show_int key) = None)
    by (now apply PrintingFacts.after_show_int).
  rewrite parse_line_spec.
  - fold (op_field str). unfold op_field, key_field, value_field. rewrite Hstr.
    cbn [after_op StdString.front].
    rewrite PrintingFacts.before_app_none by exact Hk0.
    rewrite PrintingFacts.after_app_none by exact Hk0.
    cbn [after]. rewrite Ascii.eqb_refl.
    rewrite <- (PrintingFacts.append_nil_r (show_int key)).
    rewrite !PrintingFacts.atoi_show_int;
      [destruct op; reflexivity | assumption | | assumption | reflexivity].
    intros v. cbn [StdString.digits]. now rewrite Hc.
  - split; [|exact Hsize]. rewrite Hstr. unfold StdString.size. cbn [String.length]. lia.
Qed.

Lemma parse_line_ignores_trailing_text_witness :
  parse_line (String.append "I 5 50" (String "013" EmptyString))
  = Some (Instr.insert, (5, 50)).
Proof.
  apply (parse_line_ignores_trailing_text " " "013" Instr.insert 5 50 EmptyString).
  - unfold in_int, INT_MIN, INT_MAX. lia.
  - unfold in_int, INT_MIN, INT_MAX. lia.
  - reflexivity.
  - vm_compute. discriminate.
Defined.

(** X15.  A line with a space at offset 2 (two separators after the
    letter, say): the first space of the rest is at position 0, the key
    is read from the empty string and is 0, and the value is read from
    what follows that space, so it is the number written first. *)
Theorem parse_line_space_at_offset_2 (l sep : ascii) (s : string) :
  StdString.size (String l (String sep (String " " s))) <= INT_MAX ->
  parse_line (String l (String sep (String " " s)))
  = Some (op_field (String l EmptyString), (0, StdString.atoi s)).
Proof.
  intros Hsize. rewrite parse_line_spec.
  - unfold key_field, value_field. cbn [after_op before after StdString.front].
    rewrite Ascii.eqb_refl. reflexivity.
  - split; [|exact Hsize]. unfold StdString.size. cbn [String.length]. lia.
Qed.

Lemma parse_line_space_at_offset_2_witness :
  parse_line "I  5 50" = Some (Instr.insert, (0, 5)).
Proof.
  apply (parse_line_space_at_offset_2 "I" " " "5 50").
  vm_compute. discriminate.
Defined.


(** ** No state passes from one trace file to the next *)

Section Isolation.

Context {SeqHashTable FgHashTable : Type}.
Context `{!HashTable SeqHashTable} `{!HashTable FgHashTable}.
Implicit Types w : World SeqHashTable FgHashTable.
Implicit Types g : World SeqHashTable FgHashTable -> World SeqHashTable FgHashTable.

Lemma bind_frame {A B} g (m : M SeqHashTable FgHashTable A)
    (f : A -> M SeqHashTable FgHashTable B) w :
  m (g w) = map_world g (m w) ->
  (forall a w', f a (g w') = map_world g (f a w')) ->
  (m ≫= f) (g w) = map_world g ((m ≫= f) w).
Proof.
  intros Hm Hf. unfold mbind, M_bind. rewrite Hm.
  destruct (m w) as [a w'|e w']; cbn; [apply Hf | reflexivity].
Qed.

Lemma bind_get_frame {B} g g'
    (f : World SeqHashTable FgHashTable -> M SeqHashTable FgHashTable B) w :
  f (g w) (g w) = map_world g' (f w w) ->
  (get ≫= f) (g w) = map_world g' ((get ≫= f) w).
Proof. intros Hf. exact Hf. Qed.

Lemma deref_frame {A} g (p : option A) w :
  deref p (g w) = map_world g (@deref SeqHashTable FgHashTable A p w).
Proof. destruct p; reflexivity. Qed.

Lemma stop_frame {A} g e w :
  stop e (g w) = map_world g (@stop SeqHashTable FgHashTable A e w).
Proof. reflexivity. Qed.

Lemma emit_frame fn fb fh l e w :
  emit e (reframe fn fb fh l w) = map_world (reframe fn fb fh l) (emit e w).
Proof. unfold emit, with_events, reframe. cbn. now rewrite app_assoc. Qed.

Lemma set_input_frame fn fb fh l v w :
  set_input v (reframe fn fb fh l w) = map_world (reframe fn fb fh l) (set_input v w).
Proof. reflexivity. Qed.

Lemma set_baseline_frame fn fh l p w :
  set_baseline p (reframe fn (fun b => b) fh l w)
  = map_world (reframe fn (fun b => b) fh l) (set_baseline p w).
Proof. reflexivity. Qed.

Lemma set_htable_frame l p w :
  set_htable p (relog l w) = map_world (relog l) (set_htable p w).
Proof. reflexivity. Qed.

(** The parser reads and writes [input] only. *)
Lemma parseText_loop_frame fn fb fh l fuel : forall infile w,
  parseText_loop fuel infile (reframe fn fb fh l w)
  = map_world (reframe fn fb fh l) (parseText_loop fuel infile w).
Proof.
  induction fuel as [|fuel IH]; intros infile w; cbn [parseText_loop]; [reflexivity |].
  destruct (eofbit infile); [reflexivity |].
  destruct (getline infile) as [str infile'].
  destruct (0 <? StdString.size str); [|apply IH].
  destruct (parse_line str) as [task|]; [|reflexivity].
  apply bind_get_frame; cbv beta.
  change (input (reframe fn fb fh l w)) with (input w).
  apply (bind_frame (reframe fn fb fh l)); [reflexivity | intros _ w'; apply IH].
Qed.

(** The sequential run does not look at [numThreads] or at the
    fine-grained table. *)
Lemma seqRun_body_frame fn fh l i instr w :
  seqRun_body i instr (reframe fn (fun b => b) fh l w)
  = map_world (reframe fn (fun b => b) fh l) (seqRun_body i instr w).
Proof.
  destruct instr as [op [key value]]. unfold seqRun_body.
  apply bind_get_frame; cbv beta.
  change (baseline (reframe fn (fun b => b) fh l w)) with (baseline w).
  apply bind_frame; [apply deref_frame |]. intros ht w'.
  destruct op.
  - apply bind_frame; [apply emit_frame | intros; apply set_baseline_frame].
  - apply bind_frame; [apply emit_frame |]. intros _ w1.
    destruct (ht_remove key ht) as [res ht'].
    apply bind_frame; [apply set_baseline_frame |]. intros _ w2.
    apply bind_frame; [apply deref_frame |]. intros node w3.
    destruct (get_data node =? value); reflexivity.
  - apply bind_frame; [apply emit_frame |]. intros _ w1.
    apply bind_frame; [apply deref_frame |]. intros node w3.
    destruct (get_data node =? value); reflexivity.
Qed.

Lemma seqRun_loop_frame fn fh l n : forall i w,
  seqRun_loop n i (reframe fn (fun b => b) fh l w)
  = map_world (reframe fn (fun b => b) fh l) (seqRun_loop n i w).
Proof.
  induction n as [|n IH]; intros i w; cbn [seqRun_loop]; [reflexivity |].
  apply bind_get_frame; cbv beta.
  change (input_size (reframe fn (fun b => b) fh l w)) with (input_size w).
  change (input (reframe fn (fun b => b) fh l w)) with (input w).
  destruct (to_size_t i <? input_size w); [|reflexivity].
  apply bind_frame; [apply deref_frame |]. intros instr w1.
  apply bind_frame; [apply seqRun_body_frame | intros _ w2; apply IH].
Qed.

Lemma seqRun_frame fn fh l w :
  seqRun (reframe fn (fun b => b) fh l w)
  = map_world (reframe fn (fun b => b) fh l) (seqRun w).
Proof.
  unfold seqRun. apply bind_get_frame; cbv beta.
  change (input (reframe fn (fun b => b) fh l w)) with (input w).
  apply bind_frame; [apply seqRun_loop_frame | intros; apply emit_frame].
Qed.

(** Nothing reads the log. *)
Lemma fgRun_body_frame l id i instr w :
  fgRun_body id i instr (relog l w) = map_world (relog l) (fgRun_body id i instr w).
Proof.
  destruct instr as [op [key value]]. unfold fgRun_body.
  apply bind_get_frame; cbv beta.
  change (htable (relog l w)) with (htable w).
  apply bind_frame; [apply deref_frame |]. intros ht w'.
  destruct op.
  - apply bind_frame; [apply emit_frame | intros; apply set_htable_frame].
  - apply bind_frame; [apply emit_frame |]. intros _ w1.
    destruct (ht_remove key ht) as [res ht'].
    apply bind_frame; [apply set_htable_frame |]. intros _ w2.
    destruct res as [node|]; [|reflexivity].
    destruct (get_data node =? value); [reflexivity | apply emit_frame].
  - apply bind_frame; [apply emit_frame |]. intros _ w1.
    destruct (ht_find key ht) as [node|]; [|reflexivity].
    destruct (get_data node =? value); [reflexivity | apply emit_frame].
Qed.

Lemma fgRun_iter_frame l id th w :
  fgRun_iter id th (relog l w) = map_world (relog l) (fgRun_iter id th w).
Proof.
  unfold fgRun_iter. destruct (th_i th <? th_end th); [|reflexivity].
  apply bind_get_frame; cbv beta.
  change (input (relog l w)) with (input w).
  apply bind_frame; [apply deref_frame |]. intros instr w1.
  apply bind_frame; [apply fgRun_body_frame | reflexivity].
Qed.

Lemma fgRun_loop_frame l n id : forall th w,
  fgRun_loop n id th (relog l w) = map_world (relog l) (fgRun_loop n id th w).
Proof.
  induction n as [|n IH]; intros th w; cbn [fgRun_loop]; [reflexivity |].
  apply bind_frame; [apply fgRun_iter_frame | intros; apply IH].
Qed.

Lemma run_schedule_frame l s : forall ths w,
  run_schedule s ths (relog l w) = map_world (relog l) (run_schedule s ths w).
Proof.
  induction s as [|id s IH]; intros ths w; cbn [run_schedule]; [reflexivity |].
  apply bind_frame; [|intros; apply IH].
  unfold sched_step. destruct (ths !! id); [|reflexivity].
  apply bind_frame; [apply fgRun_iter_frame | reflexivity].
Qed.

Lemma join_threads_frame l ids : forall ths w,
  join_threads ids ths (relog l w) = map_world (relog l) (join_threads ids ths w).
Proof.
  induction ids as [|id ids IH]; intros ths w; cbn [join_threads]; [reflexivity |].
  apply bind_frame; [|intros; apply IH].
  unfold pthread_join.
  apply bind_frame; [apply deref_frame |]. intros th w1.
  apply bind_frame; [apply fgRun_loop_frame | reflexivity].
Qed.

Variable fs : FileSystem.
Variable schedule : string -> Z -> list nat.

(** A concurrent run sets [numThreads] and its table before any worker
    starts: what they held before does not matter. *)
Lemma fg_test_frame fn fh l file j w :
  fg_test schedule file j (reframe fn (fun b => b) fh l w)
  = map_world (relog l) (fg_test schedule file j w).
Proof.
  unfold fg_test.
  apply bind_get_frame; cbv beta.
  change (table_capacity (reframe fn (fun b => b) fh l w)) with (table_capacity w).
  set (cap := table_capacity w).
  assert (Hhead : forall (k : M SeqHashTable FgHashTable unit),
             (forall w', k (relog l w') = map_world (relog l) (k w')) ->
             (emit (EvNewFg cap);; set_htable (Some (ht_new cap hash));;
              set_numThreads (to_int j);; k) (reframe fn (fun b => b) fh l w)
             = map_world (relog l)
                 ((emit (EvNewFg cap);; set_htable (Some (ht_new cap hash));;
                   set_numThreads (to_int j);; k) w)).
  { intros k Hk.
    change ((emit (EvNewFg cap);; set_htable (Some (ht_new cap hash));;
             set_numThreads (to_int j);; k) (reframe fn (fun b => b) fh l w))
      with (k (with_numThreads (to_int j)
                 (with_htable (Some (ht_new cap hash))
                    (with_events [EvNewFg cap] (reframe fn (fun b => b) fh l w))))).
    change ((emit (EvNewFg cap);; set_htable (Some (ht_new cap hash));;
             set_numThreads (to_int j);; k) w)
      with (k (with_numThreads (to_int j)
                 (with_htable (Some (ht_new cap hash)) (with_events [EvNewFg cap] w)))).
    rewrite <- Hk. f_equal.
    unfold relog, reframe, with_numThreads, with_htable, with_events. cbn.
    now rewrite app_assoc. }
  apply Hhead. intros w1.
  apply bind_frame.
  { rewrite !create_threads_spawned. cbn [map_world].
    change (fgRun_enter ?a (relog l w1)) with (fgRun_enter a w1).
    f_equal. unfold relog, reframe, with_events. cbn. now rewrite app_assoc. }
  intros ths0 w2.
  apply bind_frame; [apply run_schedule_frame |]. intros ths1 w3.
  apply bind_frame; [apply join_threads_frame |]. intros ths2 w4.
  apply bind_get_frame; cbv beta.
  change (numThreads (relog l w4)) with (numThreads w4).
  apply bind_frame; [apply emit_frame |]. intros _ w5.
  apply bind_frame; [apply emit_frame |]. intros _ w6.
  apply bind_frame; [apply emit_frame |]. intros _ w7.
  apply set_htable_frame.
Qed.

Lemma thread_counts_loop_frame l fuel file : forall j w,
  thread_counts_loop schedule fuel file j (relog l w)
  = map_world (relog l) (thread_counts_loop schedule fuel file j w).
Proof.
  induction fuel as [|fuel IH]; intros j w; cbn [thread_counts_loop]; [reflexivity |].
  destruct (j <=? 16); [|reflexivity].
  apply bind_frame; [apply fg_test_frame | intros; apply IH].
Qed.

Lemma thread_counts_loop_first fn fh l fuel file j w :
  j <= 16 ->
  thread_counts_loop schedule (S fuel) file j (reframe fn (fun b => b) fh l w)
  = map_world (relog l) (thread_counts_loop schedule (S fuel) file j w).
Proof.
  intros Hj. cbn [thread_counts_loop].
  destruct (j <=? 16) eqn:E; [|apply Z.leb_gt in E; lia].
  unfold mbind, M_bind. rewrite fg_test_frame.
  destruct (fg_test schedule file j w) as [[] w1|e w1]; cbn [map_world]; [|reflexivity].
  apply thread_counts_loop_frame.
Qed.

Lemma same_run_frame {A} l (r0 : Res SeqHashTable FgHashTable A) :
  same_run l (map_world (relog l) r0) r0.
Proof. destruct r0; cbn; auto. Qed.

Lemma bind_same_run {A B} fn fb fh l (m : M SeqHashTable FgHashTable A)
    (f : A -> M SeqHashTable FgHashTable B) w w0 :
  m w = map_world (reframe fn fb fh l) (m w0) ->
  (forall a w', same_run l (f a (reframe fn fb fh l w')) (f a w')) ->
  same_run l ((m ≫= f) w) ((m ≫= f) w0).
Proof.
  intros Hm Hf. unfold mbind, M_bind. rewrite Hm.
  destruct (m w0) as [a w'|e w']; cbn [map_world]; [apply Hf |].
  cbn. auto.
Qed.

(** Processing a file from any globals is processing it from the initial
    ones. *)
Lemma test_file_same_run fuel file w :
  same_run (log w) (test_file fs schedule fuel file w)
    (test_file fs schedule fuel file initial_world).
Proof.
  unfold test_file.
  change ((printf (OutTestingFile file);; ?k) w)
    with (k (with_events [EvPrint (OutTestingFile file)] w)).
  change ((printf (OutTestingFile file);; ?k) initial_world)
    with (k (with_events [EvPrint (OutTestingFile file)] initial_world)).
  apply (bind_same_run (fun _ => numThreads w) (fun _ => baseline w)
           (fun _ => htable w) (log w)).
  { unfold parseText.
    change ((set_input [];; ?k) ?x) with (k (with_input [] x)).
    rewrite <- parseText_loop_frame. reflexivity. }
  intros _ w1.
  change ((get ≫= ?k) ?x) with (k x x). cbv beta.
  change (table_capacity (reframe _ _ _ _ w1)) with (table_capacity w1).
  set (cap := table_capacity w1).
  change ((emit (EvNewSeq cap);; set_baseline ?p;; ?k) ?x)
    with (k (with_baseline p (with_events [EvNewSeq cap] x))).
  set (w2 := with_baseline _ (with_events _ w1)).
  replace (with_baseline (Some (ht_new cap hash))
             (with_events [EvNewSeq cap]
                (reframe (fun _ => numThreads w) (fun _ => baseline w)
                   (fun _ => htable w) (log w) w1)))
    with (reframe (fun _ => numThreads w) (fun b => b) (fun _ => htable w) (log w) w2)
    by (unfold reframe, w2, with_baseline, with_events; cbn; now rewrite app_assoc).
  apply (bind_same_run (fun _ => numThreads w) (fun b => b) (fun _ => htable w) (log w));
    [apply seqRun_frame |].
  intros _ w3.
  destruct fuel as [|fuel].
  - cbn [thread_counts_loop]. unfold mbind, M_bind, stop. cbn. auto.
  - apply (bind_same_run (fun n => n) (fun b => b) (fun h => h) (log w));
      [apply thread_counts_loop_first; lia |].
    intros _ w4.
    replace ((emit EvDeleteSeq;; set_baseline None)
               (reframe (fun n => n) (fun b => b) (fun h => h) (log w) w4))
      with (map_world (relog (log w)) ((emit EvDeleteSeq;; set_baseline None) w4)).
    + apply same_run_frame.
    + symmetry. apply (bind_frame (relog (log w))); [apply emit_frame |].
      intros _ w5. apply set_baseline_frame.
Qed.

Lemma test_file_relog l fuel file w :
  test_file fs schedule fuel file (relog l w)
  = map_world (relog l) (test_file fs schedule fuel file w).
Proof.
  unfold test_file.
  apply (bind_frame (relog l)); [apply emit_frame |]. intros _ w1.
  apply (bind_frame (relog l)).
  { unfold parseText. apply (bind_frame (relog l)); [reflexivity |].
    intros _ w2. apply parseText_loop_frame. }
  intros _ w2. apply bind_get_frame; cbv beta.
  change (table_capacity (relog l w2)) with (table_capacity w2).
  apply (bind_frame (relog l)); [apply emit_frame |]. intros _ w3.
  apply (bind_frame (relog l)); [apply set_baseline_frame |]. intros _ w4.
  apply (bind_frame (relog l)); [apply seqRun_frame |]. intros _ w5.
  apply (bind_frame (relog l)); [apply thread_counts_loop_frame |]. intros _ w6.
  apply (bind_frame (relog l)); [apply emit_frame |]. intros _ w7.
  apply set_baseline_frame.
Qed.

Lemma files_loop_relog l fuel files : forall w,
  files_loop fs schedule fuel files (relog l w)
  = map_world (relog l) (files_loop fs schedule fuel files w).
Proof.
  induction files as [|file files IH]; intros w; cbn [files_loop]; [reflexivity |].
  apply (bind_frame (relog l)); [apply test_file_relog | intros; apply IH].
Qed.

Lemma files_loop_same_run fuel file files w :
  same_run (log w) (files_loop fs schedule fuel (file :: files) w)
    (files_loop fs schedule fuel (file :: files) initial_world).
Proof.
  cbn [files_loop]. unfold mbind, M_bind.
  pose proof (test_file_same_run fuel file w) as Hw.
  destruct (test_file fs schedule fuel file initial_world) as [[] w0'|e0 w0'];
    destruct (test_file fs schedule fuel file w) as [[] w'|e w']; cbn in Hw;
    try contradiction.
  - destruct Hw as [_ ->]. rewrite files_loop_relog. apply same_run_frame.
  - exact Hw.
Qed.

Lemma files_loop_logs fuel files : forall w w',
  files_loop fs schedule fuel files w = Ok tt w' ->
  log w' = log w ++ concat (map (fun file =>
                                   log (world_of (@test_file SeqHashTable FgHashTable
                                                    _ _ fs schedule fuel file
                                                    initial_world))) files).
Proof.
  induction files as [|file files IH]; intros w w' Hrun.
  - cbn in Hrun. injection Hrun as <-. cbn. now rewrite app_nil_r.
  - cbn [files_loop] in Hrun. apply bind_ok in Hrun as ([] & w1 & Hfile & Hrest).
    pose proof (test_file_same_run fuel file w) as Hw. rewrite Hfile in Hw.
    cbn [map concat].
    destruct (test_file fs schedule fuel file initial_world) as [[] w0|e0 w0];
      cbn in Hw; [|contradiction].
    destruct Hw as [_ ->]. rewrite (IH _ _ Hrest).
    cbn [world_of log relog reframe]. now rewrite <- app_assoc.
Qed.

End Isolation.

(** X16.  No state passes from one trace file to the next.  Processing a
    file (the body of the loop of [main] over the files) from any values
    of [input], [numThreads] and the two table pointers has the outcome of
    processing it from the initial ones: it ends normally in the same
    globals, or it stops in the same way with the same [input], and it
    logs the same events.  [parseText] empties [input] first, both tables
    are constructed anew, and [numThreads] is set before any worker
    starts.  The same holds of the loop over that file and the files after
    it. *)
Theorem files_are_isolated {SeqHashTable FgHashTable : Type}
    `{!HashTable SeqHashTable} `{!HashTable FgHashTable}
    (fs : FileSystem) (schedule : string -> Z -> list nat) (fuel : nat)
    (file : string) (files : list string) (w : World SeqHashTable FgHashTable) :
  same_run (log w) (test_file fs schedule fuel file w)
    (test_file fs schedule fuel file initial_world) /\
  same_run (log w) (files_loop fs schedule fuel (file :: files) w)
    (files_loop fs schedule fuel (file :: files) initial_world).
Proof.
  split; [apply test_file_same_run | apply files_loop_same_run].
Qed.

(** X17.  The trace of a run of [main] that ends normally is the traces of
    the five files put end to end, each as it is when that file is
    processed alone from the initial globals. *)
Theorem main_trace_by_file {SeqHashTable FgHashTable : Type}
    `{!HashTable SeqHashTable} `{!HashTable FgHashTable}
    (fs : FileSystem) (schedule : string -> Z -> list nat) (fuel : nat)
    (w : World SeqHashTable FgHashTable) :
  main fs schedule fuel = Ok tt w ->
  log w = concat (map (fun file =>
                         log (world_of (@test_file SeqHashTable FgHashTable _ _
                                          fs schedule fuel file initial_world)))
                    testfiles).
Proof.
  intros Hrun. unfold main in Hrun.
  now rewrite (files_loop_logs fs schedule fuel testfiles initial_world w Hrun).
Qed.

Lemma main_trace_by_file_witness :
  log (world_of (@main ChainTable.t ChainTable.t _ _ long_files round_robin enough_fuel))
  = concat (map (fun file =>
                   log (world_of (@test_file ChainTable.t ChainTable.t _ _ long_files
                                    round_robin enough_fuel file initial_world)))
              testfiles).
Proof.
  apply (main_trace_by_file long_files round_robin enough_fuel).
  apply run_ok, long_files_complete.
Defined.
